(** * dlsys: a fluent downloader object, modelled as a state-and-exception monad

    The development embeds [src/dlsys/dlsys.py] (class [Dlsys]).

    Modelling conventions.
    - Python values are the inductive [pyval]; an instance of [Dlsys] lives in
      a heap and is named by a location, so "the same instance" is equality
      of locations.  The instance dictionary is a finite map from attribute
      names to values; the class namespace is the list of [def]s in source
      order, a later [def] replacing an earlier one of the same name.
    - A method is a function in the monad [M]: it threads the [world] (heap,
      file system, trace of effects) and either returns or raises.  As in
      Python, the effects performed before an exception stay in the world.
    - The trace lists every observable effect in order: notices printed,
      directories created, worker pools constructed and the tasks handed to
      them, HTTP requests, extractor runs, files written, decodes, exports.
    - The third-party libraries (requests, yt_dlp, pydub, multiprocessing) are
      collaborators: the class [Collaborators] gives, per URL, what the
      network answers, and the order in which a pool's workers take the
      submitted tasks.  An audio buffer is a list with one sample per
      millisecond; an MP3 file is its buffer.
    - A worker pool is modelled by the order in which its workers take the
      submitted tasks: any permutation, chosen by the collaborator.  A task
      runs to completion before the next one is taken (tasks are not
      interleaved and are not grouped in chunks), and every task is run
      before the parent looks at the results.
    - Where a library function is handed a value of a type it does not
      accept, the model raises [TypeError]; this is what [os.path] does, and
      stands for whatever requests, yt_dlp and pydub do in that case.
    - Opening a file for writing fails on the empty path and on a path that
      names a directory by its form: it ends in "/", or its last component
      is "." or "..".  The other operating-system failures of [mkdir] and
      of [open] (permissions, a full disk, a name that is too long, a
      directory that exists under the name of the file) are outside the
      model; paths are compared as strings.
    - [split_audio] counts the segments with a float division, which the
      model rounds as binary64 does; the specification counts them with the
      exact quotient, [ceil_div].  The two agree for lengths below 2^53
      milliseconds. *)

From Stdlib Require Import ZArith QArith Qround String Ascii List Lia Permutation.
From stdpp Require Import base gmap strings list fin_maps pretty.

Open Scope string_scope.
Open Scope Z_scope.

(** ** Values, exceptions, effects *)

Definition loc := positive.

(** The [def]s of the class body, one constructor per [def] statement.
    [download_image] and [download_images] are defined twice in the source
    (lines 134/228 and 145/246). *)
Inductive func_id :=
| F_init | F_set_url | F_set_output_path | F_output_dir | F_multi | F_split
| F_audio | F_download_audios | F__download_audio
| F_download_image_134 | F_download_images_145
| F_download_webpage | F_download_webpages | F_download_video
| F_download_image_228 | F_download_images_246
| F_split_audio.

#[warnings="-register-all"]
Inductive pyval :=
| VNone
| VBool (b : bool)
| VInt (n : Z)
| VStr (s : string)
| VList (xs : list pyval)
| VTuple (xs : list pyval)
| VRef (l : loc)                       (* an instance of Dlsys *)
| VBound (f : func_id) (self : loc)    (* a bound method *)
| VFunc (f : func_id).                 (* a plain function (static method) *)

Inductive exc_class :=
| ValueError | TypeError | AttributeError | ZeroDivisionError
| FileNotFoundError | IsADirectoryError
| HTTPError | ConnectionError          (* subclasses of requests' RequestException *)
| DownloadError                        (* yt_dlp *)
| CouldntDecodeError.                  (* pydub *)

Record exn := Exn { exc : exc_class; exc_msg : string }.

(** [except requests.exceptions.RequestException] *)
Definition is_RequestException (c : exc_class) : bool :=
  match c with HTTPError | ConnectionError => true | _ => false end.

(** One sample per millisecond. *)
Abbreviation audio_buffer := (list Z) (only parsing).

Inductive content :=
| Bytes (b : string)
| Text (t : string)
| Mp3 (a : audio_buffer).

Inductive event :=
| EvPrint (msg : string)
| EvMkdir (path : string)
| EvPoolOpen
| EvPoolSubmit (target : func_id) (arg : pyval)
| EvPoolClose
| EvHttpGet (url : string)
| EvExtract (url outtmpl : string)
| EvFileWrite (path : string)
| EvDecode (path : string)
| EvExport (path : string) (segment : audio_buffer).

Definition is_pool_event (e : event) : bool :=
  match e with EvPoolOpen | EvPoolSubmit _ _ | EvPoolClose => true | _ => false end.

Record world := World {
  heap : gmap loc (gmap string pyval);
  files : gmap string content;
  dirs : gset string;
  trace : list event
}.

(** An HTTP response: status code, raw body, decoded body. *)
Record response := Response { status_code : Z; resp_content : string; resp_text : string }.

(** The external collaborators. *)
Class Collaborators := {
  (* requests.get: a connection-level failure (its message) or a response *)
  requests_get : string → string + response;
  (* yt_dlp extract_info(download=True) then prepare_filename, for a URL and
     an output template: an extractor failure (its message), or the prepared
     file name and the audio that the post-processor leaves on disk *)
  ydl_extract_info : string → string → string + (string * audio_buffer);
  (* yt_dlp download([url]) with an output template: a failure or the file *)
  ydl_download : string → string → string + (string * string);
  (* the order in which the workers of a pool take n submitted tasks *)
  pool_schedule : nat → list nat;
  pool_schedule_perm : ∀ n, pool_schedule n ≡ₚ seq 0 n
}.

(** ** The monad *)

Inductive outcome (A : Type) :=
| Returns (a : A)
| Raises (e : exn).
Arguments Returns {A} a.
Arguments Raises {A} e.

Definition M (A : Type) : Type := world → outcome A * world.

Definition ret {A} (a : A) : M A := λ w, (Returns a, w).

Definition raise {A} (c : exc_class) (msg : string) : M A :=
  λ w, (Raises (Exn c msg), w).

Definition bind {A B} (m : M A) (k : A → M B) : M B :=
  λ w, match m w with
       | (Returns a, w') => k a w'
       | (Raises e, w') => (Raises e, w')
       end.

Notation "'let!' x ':=' m 'in' k" := (bind m (λ x, k))
  (at level 10, x name, m at level 100, k at level 200,
   format "'[v' 'let!'  x  :=  m  'in'  '/' k ']'").
Notation "m >> k" := (bind m (λ _, k))
  (at level 100, k at level 200, right associativity, format "'[v' m  >>  '/' k ']'").

(** [try: body except RequestException as e: handler e] *)
Definition try_except_RequestException {A} (body : M A) (handler : exn → M A) : M A :=
  λ w, match body w with
       | (Raises e, w') => if is_RequestException (exc e) then handler e w' else (Raises e, w')
       | r => r
       end.

Definition emit (e : event) : M unit :=
  λ w, (Returns tt, World (heap w) (files w) (dirs w) (trace w ++ [e])).

Definition print (msg : string) : M unit := emit (EvPrint msg).

Definition get_world : M world := λ w, (Returns w, w).

Definition set_heap (h : gmap loc (gmap string pyval)) : M unit :=
  λ w, (Returns tt, World h (files w) (dirs w) (trace w)).

Definition set_files (f : gmap string content) : M unit :=
  λ w, (Returns tt, World (heap w) f (dirs w) (trace w)).

Definition set_dirs (d : gset string) : M unit :=
  λ w, (Returns tt, World (heap w) (files w) d (trace w)).

(** [for x in xs: body x] *)
Fixpoint for_each {A} (xs : list A) (body : A → M unit) : M unit :=
  match xs with
  | [] => ret tt
  | x :: xs' => body x >> for_each xs' body
  end.

(** [ [f x for x in xs] ], evaluated left to right *)
Fixpoint map_M {A B} (f : A → M B) (xs : list A) : M (list B) :=
  match xs with
  | [] => ret []
  | x :: xs' => let! y := f x in let! ys := map_M f xs' in ret (y :: ys)
  end.

(** ** Python strings and [os.path] (POSIX flavour) *)

Definition chars : string → list ascii := list_ascii_of_string.
Definition str : list ascii → string := string_of_list_ascii.

Definition ascii_eqb (a b : ascii) : bool := Ascii.eqb a b.

(** [s.rfind(c)] for a one-character [c]: the last index, or -1 *)
Fixpoint rfind_go (c : ascii) (l : list ascii) (i last : Z) : Z :=
  match l with
  | [] => last
  | a :: r => rfind_go c r (i + 1) (if ascii_eqb a c then i else last)
  end.

Definition rfind (s : string) (c : ascii) : Z := rfind_go c (chars s) 0 (-1).

(** [s[i:]] and [s[:i]] for an index [0 <= i] *)
Definition slice_from (s : string) (i : Z) : string := str (drop (Z.to_nat i) (chars s)).
Definition slice_to (s : string) (i : Z) : string := str (take (Z.to_nat i) (chars s)).

(** [s.rstrip(c)] *)
Fixpoint lstrip_chars (c : ascii) (l : list ascii) : list ascii :=
  match l with
  | a :: r => if ascii_eqb a c then lstrip_chars c r else l
  | [] => []
  end.

Definition rstrip (s : string) (c : ascii) : string :=
  str (reverse (lstrip_chars c (reverse (chars s)))).

(** [s.replace(a, b)] for one-character [a] and [b] *)
Definition replace (s : string) (a b : ascii) : string :=
  str (map (λ c, if ascii_eqb c a then b else c) (chars s)).

(** [l] starts with [sep] *)
Fixpoint starts_with (sep l : list ascii) : bool :=
  match sep, l with
  | [], _ => true
  | a :: sep', b :: l' => ascii_eqb a b && starts_with sep' l'
  | _ :: _, [] => false
  end.

(** [s.split(sep)] for a non-empty [sep]: a scan from the left that cuts at
    every occurrence of [sep] not overlapping the previous cut.  [skip]
    counts the characters of a matched separator still to pass over, [cur]
    is the piece read so far. *)
Fixpoint split_go (sep : list ascii) (skip : nat) (cur l : list ascii) : list (list ascii) :=
  match l with
  | [] => [cur]
  | c :: r =>
      match skip with
      | S k => split_go sep k cur r
      | O => if starts_with sep l
             then cur :: split_go sep (length sep - 1) [] r
             else split_go sep 0 (cur ++ [c]) r
      end
  end.

Definition py_split (s sep : string) : list string :=
  map str (split_go (chars sep) 0 [] (chars s)).

(** [xs[-1]] on a non-empty list of strings *)
Definition last_item (xs : list string) : string := List.last xs "".

Definition SEP : ascii := "/"%char.
Definition EXTSEP : ascii := "."%char.

(** posixpath.basename *)
Definition basename (p : string) : string :=
  let i := rfind p SEP + 1 in
  slice_from p i.

(** posixpath.dirname *)
Definition dirname (p : string) : string :=
  let i := rfind p SEP + 1 in
  let head := slice_to p i in
  if negb (String.eqb head "") && negb (forallb (λ c, ascii_eqb c SEP) (chars head))
  then rstrip head SEP
  else head.

(** posixpath.join with two arguments *)
Definition path_join (a b : string) : string :=
  if starts_with [SEP] (chars b) then b
  else if String.eqb a "" || starts_with [SEP] (reverse (chars a)) then a ++ b
  else a ++ "/" ++ b.

(** genericpath._splitext: the extension starts at the last dot of the last
    component, unless only dots precede it there *)
Definition splitext (p : string) : string * string :=
  let sepIndex := rfind p SEP in
  let dotIndex := rfind p EXTSEP in
  if (sepIndex <? dotIndex)
     && negb (forallb (λ c, ascii_eqb c EXTSEP)
                (take (Z.to_nat (dotIndex - (sepIndex + 1)))
                      (drop (Z.to_nat (sepIndex + 1)) (chars p))))
  then (slice_to p dotIndex, slice_from p dotIndex)
  else (p, "").

(** ** Python values: truth, length, iteration *)

Definition truthy (v : pyval) : bool :=
  match v with
  | VNone => false
  | VBool b => b
  | VInt n => negb (n =? 0)
  | VStr s => negb (String.eqb s "")
  | VList xs | VTuple xs => match xs with [] => false | _ => true end
  | VRef _ | VBound _ _ | VFunc _ => true
  end.

Definition type_name (v : pyval) : string :=
  match v with
  | VNone => "NoneType" | VBool _ => "bool" | VInt _ => "int" | VStr _ => "str"
  | VList _ => "list" | VTuple _ => "tuple" | VRef _ => "Dlsys"
  | VBound _ _ => "method" | VFunc _ => "function"
  end.

(** the items of [for x in v] *)
Definition py_iter (v : pyval) : M (list pyval) :=
  match v with
  | VList xs | VTuple xs => ret xs
  | VStr s => ret (map (λ c, VStr (String c "")) (chars s))
  | _ => raise TypeError ("'" ++ type_name v ++ "' object is not iterable")
  end.

(** [len(v)] *)
Definition py_len (v : pyval) : M nat :=
  match v with
  | VList xs | VTuple xs => ret (length xs)
  | VStr s => ret (String.length s)
  | _ => raise TypeError ("object of type '" ++ type_name v ++ "' has no len()")
  end.

(** [v[0]] on a value of positive length *)
Definition py_first (v : pyval) : M pyval :=
  match v with
  | VList (x :: _) | VTuple (x :: _) => ret x
  | VStr (String c _) => ret (VStr (String c ""))
  | _ => raise TypeError ("'" ++ type_name v ++ "' object is not subscriptable")
  end.

(** [str(v)] as an f-string shows it, for the values that reach one *)
Definition py_str (v : pyval) : string :=
  match v with
  | VInt n => pretty n
  | VBool b => if b then "True" else "False"
  | VStr s => s
  | v => "<" ++ type_name v ++ ">"
  end.

(** a value used where the libraries need a string (a path, a URL) *)
Definition as_str (v : pyval) : M string :=
  match v with
  | VStr s => ret s
  | _ => raise TypeError ("expected str, not " ++ type_name v)
  end.

(** ** The class namespace and attribute lookup *)

Inductive member :=
| Function (f : func_id)       (* a [def]: looked up on an instance, it binds [self] *)
| StaticMethod (f : func_id).  (* a [def] under [@staticmethod] *)

(** The [def] statements of [class Dlsys], in source order. *)
Definition class_body : list (string * member) :=
  [ ("__init__", Function F_init);
    ("set_url", Function F_set_url);
    ("set_output_path", Function F_set_output_path);
    ("output_dir", Function F_output_dir);
    ("multi", Function F_multi);
    ("split", Function F_split);
    ("audio", Function F_audio);
    ("download_audios", Function F_download_audios);
    ("_download_audio", Function F__download_audio);
    ("download_image", Function F_download_image_134);
    ("download_images", Function F_download_images_145);
    ("download_webpage", Function F_download_webpage);
    ("download_webpages", Function F_download_webpages);
    ("download_video", Function F_download_video);
    ("download_image", StaticMethod F_download_image_228);
    ("download_images", Function F_download_images_246);
    ("split_audio", Function F_split_audio) ].

(** Executing the class body binds each name in turn: a later [def]
    replaces an earlier one. *)
Definition class_dict : gmap string member :=
  foldl (λ ns d, <[d.1 := d.2]> ns) ∅ class_body.

Definition no_attribute {A} (name : string) : M A :=
  raise AttributeError ("'Dlsys' object has no attribute '" ++ name ++ "'").

(** [self.name]: the instance dictionary first (functions and static methods
    are non-data descriptors), then the class. *)
Definition getattr (self : loc) (name : string) : M pyval :=
  λ w, match heap w !! self with
       | None => no_attribute name w
       | Some d =>
           match d !! name with
           | Some v => (Returns v, w)
           | None =>
               match class_dict !! name with
               | Some (Function f) => (Returns (VBound f self), w)
               | Some (StaticMethod f) => (Returns (VFunc f), w)
               | None => no_attribute name w
               end
           end
       end.

(** [self.name = v] *)
Definition setattr (self : loc) (name : string) (v : pyval) : M unit :=
  λ w, match heap w !! self with
       | None => no_attribute name w
       | Some d => set_heap (<[self := <[name := v]> d]> (heap w)) w
       end.

(** ** File system, network and codec primitives *)

(** os.path.exists *)
Definition path_exists (p : string) : M bool :=
  λ w, (Returns (bool_decide (is_Some (files w !! p)) || bool_decide (p ∈ dirs w)), w).

(** Path(p).mkdir(parents=True, exist_ok=True) *)
Definition mkdir (p : pyval) : M unit :=
  let! path := as_str p in
  emit (EvMkdir path) >>
  let! w := get_world in
  set_dirs ({[path]} ∪ dirs w).

(** A name that can be the last component of the path of a file: not
    empty, and neither "." nor "..". *)
Definition is_file_name (name : string) : bool :=
  negb (String.eqb name "" || String.eqb name "." || String.eqb name "..").

(** A path that names a directory whatever the file system holds: it ends
    in "/", or its last component is "." or "..". *)
Definition names_directory (path : string) : bool :=
  negb (is_file_name (basename path)).

(** [with open(path, mode) as file: file.write(data)].  [open] fails on the
    empty path (ENOENT) and on a path that names a directory (EISDIR, when
    the directory above it exists, as it does after the [mkdir] of the
    batches); nothing is written then. *)
Definition write_file (path : string) (data : content) : M unit :=
  if String.eqb path ""
  then raise FileNotFoundError "[Errno 2] No such file or directory: ''"
  else if names_directory path
  then raise IsADirectoryError ("[Errno 21] Is a directory: '" ++ path ++ "'")
  else
    emit (EvFileWrite path) >>
    let! w := get_world in
    set_files (<[path := data]> (files w)).

(** [response.raise_for_status()] *)
Definition raise_for_status (url : string) (r : response) : M unit :=
  if (400 <=? status_code r) && (status_code r <? 600)
  then raise HTTPError (pretty (status_code r) ++ " Error for url: " ++ url)
  else ret tt.

(** [AudioSegment.from_mp3(path)] *)
Definition from_mp3 (path : string) : M audio_buffer :=
  emit (EvDecode path) >>
  let! w := get_world in
  match files w !! path with
  | Some (Mp3 a) => ret a
  | _ => raise CouldntDecodeError ("Decoding failed: " ++ path)
  end.

(** [segment.export(path, format="mp3")] *)
Definition export (segment : audio_buffer) (path : string) : M unit :=
  emit (EvExport path segment) >>
  let! w := get_world in
  set_files (<[path := Mp3 segment]> (files w)).

(** A standard list slice [l[s:e]]: negative bounds count from the end and
    both are clamped to the list. *)
Definition py_slice {A} (l : list A) (s e : Z) : list A :=
  let n := Z.of_nat (length l) in
  let clamp i := Z.min n (Z.max 0 (if i <? 0 then i + n else i)) in
  take (Z.to_nat (clamp e - clamp s)) (drop (Z.to_nat (clamp s)) l).

(** pydub's [audio[start:end]] in milliseconds: both bounds are cut to the
    length, a negative position counts from the end, then the data is sliced *)
Definition ms_slice (a : audio_buffer) (start_time end_time : Z) : audio_buffer :=
  let n := Z.of_nat (length a) in
  let start_ := Z.min start_time n in
  let end_ := Z.min end_time n in
  let parse_position v := if v <? 0 then n - Z.abs v else v in
  py_slice a (parse_position start_) (parse_position end_).

(** A binary64 number: [(-1)^neg * mantissa * 2^exponent], with a
    mantissa that is not negative. *)
Record float := Float { f_neg : bool; f_mantissa : Z; f_exponent : Z }.

(** [x / y] rounded to the nearest integer, a tie to the even one, for
    [y > 0] *)
Definition round_half_even (x y : Z) : Z :=
  let k := x / y in
  let r := x mod y in
  if 2 * r <? y then k
  else if y <? 2 * r then k + 1
  else if Z.even k then k else k + 1.

(** the [e] with [2^e <= a / b < 2^(e+1)], for positive [a] and [b] *)
Definition quotient_exponent (a b : Z) : Z :=
  let d := Z.log2 a - Z.log2 b in
  if a * 2 ^ Z.max 0 (- d) <? b * 2 ^ Z.max 0 d then d - 1 else d.

(** [a / b] on integers with [b <> 0]: the exact quotient rounded to the
    nearest binary64 number, a tie to the even mantissa (CPython's
    [long_true_divide] rounds correctly).  A quotient in [2^e, 2^(e+1)) is
    rounded to a multiple of [2^(e-52)]; below [2^-1022] the numbers are the
    multiples of [2^-1074], so that a quotient of [2^-1075] or less becomes
    0.0.  No quotient is too large for a float here: the dividend of
    [split_audio] is a length, below 2^63. *)
Definition true_divide (a b : Z) : float :=
  let neg := xorb (a <? 0) (b <? 0) in
  let a := Z.abs a in
  let b := Z.abs b in
  if a =? 0 then Float neg 0 0
  else
    let q := Z.max (quotient_exponent a b) (-1022) - 52 in
    Float neg (round_half_even (a * 2 ^ Z.max 0 (- q)) (b * 2 ^ Z.max 0 q)) q.

(** [math.ceil(x)]: the least integer that is not below [x] *)
Definition math_ceil (x : float) : Z :=
  let m := f_mantissa x in
  let q := f_exponent x in
  if f_neg x
  then - (if 0 <=? q then m * 2 ^ q else m / 2 ^ (- q))
  else if 0 <=? q then m * 2 ^ q else - ((- m) / 2 ^ (- q)).

(** a number as the arithmetic of [split_audio] sees it *)
Definition as_number (v : pyval) : option Z :=
  match v with
  | VInt n => Some n
  | VBool b => Some (if b then 1 else 0)
  | _ => None
  end.

(** ** Worker pools *)

(** A task in a worker process: what it raises is shipped back as a value,
    its effects on disk and network are real, its changes to its own copy of
    the parent's objects are lost. *)
Definition in_worker {A} (task : M A) : M (outcome A) :=
  λ w, let '(r, w') := task w in
       (Returns r, World (heap w) (files w') (dirs w') (trace w')).

Definition first_failure {A} (rs : list (outcome A)) : option exn :=
  head (omap (λ r, match r with Raises e => Some e | Returns _ => None end) rs).

Section Pool.
Context `{!Collaborators}.

(** The workers take the submitted tasks one at a time in the order
    [pool_schedule] and run each to completion; the result is what each
    task returned or raised, by task index and in order of completion. *)
Definition pool_run {A} (tasks : list (M A)) : M (list (nat * outcome A)) :=
  map_M (λ it : nat * M A, let! r := in_worker it.2 in ret (it.1, r))
        (omap (λ i, (λ t, (i, t)) <$> tasks !! i) (pool_schedule (length tasks))).

(** [with multiprocessing.Pool() as pool: body]: the pool is torn down on
    the way out, also when [body] raises. *)
Definition with_pool {A} (body : M A) : M A :=
  emit EvPoolOpen >>
  (λ w, match body w with
        | (r, w') => (r, World (heap w') (files w') (dirs w') (trace w' ++ [EvPoolClose]))
        end).

(** [pool.map(f, xs)]: every item becomes a task; the call returns when all
    are done, with the results in the order of [xs], or raises what the
    first task to fail raised. *)
Definition pool_map (target : func_id) (f : pyval → M pyval) (xs : pyval) : M (list pyval) :=
  let! items := py_iter xs in
  for_each items (λ x, emit (EvPoolSubmit target x)) >>
  let! done := pool_run (map f items) in
  match first_failure (map snd done) with
  | Some e => raise (exc e) (exc_msg e)
  | None =>
      let results : gmap nat (outcome pyval) := list_to_map done in
      ret (omap (λ i, match results !! i with Some (Returns v) => Some v | _ => None end)
                (seq 0 (length items)))
  end.

(** [for task in tasks: task.get()] after every [pool.apply_async]: the
    tasks run as above; [get] is called in the order of submission and
    raises what its task raised. *)
Definition pool_join {A} (tasks : list (M A)) : M unit :=
  let! done := pool_run tasks in
  let results : gmap nat (outcome A) := list_to_map done in
  match first_failure (omap (λ i, results !! i) (seq 0 (length tasks))) with
  | Some e => raise (exc e) (exc_msg e)
  | None => ret tt
  end.

End Pool.

(** ** The methods of [Dlsys]

    Each definition follows the [def] of the same name.  Where the source
    calls [self.m(...)], the model calls the definition that the name [m]
    resolves to in [class_dict] (see [internal_calls_resolve]). *)

Section Methods.
Context `{!Collaborators}.

(** lines 42-47 *)
Definition __init__ (self : loc) : M pyval :=
  setattr self "urls" (VList []) >>
  setattr self "output_path" (VStr "%(title)s.%(ext)s") >>
  setattr self "output_dir" (VStr ".") >>
  setattr self "use_multiprocessing" (VBool false) >>
  setattr self "split_minutes" VNone >>
  ret VNone.

(** lines 49-57 *)
Definition set_url (self : loc) (urls : pyval) : M pyval :=
  match urls with
  | VStr _ => setattr self "urls" (VList [urls]) >> ret (VRef self)
  | VList _ => setattr self "urls" urls >> ret (VRef self)
  | _ => raise ValueError "URLs must be a string or a list of strings."
  end.

(** lines 59-62 *)
Definition set_output_path (self : loc) (output_path : pyval) : M pyval :=
  setattr self "output_path" output_path >>
  ret (VRef self).

(** lines 64-67 *)
Definition output_dir (self : loc) (output_dir : pyval) : M pyval :=
  setattr self "output_dir" output_dir >>
  ret (VRef self).

(** lines 69-72 *)
Definition multi (self : loc) : M pyval :=
  setattr self "use_multiprocessing" (VBool true) >>
  ret (VRef self).

(** lines 74-77 *)
Definition split (self : loc) (minutes : pyval) : M pyval :=
  setattr self "split_minutes" minutes >>
  ret (VRef self).

(** lines 116-132.  The extractor, on success, leaves the transcoded audio
    next to the prepared file name, with the extension [.mp3]. *)
Definition _download_audio (self : loc) (url : pyval) : M pyval :=
  let! od := getattr self "output_dir" in
  let! op := getattr self "output_path" in
  let! od := as_str od in
  let! op := as_str op in
  let outtmpl := path_join od op in
  let! url := as_str url in
  emit (EvExtract url outtmpl) >>
  match ydl_extract_info url outtmpl with
  | inl msg => raise DownloadError msg
  | inr (filename, a) =>
      let output_path := (splitext filename).1 ++ ".mp3" in
      let! w := get_world in
      set_files (<[output_path := Mp3 a]> (files w)) >>
      print ("Audio downloaded for: " ++ url) >>
      ret (VStr output_path)
  end.

(** lines 96-114 *)
Definition download_audios (self : loc) (audio_urls : pyval) : M pyval :=
  let! od := getattr self "output_dir" in
  mkdir od >>
  let! mp := getattr self "use_multiprocessing" in
  let! output_files :=
    (if truthy mp
     then with_pool (pool_map F__download_audio (_download_audio self) audio_urls)
     else let! urls := py_iter audio_urls in
          map_M (_download_audio self) urls) in
  print "All audio files downloaded!" >>
  ret (VList output_files).

(** lines 267-300 *)
Definition split_audio (self : loc) (input_file : pyval) (minutes : pyval) : M pyval :=
  let! input_file := as_str input_file in
  let! found := path_exists input_file in
  if negb found
  then raise FileNotFoundError ("The file " ++ input_file ++ " does not exist.")
  else
    let! audio := from_mp3 input_file in
    match as_number minutes with
    | None => raise TypeError "unsupported operand type(s)"
    | Some m =>
        let segment_length_ms := m * 60 * 1000 in
        if segment_length_ms =? 0 then raise ZeroDivisionError "division by zero"
        else
          let num_segments :=
            math_ceil (true_divide (Z.of_nat (length audio)) segment_length_ms) in
          for_each (seq 0 (Z.to_nat num_segments)) (λ i,
            let start_time := Z.of_nat i * segment_length_ms in
            let end_time := (Z.of_nat i + 1) * segment_length_ms in
            let segment := ms_slice audio start_time end_time in
            let base_name := (splitext (basename input_file)).1 in
            let output_filename := base_name ++ "_part" ++ pretty (Z.of_nat i + 1) ++ ".mp3" in
            let output_path := path_join (dirname input_file) output_filename in
            export segment output_path >>
            print ("Exported: " ++ output_path)) >>
          print ("Split " ++ input_file ++ " into " ++ pretty num_segments
                 ++ " parts of " ++ py_str minutes ++ " minutes each.") >>
          ret (VRef self)
    end.

(** lines 79-94 *)
Definition audio (self : loc) : M pyval :=
  let! urls := getattr self "urls" in
  if negb (truthy urls)
  then raise ValueError "URL(s) not set. Use set_url() method first."
  else
    let! n := py_len urls in
    (if (n =? 1)%nat
     then
       let! url := py_first urls in
       let! output_file := _download_audio self url in
       let! split_minutes := getattr self "split_minutes" in
       if truthy split_minutes
       then split_audio self output_file split_minutes >> ret tt
       else ret tt
     else
       let! output_files := download_audios self urls in
       let! split_minutes := getattr self "split_minutes" in
       if truthy split_minutes
       then let! files := py_iter output_files in
            for_each files (λ file,
              let! split_minutes := getattr self "split_minutes" in
              split_audio self file split_minutes >> ret tt)
       else ret tt) >>
    ret (VRef self).

(** the body shared by the two [download_image]s and [download_webpage]:
    GET, check the status, write the body, report *)
Definition fetch_to_file (url output_path : string) (body : response → content)
    (ok_notice : string) : M unit :=
  emit (EvHttpGet url) >>
  let! response :=
    match requests_get url with
    | inl msg => raise ConnectionError msg
    | inr r => ret r
    end in
  raise_for_status url response >>
  write_file output_path (body response) >>
  print (ok_notice ++ output_path).

(** lines 134-143 (replaced by the [def] of line 228 when the class body
    has run) *)
Definition download_image_shadowed (self : loc) (url output_path : pyval) : M pyval :=
  let! url := as_str url in
  let! output_path := as_str output_path in
  try_except_RequestException
    (fetch_to_file url output_path (λ r, Bytes (resp_content r))
       "Image downloaded and saved to: ")
    (λ e, print ("Error downloading image from " ++ url ++ ": " ++ exc_msg e)) >>
  ret VNone.

(** lines 227-244, a static method *)
Definition download_image (url output_path : pyval) : M pyval :=
  let! url := as_str url in
  let! output_path := as_str output_path in
  try_except_RequestException
    (fetch_to_file url output_path (λ r, Bytes (resp_content r))
       "Image downloaded and saved to: ")
    (λ e, print ("Error downloading image " ++ url ++ ": " ++ exc_msg e)) >>
  ret VNone.

(** lines 172-183 *)
Definition download_webpage (self : loc) (url output_path : pyval) : M pyval :=
  let! url := as_str url in
  let! output_path := as_str output_path in
  try_except_RequestException
    (fetch_to_file url output_path (λ r, Text (resp_text r))
       "Webpage downloaded and saved to: ")
    (λ e, print ("Error downloading webpage " ++ url ++ ": " ++ exc_msg e)) >>
  ret VNone.

(** [os.path.basename(url)], line 157/165/257 *)
Definition image_filename (url : pyval) : M string :=
  let! url := as_str url in
  ret (basename url).

(** [f"{url.split('://')[-1].replace('/', '_')}.html"], line 197/205.  A
    string is split.  An instance of the class has an attribute [split]
    too: the method of lines 74-77, unless the instance dictionary binds
    the name.  The method stores its argument in [split_minutes] and
    returns the instance, on which the subscript [-1] then fails.  (Should
    the instance dictionary bind [split] to a function, the function is not
    run here; no method of the class makes such a binding.)  Any other
    value has no attribute [split]. *)
Definition webpage_filename (url : pyval) : M string :=
  match url with
  | VStr url => ret (replace (last_item (py_split url "://")) "/" "_" ++ ".html")
  | VRef l =>
      let! m := getattr l "split" in
      match m with
      | VBound F_split self =>
          split self (VStr "://") >>
          raise TypeError "'Dlsys' object is not subscriptable"
      | VBound _ _ | VFunc _ => raise TypeError "wrong arguments for a method of Dlsys"
      | v => raise TypeError ("'" ++ type_name v ++ "' object is not callable")
      end
  | _ => raise AttributeError ("'" ++ type_name url ++ "' object has no attribute 'split'")
  end.

(** the loop that fills [tasks] with [pool.apply_async(target, (url, output_path))] *)
Definition submit_all (target : func_id) (filename : pyval → M string) (od : pyval)
    (urls : list pyval) : M (list (pyval * pyval)) :=
  map_M (λ url,
    let! filename := filename url in
    let! od := as_str od in
    let output_path := VStr (path_join od filename) in
    emit (EvPoolSubmit target (VTuple [url; output_path])) >>
    ret (url, output_path)) urls.

(** the sequential loop over the URLs *)
Definition run_all (job : pyval → pyval → M pyval) (filename : pyval → M string)
    (od : pyval) (urls : list pyval) : M unit :=
  for_each urls (λ url,
    let! filename := filename url in
    let! od := as_str od in
    let output_path := VStr (path_join od filename) in
    job url output_path >> ret tt).

(** lines 145-170 (replaced by the [def] of line 246 when the class body
    has run) *)
Definition download_images_shadowed (self : loc) (image_urls : pyval) : M pyval :=
  let! od := getattr self "output_dir" in
  mkdir od >>
  let! mp := getattr self "use_multiprocessing" in
  (if truthy mp
   then with_pool (
     let! urls := py_iter image_urls in
     let! tasks := submit_all F_download_image_228 image_filename od urls in
     pool_join (map (λ t : pyval * pyval, download_image t.1 t.2) tasks))
   else
     let! urls := py_iter image_urls in
     run_all download_image image_filename od urls) >>
  print "All images downloaded!" >>
  ret (VRef self).

(** lines 246-265 *)
Definition download_images (self : loc) (image_urls : pyval) : M pyval :=
  let! od := getattr self "output_dir" in
  mkdir od >>
  with_pool (
    let! urls := py_iter image_urls in
    let! tasks := submit_all F_download_image_228 image_filename od urls in
    pool_join (map (λ t : pyval * pyval, download_image t.1 t.2) tasks)) >>
  print "All images downloaded!" >>
  ret (VRef self).

(** lines 185-210 *)
Definition download_webpages (self : loc) (webpage_urls : pyval) : M pyval :=
  let! od := getattr self "output_dir" in
  mkdir od >>
  let! mp := getattr self "use_multiprocessing" in
  (if truthy mp
   then with_pool (
     let! urls := py_iter webpage_urls in
     let! tasks := submit_all F_download_webpage webpage_filename od urls in
     pool_join (map (λ t : pyval * pyval, download_webpage self t.1 t.2) tasks))
   else
     let! urls := py_iter webpage_urls in
     run_all (download_webpage self) webpage_filename od urls) >>
  print "All webpages downloaded!" >>
  ret (VRef self).

(** lines 212-225 *)
Definition download_video (self : loc) : M pyval :=
  let! url := getattr self "url" in
  if negb (truthy url)
  then raise ValueError "URL not set. Use set_url() method first."
  else
    let! outtmpl := getattr self "output_path" in
    let! outtmpl := as_str outtmpl in
    let! url := getattr self "url" in
    let! url := as_str url in
    emit (EvExtract url outtmpl) >>
    match ydl_download url outtmpl with
    | inl msg => raise DownloadError msg
    | inr (path, data) =>
        let! w := get_world in
        set_files (<[path := Bytes data]> (files w)) >>
        let! output_path := getattr self "output_path" in
        let! output_path := as_str output_path in
        print ("Video downloaded and saved to: " ++ output_path) >>
        ret (VRef self)
    end.

End Methods.

(** ** Calls from outside: [obj.name(args)] and [Dlsys()] *)

Section Calls.
Context `{!Collaborators}.

(** applying a function of the class to its positional arguments *)
Definition call_function (f : func_id) (args : list pyval) : M pyval :=
  match f, args with
  | F_init, [VRef self] => __init__ self
  | F_set_url, [VRef self; urls] => set_url self urls
  | F_set_output_path, [VRef self; output_path] => set_output_path self output_path
  | F_output_dir, [VRef self; dir] => output_dir self dir
  | F_multi, [VRef self] => multi self
  | F_split, [VRef self; minutes] => split self minutes
  | F_audio, [VRef self] => audio self
  | F_download_audios, [VRef self; audio_urls] => download_audios self audio_urls
  | F__download_audio, [VRef self; url] => _download_audio self url
  | F_download_image_134, [VRef self; url; output_path] =>
      download_image_shadowed self url output_path
  | F_download_images_145, [VRef self; image_urls] => download_images_shadowed self image_urls
  | F_download_webpage, [VRef self; url; output_path] => download_webpage self url output_path
  | F_download_webpages, [VRef self; webpage_urls] => download_webpages self webpage_urls
  | F_download_video, [VRef self] => download_video self
  | F_download_image_228, [url; output_path] => download_image url output_path
  | F_download_images_246, [VRef self; image_urls] => download_images self image_urls
  | F_split_audio, [VRef self; input_file; minutes] => split_audio self input_file minutes
  | _, _ => raise TypeError "wrong arguments for a method of Dlsys"
  end.

(** [callee(args)] *)
Definition call (callee : pyval) (args : list pyval) : M pyval :=
  match callee with
  | VBound f self => call_function f (VRef self :: args)
  | VFunc f => call_function f args
  | v => raise TypeError ("'" ++ type_name v ++ "' object is not callable")
  end.

(** [receiver.name(args)] *)
Definition call_method (receiver : pyval) (name : string) (args : list pyval) : M pyval :=
  match receiver with
  | VRef self => let! m := getattr self name in call m args
  | v => raise AttributeError ("'" ++ type_name v ++ "' object has no attribute '" ++ name ++ "'")
  end.

(** [receiver.m1(args1).m2(args2)...]: each call is made on what the
    previous one returned *)
Fixpoint chain (receiver : pyval) (calls : list (string * list pyval)) : M pyval :=
  match calls with
  | [] => ret receiver
  | (name, args) :: rest =>
      let! r := call_method receiver name args in
      chain r rest
  end.

(** [Dlsys()]: a fresh instance, initialised by [__init__] *)
Definition Dlsys : M pyval :=
  λ w, let self := fresh (dom (heap w)) in
       (set_heap (<[self := ∅]> (heap w)) >>
        __init__ self >>
        ret (VRef self)) w.

End Calls.

Definition empty_world : world := World ∅ ∅ ∅ [].

(** ** Vocabulary of the statements *)

(** [self.name] is bound in the instance dictionary to [v] *)
Definition has_attr (w : world) (self : loc) (name : string) (v : pyval) : Prop :=
  ∃ d, heap w !! self = Some d ∧ d !! name = Some v.

(** the instance dictionary of [self] has no entry [name] *)
Definition lacks_attr (w : world) (self : loc) (name : string) : Prop :=
  ∃ d, heap w !! self = Some d ∧ d !! name = None.

(** the events that [w'] has on top of [w] *)
Definition new_events (w w' : world) : list event :=
  drop (length (trace w)) (trace w').

(** the files exported, and the files written, among some events *)
Definition exports_of (evs : list event) : list (string * audio_buffer) :=
  omap (λ e, match e with EvExport p seg => Some (p, seg) | _ => None end) evs.

Definition writes_of (evs : list event) : list string :=
  omap (λ e, match e with EvFileWrite p => Some p | _ => None end) evs.

(** the GET of [url] does not yield a body: the connection fails, or the
    status is one that [raise_for_status] turns into an exception *)
Definition fetch_fails `{!Collaborators} (url : string) : bool :=
  match requests_get url with
  | inl _ => true
  | inr r => (400 <=? status_code r) && (status_code r <? 600)
  end.

(** the job of [url] with the output [path] does not fail at [open]: the
    fetch fails before, or the path can be that of a file *)
Definition job_completes `{!Collaborators} (url path : string) : bool :=
  fetch_fails url || negb (names_directory path).

(** the instance dictionary that [__init__] leaves *)
Definition init_dict : gmap string pyval :=
  <["split_minutes" := VNone]>
    (<["use_multiprocessing" := VBool false]>
       (<["output_dir" := VStr "."]>
          (<["output_path" := VStr "%(title)s.%(ext)s"]>
             (<["urls" := VList []]> ∅)))).

(** the world after [self.name = v] *)
Definition store_attr (w : world) (self : loc) (name : string) (v : pyval) : world :=
  World (alter (insert name v) self (heap w)) (files w) (dirs w) (trace w).

Definition is_string (v : pyval) : bool :=
  match v with VStr _ => true | _ => false end.

Definition is_sequence_of_strings (v : pyval) : bool :=
  match v with
  | VList xs | VTuple xs => forallb is_string xs
  | _ => false
  end.

(** the world in which [Dlsys()] has just run, and the instance it made *)
Definition fresh_world : world := (Dlsys empty_world).2.
Definition fresh_instance : loc := fresh (dom (heap empty_world)).

(** the instance dictionary has exactly the attributes set by [__init__] *)
Definition instance_ok (w : world) (self : loc) : Prop :=
  ∃ d, heap w !! self = Some d ∧ dom d = dom init_dict.

(** a configuration call that reaches its method, with an argument the
    method accepts: every configuration method but [output_dir] *)
Definition valid_config_call (c : string * list pyval) : bool :=
  match c.2 with
  | [] => String.eqb c.1 "multi"
  | [a] =>
      (String.eqb c.1 "set_url" && match a with VStr _ | VList _ => true | _ => false end)
      || String.eqb c.1 "set_output_path"
      || String.eqb c.1 "split"
  | _ => false
  end.

(** A network and a pool for the examples: one image is missing (404), one
    host is down, one video is unavailable; the workers take the tasks in
    the reverse of the order of submission. *)
Definition example_net : Collaborators := {|
  requests_get u :=
    if String.eqb u "https://x.com/img/missing.png" then inr (Response 404 "" "")
    else if String.eqb u "https://down.example/a.png" then inl "connection refused"
    else inr (Response 200 ("bytes of " ++ u) ("text of " ++ u));
  ydl_extract_info u t :=
    if String.eqb u "https://youtu.be/gone" then inl "Video unavailable"
    else inr (path_join "." (basename u ++ ".webm"), [10; 20; 30]%Z);
  ydl_download u t := inr (t, "video of " ++ u);
  pool_schedule n := reverse (seq 0 n);
  pool_schedule_perm n := reverse_Permutation (seq 0 n)
|}.

(** what follows the last occurrence of [sep] in [l], if [sep] occurs *)
Fixpoint after_last (sep l : list ascii) : option (list ascii) :=
  match l with
  | [] => None
  | _ :: r =>
      match after_last sep r with
      | Some t => Some t
      | None => if starts_with sep l then Some (drop (length sep) l) else None
      end
  end.

(** what follows the first occurrence of [sep] in [l], if [sep] occurs *)
Fixpoint after_first (sep l : list ascii) : option (list ascii) :=
  match l with
  | [] => None
  | _ :: r => if starts_with sep l then Some (drop (length sep) l) else after_first sep r
  end.

(** the text of [s] after its last [sep], all of [s] when it has none *)
Definition text_after_last (sep s : string) : string :=
  str (default (chars s) (after_last (chars sep) (chars s))).

(** The webpage file name in the words of the specification: the URL with
    its scheme stripped (the scheme is what precedes the first "://"), every
    path separator replaced by an underscore, and ".html" appended. *)
Definition spec_webpage_filename (url : string) : string :=
  replace (str (default (chars url) (after_first (chars "://") (chars url)))) "/" "_"
  ++ ".html".

(** the samples of [a] at the positions [lo <= j < hi] *)
Definition interval (a : audio_buffer) (lo hi : Z) : audio_buffer :=
  take (Z.to_nat (hi - lo)) (drop (Z.to_nat lo) a).

(** the file that [split_audio] writes for segment number [k] of [input_file] *)
Definition segment_path (input_file : string) (k : Z) : string :=
  path_join (dirname input_file)
    ((splitext (basename input_file)).1 ++ "_part" ++ pretty k ++ ".mp3").

(** the segment length in milliseconds, the number of segments, and the
    segment of index [i] (from 0) as the specification describes it: the
    samples from [i * length] up to [(i + 1) * length], cut at the end *)
Definition segment_length_ms (L : Z) : Z := L * 60 * 1000.

(** the ceiling of the exact quotient [a / b], with which the
    specification counts the segments *)
Definition ceil_div (a b : Z) : Z := Qceiling (inject_Z a / inject_Z b).

Definition num_segments (a : audio_buffer) (L : Z) : Z :=
  ceil_div (Z.of_nat (length a)) (segment_length_ms L).

Definition segment (a : audio_buffer) (L : Z) (i : nat) : audio_buffer :=
  interval a (Z.of_nat i * segment_length_ms L)
             (Z.min ((Z.of_nat i + 1) * segment_length_ms L) (Z.of_nat (length a))).

(** the files that the segmentation of [a] should produce, in order *)
Definition expected_exports (input_file : string) (a : audio_buffer) (L : Z)
    : list (string * audio_buffer) :=
  map (λ i : nat, (segment_path input_file (Z.of_nat i + 1), segment a L i))
      (seq 0 (Z.to_nat (num_segments a L))).

(** A range of lengths [D] and segment lengths [S], in milliseconds (some
    285 000 years), in which the float quotient [D / S] has the ceiling of
    the exact quotient: a whole quotient is a float, and any other lies at
    least [1/S] from the whole numbers around it, more than half the
    distance of two floats there. *)
Definition float_exact (D S : Z) : Prop := D < 2 ^ 53 ∧ S < 2 ^ 53.

(** a world with one instance and one MP3 file of 130 seconds *)
Definition long_talk : list Z := replicate (Z.to_nat 130000) 0.

Definition long_talk_world : world :=
  World (heap fresh_world) {[ "out/a.b.mp3" := Mp3 long_talk ]} ∅ [].

(** a world with one instance and one MP3 file of three milliseconds *)
Definition talk_world : world :=
  World (heap fresh_world) {[ "./talk.mp3" := Mp3 [10; 20; 30] ]} ∅ [].

(** an event that has nothing to do with a worker pool *)
Definition not_pool (e : event) : bool := negb (is_pool_event e).

Definition any_event (e : event) : bool := true.

(** [w'] has the trace of [w] followed by events that all satisfy [ok] *)
Definition extends (ok : event → bool) (w w' : world) : Prop :=
  ∃ evs, trace w' = (trace w ++ evs)%list ∧ forallb ok evs = true.

(** whatever the world, [m] only adds events that satisfy [ok], whether it
    returns or raises *)
Definition emits {A} (ok : event → bool) (m : M A) : Prop :=
  ∀ w, extends ok w (m w).2.

(** the events that [w'] has on top of [w] start with [pre] *)
Definition begins_with (w : world) (pre : list event) (w' : world) : Prop :=
  ∃ evs, trace w' = (trace w ++ pre ++ evs)%list.

(** the single-URL path of [audio]: one fetch in the calling process, then
    the optional segmentation *)
Definition audio_single `{!Collaborators} (self : loc) (url : pyval) : M pyval :=
  (let! output_file := _download_audio self url in
   let! split_minutes := getattr self "split_minutes" in
   if truthy split_minutes
   then split_audio self output_file split_minutes >> ret tt
   else ret tt) >>
  ret (VRef self).

(** a world whose instance has two URLs and the parallel flag set, as after
    [Dlsys().set_url([a, b]).multi()] *)
Definition two_url_world : world :=
  (@chain example_net (VRef fresh_instance)
     [("set_url", [VList [VStr "https://youtu.be/a"; VStr "https://youtu.be/b"]]);
      ("multi", [])] fresh_world).2.

(** a world whose instance has one URL, as after [Dlsys().set_url(a)] *)
Definition one_url_world : world :=
  (@chain example_net (VRef fresh_instance)
     [("set_url", [VStr "https://youtu.be/a"])] fresh_world).2.

(** What one image or webpage job adds to the trace: the GET, then either
    the error notice (the connection failed, or the status is an error) or
    the write and the success notice.  [err] and [ok_] are the two notices
    up to the URL and the path. *)
Definition fetch_events `{!Collaborators} (err ok_ : string) (url path : string)
    : list event :=
  EvHttpGet url ::
  match requests_get url with
  | inl msg => [EvPrint (err ++ url ++ ": " ++ msg)]
  | inr r =>
      if (400 <=? status_code r) && (status_code r <? 600)
      then [EvPrint (err ++ url ++ ": " ++ pretty (status_code r) ++ " Error for url: " ++ url)]
      else [EvFileWrite path; EvPrint (ok_ ++ path)]
  end.

(** the files after one job *)
Definition fetch_files `{!Collaborators} (body : response → content) (url path : string)
    (fs : gmap string content) : gmap string content :=
  match requests_get url with
  | inl _ => fs
  | inr r => if (400 <=? status_code r) && (status_code r <? 600) then fs
             else <[path := body r]> fs
  end.

(** the world after one job *)
Definition fetch_world `{!Collaborators} (body : response → content) (err ok_ : string)
    (url path : string) (w : world) : world :=
  World (heap w) (fetch_files body url path (files w)) (dirs w)
        (trace w ++ fetch_events err ok_ url path).

(** the world after the jobs of [urls], run one after the other in that order *)
Definition batch_world `{!Collaborators} (body : response → content) (err ok_ : string)
    (path : string → string) (urls : list string) (w : world) : world :=
  foldl (λ w u, fetch_world body err ok_ u (path u) w) w urls.

(** the order in which a pool takes the jobs of [urls] *)
Definition scheduled `{!Collaborators} {A} (xs : list A) : list A :=
  omap (λ i, xs !! i) (pool_schedule (length xs)).

(** where the image of [url] and the page of [url] are written *)
Definition image_path (od url : string) : string := path_join od (basename url).

Definition webpage_path (od url : string) : string :=
  path_join od (replace (last_item (py_split url "://")) "/" "_" ++ ".html").

(** [path] is [name] under the directory [od]: [od], a "/" unless [od] is
    empty or ends in one, and [name] *)
Definition joined_under (od name path : string) : Prop :=
  ((od = "" ∨ ∃ d, od = d ++ "/") ∧ path = od ++ name)
  ∨ ((od ≠ "" ∧ ∀ d, od ≠ d ++ "/") ∧ path = od ++ "/" ++ name).

(** three URLs, of which the second names a directory of the server and
    the third is missing on the server of [example_net] *)
Definition gallery_urls : list string :=
  ["https://x.com/img/pic.jpg"; "https://x.com/gallery/"; "https://x.com/img/missing.png"].

(** three URLs, of which the second is missing on the server of
    [example_net] *)
Definition three_urls : list string :=
  ["https://x.com/img/pic.jpg"; "https://x.com/img/missing.png"; "https://x.com/b.png"].

(** the URLs of a batch whose fetch fails, and those whose fetch succeeds *)
Definition failing `{!Collaborators} (urls : list string) : list string :=
  filter (λ u, fetch_fails u = true) urls.

Definition succeeding `{!Collaborators} (urls : list string) : list string :=
  filter (λ u, fetch_fails u = false) urls.

(** What the specification promises of a batch that ran from [w] to [w']
    and gave [r]: it returned the instance; the files written are those of
    the succeeding URLs, one write each; each of them is on disk; each
    failing URL has its error notice, which starts with [err]. *)
Definition batch_completed `{!Collaborators} (self : loc) (path : string → string)
    (err : string) (urls : list string) (w : world) (r : outcome pyval * world) : Prop :=
  r.1 = Returns (VRef self)
  ∧ writes_of (new_events w r.2) ≡ₚ map path (succeeding urls)
  ∧ (∀ u, u ∈ succeeding urls → is_Some (files r.2 !! path u))
  ∧ (∀ u, u ∈ failing urls →
       ∃ msg, EvPrint (err ++ u ++ ": " ++ msg) ∈ new_events w r.2).

(** *** Audio jobs *)

(** where the transcoded audio of a prepared file name is left *)
Definition mp3_path (filename : string) : string := (splitext filename).1 ++ ".mp3".

(** the extractor fails on [url] with the output template [t] *)
Definition extract_fails `{!Collaborators} (t url : string) : bool :=
  match ydl_extract_info url t with inl _ => true | inr _ => false end.

(** what one audio job returns or raises, and the world it leaves *)
Definition audio_job_result `{!Collaborators} (t url : string) : outcome pyval :=
  match ydl_extract_info url t with
  | inl msg => Raises (Exn DownloadError msg)
  | inr (filename, _) => Returns (VStr (mp3_path filename))
  end.

Definition audio_job_world `{!Collaborators} (t url : string) (w : world) : world :=
  match ydl_extract_info url t with
  | inl _ => World (heap w) (files w) (dirs w) (trace w ++ [EvExtract url t])
  | inr (filename, a) =>
      World (heap w) (<[mp3_path filename := Mp3 a]> (files w)) (dirs w)
            (trace w ++ [EvExtract url t; EvPrint ("Audio downloaded for: " ++ url)])
  end.

(** the world after the audio jobs of [urls], one after the other *)
Definition audio_batch_world `{!Collaborators} (t : string) (urls : list string)
    (w : world) : world :=
  foldl (λ w u, audio_job_world t u w) w urls.

(** the file that the audio job of [url] returns, when it succeeds *)
Definition audio_job_file `{!Collaborators} (t url : string) : option pyval :=
  match audio_job_result t url with Returns v => Some v | Raises _ => None end.

(** the URLs handed to the extractor, among some events *)
Definition extracts_of (evs : list event) : list string :=
  omap (λ e, match e with EvExtract u _ => Some u | _ => None end) evs.

(** an event of the segmentation: a decode or an export *)
Definition is_segmentation_event (e : event) : bool :=
  match e with EvDecode _ | EvExport _ _ => true | _ => false end.

Definition not_segmentation (e : event) : bool := negb (is_segmentation_event e).

(** an event of the download phase is none of the segmentation; an event of
    the segmentation phase is neither an extractor run nor a pool event *)
Definition not_download (e : event) : bool :=
  match e with
  | EvExtract _ _ | EvPoolOpen | EvPoolSubmit _ _ | EvPoolClose | EvMkdir _ => false
  | _ => true
  end.

(** the URLs that a sequential audio batch hands to the extractor: all up
    to and including the first one that fails *)
Fixpoint attempted `{!Collaborators} (t : string) (urls : list string) : list string :=
  match urls with
  | [] => []
  | u :: rest => u :: if extract_fails t u then [] else attempted t rest
  end.

(** what a sequential audio batch gives: the files in the order of the
    URLs, or what the first failing job raised *)
Fixpoint sequential_result `{!Collaborators} (t : string) (urls : list string)
    : outcome (list pyval) :=
  match urls with
  | [] => Returns []
  | u :: rest =>
      match audio_job_result t u with
      | Raises e => Raises e
      | Returns v =>
          match sequential_result t rest with
          | Returns vs => Returns (v :: vs)
          | Raises e => Raises e
          end
      end
  end.

(** what a pooled audio batch gives: the files in the order of the URLs, or
    what the first job to fail, in the order of the workers, raised *)
Definition pooled_result `{!Collaborators} (t : string) (urls : list string)
    : outcome (list pyval) :=
  match first_failure (map (audio_job_result t) (scheduled urls)) with
  | Some e => Raises e
  | None => Returns (omap (audio_job_file t) urls)
  end.

(** the configuration that the audio jobs read *)
Definition audio_ready (self : loc) (od op : string) (w : world) : Prop :=
  has_attr w self "output_dir" (VStr od) ∧ has_attr w self "output_path" (VStr op).

(** the events of the audio jobs of [urls], one after the other *)
Definition audio_job_events `{!Collaborators} (t url : string) : list event :=
  EvExtract url t ::
  if extract_fails t url then [] else [EvPrint ("Audio downloaded for: " ++ url)].

Definition audio_batch_events `{!Collaborators} (t : string) (urls : list string)
    : list event :=
  flat_map (audio_job_events t) urls.

(** the world after [Path(od).mkdir(parents=True, exist_ok=True)] *)
Definition after_mkdir (od : string) (w : world) : world :=
  World (heap w) (files w) ({[od]} ∪ dirs w) (trace w ++ [EvMkdir od]).

(** the world with further events in its trace *)
Definition with_events (w : world) (evs : list event) : world :=
  World (heap w) (files w) (dirs w) (trace w ++ evs).

(** the world after [download_audios] on [urls], run one after the other *)
Definition sequential_audio_world `{!Collaborators} (od t : string) (urls : list string)
    (w : world) : world :=
  let w2 := audio_batch_world t (attempted t urls) (after_mkdir od w) in
  match sequential_result t urls with
  | Returns _ => with_events w2 [EvPrint "All audio files downloaded!"]
  | Raises _ => w2
  end.

(** the world after [download_audios] on [urls], run through a pool *)
Definition pooled_audio_world `{!Collaborators} (od t : string) (urls : list string)
    (w : world) : world :=
  let w1 := with_events (after_mkdir od w)
              (EvPoolOpen :: map (λ u, EvPoolSubmit F__download_audio (VStr u)) urls) in
  let w2 := audio_batch_world t (scheduled urls) w1 in
  match pooled_result t urls with
  | Returns _ => with_events w2 [EvPoolClose; EvPrint "All audio files downloaded!"]
  | Raises _ => with_events w2 [EvPoolClose]
  end.

(** the result of [download_audios]: the list of the files *)
Definition as_file_list (r : outcome (list pyval)) : outcome pyval :=
  match r with Returns vs => Returns (VList vs) | Raises e => Raises e end.

(** the optional segmentation of [audio] after the fetch of a single URL,
    lines 86-87, and after the fetches of several, lines 90-92 *)
Definition split_one (self : loc) (output_file : pyval) : M unit :=
  let! split_minutes := getattr self "split_minutes" in
  if truthy split_minutes
  then split_audio self output_file split_minutes >> ret tt
  else ret tt.

Definition split_each (self : loc) (output_files : pyval) : M unit :=
  let! split_minutes := getattr self "split_minutes" in
  if truthy split_minutes
  then let! files := py_iter output_files in
       for_each files (λ file,
         let! split_minutes := getattr self "split_minutes" in
         split_audio self file split_minutes >> ret tt)
  else ret tt.

(** the world after a [split_audio] that goes through: the file is decoded,
    the segments are exported in order, and the summary is printed *)
Definition split_world (input_file : string) (a : audio_buffer) (m : Z) (minutes : pyval)
    (w : world) : world :=
  let S := m * 60 * 1000 in
  let n := math_ceil (true_divide (Z.of_nat (length a)) S) in
  let seg (i : nat) := ms_slice a (Z.of_nat i * S) ((Z.of_nat i + 1) * S) in
  let path (i : nat) := segment_path input_file (Z.of_nat i + 1) in
  World (heap w)
        (foldl (λ f i, <[path i := Mp3 (seg i)]> f) (files w) (seq 0 (Z.to_nat n)))
        (dirs w)
        (trace w ++ [EvDecode input_file]
           ++ flat_map (λ i, [EvExport (path i) (seg i); EvPrint ("Exported: " ++ path i)])
                (seq 0 (Z.to_nat n))
           ++ [EvPrint ("Split " ++ input_file ++ " into " ++ pretty n
                        ++ " parts of " ++ py_str minutes ++ " minutes each.")]).

(** the trace of [w'] is that of [w], then events of a first kind, then
    events of a second kind *)
Definition in_two_phases (ok1 ok2 : event → bool) (w w' : world) : Prop :=
  ∃ evs1 evs2, trace w' = (trace w ++ evs1 ++ evs2)%list
               ∧ forallb ok1 evs1 = true ∧ forallb ok2 evs2 = true.

(** The fetches of [audio], lines 84-85 and 88-89: one URL is fetched in the
    calling process; several go to [download_audios], which takes the pool
    when the flag is set.  What they give, the events they add, and the
    world they leave. *)
Definition audio_fetch_result `{!Collaborators} (mp : pyval) (t : string)
    (urls : list string) : outcome (list pyval) :=
  match urls with
  | [u] => sequential_result t [u]
  | _ => if truthy mp then pooled_result t urls else sequential_result t urls
  end.

Definition audio_fetch_world `{!Collaborators} (mp : pyval) (od t : string)
    (urls : list string) (w : world) : world :=
  match urls with
  | [u] => audio_job_world t u w
  | _ => if truthy mp then pooled_audio_world od t urls w
         else sequential_audio_world od t urls w
  end.

Definition audio_fetch_events `{!Collaborators} (mp : pyval) (od t : string)
    (urls : list string) : list event :=
  match urls with
  | [u] => audio_job_events t u
  | _ =>
      if truthy mp
      then [EvMkdir od; EvPoolOpen]
           ++ map (λ u, EvPoolSubmit F__download_audio (VStr u)) urls
           ++ audio_batch_events t (scheduled urls)
           ++ EvPoolClose ::
              match pooled_result t urls with
              | Returns _ => [EvPrint "All audio files downloaded!"]
              | Raises _ => []
              end
      else EvMkdir od :: audio_batch_events t (attempted t urls)
           ++ match sequential_result t urls with
              | Returns _ => [EvPrint "All audio files downloaded!"]
              | Raises _ => []
              end
  end.

(** the world after [Dlsys()] and a chain of calls on the new instance, with
    the network of [example_net] *)
Definition configured (calls : list (string * list pyval)) : world :=
  (@chain example_net (VRef fresh_instance) calls fresh_world).2.

(** three audio URLs, of which the second is unavailable in [example_net] *)
Definition three_audio_urls : list string :=
  ["https://youtu.be/a"; "https://youtu.be/gone"; "https://youtu.be/b"].

(** the files decoded, among some events *)
Definition decodes_of (evs : list event) : list string :=
  omap (λ e, match e with EvDecode p => Some p | _ => None end) evs.



(** the instance after [set_url(three_audio_urls)], and after [.multi()] too *)
Definition three_audio_world : world :=
  configured [("set_url", [VList (VStr <$> three_audio_urls)])].

Definition three_audio_pool_world : world :=
  configured [("set_url", [VList (VStr <$> three_audio_urls)]); ("multi", [])].


Definition one_url_split_world : world :=
  configured [("set_url", [VStr "https://youtu.be/a"]); ("split", [VInt 1])].

(** the output template of an instance that keeps the defaults of [__init__] *)
Definition default_template : string := path_join "." "%(title)s.%(ext)s".

(** *** Configuration *)

(** the functions of the class that assign to an attribute of [self]:
    [__init__] and the five configuration methods *)
Definition is_configuration (f : func_id) : bool :=
  match f with
  | F_init | F_set_url | F_set_output_path | F_output_dir | F_multi | F_split => true
  | _ => false
  end.

(** the names under which the class binds them *)
Definition configuration_names : list string :=
  ["__init__"; "set_url"; "set_output_path"; "output_dir"; "multi"; "split"].

(** a value that can be called: a bound method or a function *)
Definition callable (v : pyval) : bool :=
  match v with VBound _ _ | VFunc _ => true | _ => false end.

(** an instance of the class; a value that is one, or a list or tuple with
    one among its items *)
Definition is_instance (v : pyval) : bool :=
  match v with VRef _ => true | _ => false end.

Definition holds_instance (v : pyval) : bool :=
  match v with
  | VRef _ => true
  | VList xs | VTuple xs => existsb is_instance xs
  | _ => false
  end.

(** no attribute of any instance holds a callable value *)
Definition no_callable_attr (w : world) : Prop :=
  ∀ l d k v, heap w !! l = Some d → d !! k = Some v → callable v = false.

(** the attribute that a configuration method assigns, and the value that a
    valid configuration call stores in it *)
Definition config_attr (name : string) : string :=
  if String.eqb name "set_url" then "urls"
  else if String.eqb name "set_output_path" then "output_path"
  else if String.eqb name "multi" then "use_multiprocessing"
  else "split_minutes".

Definition config_value (c : string * list pyval) : pyval :=
  match c.2 with
  | [] => VBool true
  | a :: _ =>
      if String.eqb c.1 "set_url"
      then match a with VStr _ => VList [a] | _ => a end
      else a
  end.

(** The output directory of [self] is the one that [__init__] set, and no
    attribute of any instance holds a callable value. *)
Definition default_dir_invariant (self : loc) (w : world) : Prop :=
  has_attr w self "output_dir" (VStr ".") ∧ no_callable_attr w.

(** [m] maintains the property [P] of worlds, whether it returns or raises *)
Definition maintains {A} (P : world → Prop) (m : M A) : Prop :=
  ∀ w, P w → P (m w).2.

(** a value of a type that has no attribute [split]: [None], a bool, an
    int, a list or a tuple *)
Definition no_split_attribute (v : pyval) : bool :=
  match v with
  | VNone | VBool _ | VInt _ | VList _ | VTuple _ => true
  | _ => false
  end.

(** the world after the sequential webpage jobs of [urls] *)
Definition webpages_world `{!Collaborators} (od : string) (urls : list string)
    (w : world) : world :=
  batch_world (λ r, Text (resp_text r)) "Error downloading webpage "
    "Webpage downloaded and saved to: " (webpage_path od) urls w.

(** an instance with the attribute [url], as after the assignment
    [d.url = "https://youtu.be/v"] on a new instance [d] *)
Definition video_world : world :=
  store_attr fresh_world fresh_instance "url" (VStr "https://youtu.be/v").

(** *** Pools *)

(** an event that neither makes a pool nor tears one down *)
Definition not_pool_bracket (e : event) : bool :=
  match e with EvPoolOpen | EvPoolClose => false | _ => true end.

(** among some events no pool is made, or exactly one is, and it is torn
    down before the events end *)
Definition one_pool_at_most (evs : list event) : Prop :=
  forallb not_pool_bracket evs = true
  ∨ ∃ pre mid post, evs = (pre ++ EvPoolOpen :: mid ++ EvPoolClose :: post)%list
                    ∧ forallb not_pool_bracket pre = true
                    ∧ forallb not_pool_bracket mid = true
                    ∧ forallb not_pool_bracket post = true.

(** whatever the world, [m] makes at most one pool and tears it down,
    whether it returns or raises *)
Definition tears_down {A} (m : M A) : Prop :=
  ∀ w, ∃ evs, trace (m w).2 = (trace w ++ evs)%list ∧ one_pool_at_most evs.

(** *** Invariants of the heap *)

(** [m] leaves every instance as it found it, whether it returns or raises *)
Definition keeps_heap {A} (m : M A) : Prop := ∀ w, heap (m w).2 = heap w.

(** [m] changes nothing at all and only computes a result *)
Definition pure {A} (m : M A) : Prop := ∀ w, (m w).2 = w.

(** ** Reasoning about the monad *)

Lemma bind_returns {A B} (m : M A) (k : A → M B) w a w1 :
  m w = (Returns a, w1) → bind m k w = k a w1.
Proof. unfold bind. by intros ->. Qed.

Lemma bind_raises {A B} (m : M A) (k : A → M B) w e w1 :
  m w = (Raises e, w1) → bind m k w = (Raises e, w1).
Proof. unfold bind. by intros ->. Qed.

Lemma getattr_has w self name v :
  has_attr w self name v → getattr self name w = (Returns v, w).
Proof. intros (d & Hd & Hv). unfold getattr. by rewrite Hd, Hv. Qed.

Lemma world_eta w : World (heap w) (files w) (dirs w) (trace w) = w.
Proof. by destruct w. Qed.

Lemma new_events_app w w' evs : trace w' = (trace w ++ evs)%list → new_events w w' = evs.
Proof. unfold new_events. intros ->. by rewrite drop_app_length. Qed.

(** ** Failing fast: [audio] without URLs, [split_audio] without a file *)

Section Fail_fast.
Context `{!Collaborators}.

(** C6. Calling [audio] on an instance whose URL list is empty raises
    [ValueError] (the "not configured" error) and leaves the whole world as
    it was: no file, no directory, no event of any kind. *)
Theorem audio_no_urls_raises (self : loc) (w : world) :
  has_attr w self "urls" (VList []) →
  audio self w
  = (Raises (Exn ValueError "URL(s) not set. Use set_url() method first."), w).
Proof.
  intros Hurls. unfold audio.
  by rewrite (bind_returns _ _ _ _ _ (getattr_has _ _ _ _ Hurls)).
Qed.

(** C7. [split_audio] on a path that does not exist raises
    [FileNotFoundError] and leaves the whole world as it was: nothing is
    decoded and nothing is written, whatever the segment length. *)
Theorem split_audio_missing_file (self : loc) (path : string) (minutes : pyval) (w : world) :
  files w !! path = None →
  path ∉ dirs w →
  split_audio self (VStr path) minutes w
  = (Raises (Exn FileNotFoundError ("The file " ++ path ++ " does not exist.")), w).
Proof.
  intros Hf Hd. unfold split_audio, bind, as_str, ret, path_exists.
  rewrite Hf. rewrite bool_decide_eq_false_2 by (by intros [? ?]).
  by rewrite bool_decide_eq_false_2.
Qed.

End Fail_fast.

(** ** Construction and attribute lookup *)

Lemma setattr_spec self name v w :
  is_Some (heap w !! self) →
  setattr self name v w = (Returns tt, store_attr w self name v).
Proof.
  intros [d Hd]. unfold setattr, store_attr, set_heap. rewrite Hd. do 2 f_equal.
  apply map_eq. intros l. destruct (decide (self = l)) as [<-|Hne].
  - by rewrite lookup_insert_eq, lookup_alter_eq, Hd.
  - by rewrite lookup_insert_ne, lookup_alter_ne.
Qed.

Lemma store_attr_heap_lookup w self name v :
  heap (store_attr w self name v) !! self = insert name v <$> heap w !! self.
Proof. unfold store_attr. simpl. by rewrite lookup_alter_eq. Qed.

Lemma store_attr_is_Some w self l name v :
  is_Some (heap w !! l) → is_Some (heap (store_attr w self name v) !! l).
Proof.
  unfold store_attr. simpl. intros [d Hd]. destruct (decide (self = l)) as [<-|Hne].
  - rewrite lookup_alter_eq, Hd. by eexists.
  - rewrite lookup_alter_ne by done. by eexists.
Qed.

(** [Dlsys()] allocates a fresh location and leaves there exactly the five
    attributes that [__init__] sets; nothing else in the world changes. *)
Lemma Dlsys_spec w :
  let self := fresh (dom (heap w)) in
  Dlsys w = (Returns (VRef self),
             World (<[self := init_dict]> (heap w)) (files w) (dirs w) (trace w)).
Proof.
  intros self. unfold Dlsys. fold self. unfold __init__, bind, set_heap, ret.
  set (w0 := World (<[self := ∅]> (heap w)) (files w) (dirs w) (trace w)).
  assert (H0 : is_Some (heap w0 !! self)) by (eexists; apply lookup_insert_eq).
  repeat (rewrite setattr_spec by (repeat apply store_attr_is_Some; exact H0); cbv beta iota).
  unfold store_attr; cbn [heap files dirs trace w0]. do 2 f_equal.
  apply map_eq. intros l. destruct (decide (self = l)) as [<-|Hne].
  - repeat rewrite lookup_alter_eq. by rewrite !lookup_insert_eq.
  - repeat rewrite lookup_alter_ne by done. by rewrite !lookup_insert_ne.
Qed.

Lemma Dlsys_has_attr w name v :
  init_dict !! name = Some v →
  has_attr (Dlsys w).2 (fresh (dom (heap w))) name v.
Proof.
  intros Hv. rewrite Dlsys_spec. exists init_dict. split; [apply lookup_insert_eq | done].
Qed.

Lemma Dlsys_lacks_attr w name :
  init_dict !! name = None →
  lacks_attr (Dlsys w).2 (fresh (dom (heap w))) name.
Proof.
  intros Hv. rewrite Dlsys_spec. exists init_dict. split; [apply lookup_insert_eq | done].
Qed.

Lemma getattr_class_function w self name f :
  lacks_attr w self name →
  class_dict !! name = Some (Function f) →
  getattr self name w = (Returns (VBound f self), w).
Proof. intros (d & Hd & Hn) Hc. unfold getattr. by rewrite Hd, Hn, Hc. Qed.

Lemma getattr_missing w self name :
  lacks_attr w self name →
  class_dict !! name = None →
  getattr self name w
  = (Raises (Exn AttributeError ("'Dlsys' object has no attribute '" ++ name ++ "'")), w).
Proof. intros (d & Hd & Hn) Hc. unfold getattr. by rewrite Hd, Hn, Hc. Qed.

Lemma getattr_class_static w self name f :
  lacks_attr w self name →
  class_dict !! name = Some (StaticMethod f) →
  getattr self name w = (Returns (VFunc f), w).
Proof. intros (d & Hd & Hn) Hc. unfold getattr. by rewrite Hd, Hn, Hc. Qed.

(** ** The configuration methods *)

Section Configuration.
Context `{!Collaborators}.

Lemma has_attr_is_Some w self name v : has_attr w self name v → is_Some (heap w !! self).
Proof. intros (d & Hd & _). by eexists. Qed.

Lemma lacks_attr_is_Some w self name : lacks_attr w self name → is_Some (heap w !! self).
Proof. intros (d & Hd & _). by eexists. Qed.

(** Whatever the instance, a call of [obj.output_dir(...)] finds the string
    that [__init__] stored under that name, not the method. *)
Lemma output_dir_not_callable w self s args :
  has_attr w self "output_dir" (VStr s) →
  call_method (VRef self) "output_dir" args w
  = (Raises (Exn TypeError "'str' object is not callable"), w).
Proof.
  intros Hattr. unfold call_method.
  by rewrite (bind_returns _ _ _ _ _ (getattr_has _ _ _ _ Hattr)).
Qed.

(** C1 (the code departs from it). On a newly constructed instance, in any
    world and for any argument, [obj.output_dir(arg)] raises [TypeError]: the
    attribute [output_dir] set by [__init__] hides the method of that name,
    so a chain that sets the output directory does not return the object. *)
Theorem output_dir_call_raises (w : world) (arg : pyval) :
  let self := fresh (dom (heap w)) in
  (Dlsys w).1 = Returns (VRef self) ∧
  call_method (VRef self) "output_dir" [arg] (Dlsys w).2
  = (Raises (Exn TypeError "'str' object is not callable"), (Dlsys w).2).
Proof.
  intros self. split; [by rewrite Dlsys_spec|].
  apply output_dir_not_callable with (s := "."). by apply Dlsys_has_attr.
Qed.

(** C3 (the code departs from it). On a newly constructed instance, in any
    world, [obj.download_video()] raises [AttributeError], not [ValueError]:
    the method reads [self.url], an attribute that no method ever sets.  The
    world is left as it was. *)
Theorem download_video_raises_AttributeError (w : world) :
  let self := fresh (dom (heap w)) in
  call_method (VRef self) "download_video" [] (Dlsys w).2
  = (Raises (Exn AttributeError "'Dlsys' object has no attribute 'url'"), (Dlsys w).2).
Proof.
  intros self. unfold call_method.
  erewrite bind_returns.
  2:{ apply getattr_class_function with (f := F_download_video);
      [by apply Dlsys_lacks_attr | reflexivity]. }
  cbn [call call_function]. unfold download_video.
  erewrite bind_raises; [reflexivity|].
  apply getattr_missing; [by apply Dlsys_lacks_attr | reflexivity].
Qed.

Lemma instance_ok_lacks w self name :
  instance_ok w self → init_dict !! name = None → lacks_attr w self name.
Proof.
  intros (d & Hd & Hdom) Hn. exists d. split; [done|].
  apply not_elem_of_dom. rewrite Hdom. by apply not_elem_of_dom.
Qed.

Lemma instance_ok_store w self name v :
  instance_ok w self → is_Some (init_dict !! name) →
  instance_ok (store_attr w self name v) self.
Proof.
  intros (d & Hd & Hdom) Hn. exists (<[name := v]> d).
  rewrite store_attr_heap_lookup, Hd. split; [done|].
  rewrite dom_insert_L. apply elem_of_dom in Hn. rewrite <- Hdom in Hn.
  rewrite <- Hdom. apply subseteq_union_1_L. by apply singleton_subseteq_l.
Qed.

Lemma Dlsys_instance_ok w : instance_ok (Dlsys w).2 (fresh (dom (heap w))).
Proof. rewrite Dlsys_spec. exists init_dict. split; [apply lookup_insert_eq | done]. Qed.

(** On every instance that has the attributes of [__init__] and no other
    (so also after [set_url]), [download_video] stops at its first line. *)
Lemma download_video_no_url_attribute w self :
  instance_ok w self →
  download_video self w
  = (Raises (Exn AttributeError "'Dlsys' object has no attribute 'url'"), w).
Proof.
  intros (d & Hd & Hdom). unfold download_video.
  erewrite bind_raises; [reflexivity|].
  apply getattr_missing; [|reflexivity].
  exists d. split; [done|]. apply not_elem_of_dom. rewrite Hdom. by apply not_elem_of_dom.
Qed.

(** The names that the methods call on [self] resolve, on such an instance,
    to the definitions that the model calls directly: [download_image] to
    the static method of line 228, the others to the only [def] of the name. *)
Lemma internal_calls_resolve w self :
  instance_ok w self →
  getattr self "_download_audio" w = (Returns (VBound F__download_audio self), w)
  ∧ getattr self "download_audios" w = (Returns (VBound F_download_audios self), w)
  ∧ getattr self "split_audio" w = (Returns (VBound F_split_audio self), w)
  ∧ getattr self "download_image" w = (Returns (VFunc F_download_image_228), w)
  ∧ getattr self "download_webpage" w = (Returns (VBound F_download_webpage self), w)
  ∧ (∀ url, call (VBound F__download_audio self) [url] = _download_audio self url)
  ∧ (∀ urls, call (VBound F_download_audios self) [urls] = download_audios self urls)
  ∧ (∀ f m, call (VBound F_split_audio self) [f; m] = split_audio self f m)
  ∧ (∀ u p, call (VFunc F_download_image_228) [u; p] = download_image u p)
  ∧ (∀ u p, call (VBound F_download_webpage self) [u; p] = download_webpage self u p).
Proof.
  intros Hok.
  repeat split;
    first [ reflexivity
          | apply getattr_class_function; [by apply instance_ok_lacks | reflexivity]
          | apply getattr_class_static; [by apply instance_ok_lacks | reflexivity] ].
Qed.

(** a setter that stores one of the attributes of [__init__] and returns
    [self] *)
Lemma setter_returns_self w self name v :
  instance_ok w self → is_Some (init_dict !! name) →
  (setattr self name v >> ret (VRef self)) w
  = (Returns (VRef self), store_attr w self name v).
Proof.
  intros (d & Hd & ?) ?. unfold bind. rewrite setattr_spec by (by eexists). done.
Qed.

(** One valid configuration call returns the instance it was called on. *)
Lemma config_call_returns_self w self c :
  instance_ok w self → valid_config_call c = true →
  ∃ w', call_method (VRef self) c.1 c.2 w = (Returns (VRef self), w')
        ∧ instance_ok w' self ∧ trace w' = trace w.
Proof.
  intros Hok Hc. destruct c as [name args]. unfold valid_config_call in Hc.
  cbn [fst snd] in *.
  assert (Hcall : ∀ f body, init_dict !! name = None →
            class_dict !! name = Some (Function f) →
            call_function f (VRef self :: args) = body →
            call_method (VRef self) name args w = body w).
  { intros f body Hn Hf <-. unfold call_method.
    by rewrite (bind_returns _ _ _ _ _
      (getattr_class_function _ _ _ _ (instance_ok_lacks _ _ _ Hok Hn) Hf)). }
  destruct args as [|a [|??]]; [| |done].
  - apply String.eqb_eq in Hc as ->.
    eexists. split; [|split].
    + erewrite (Hcall F_multi); [|reflexivity..]. unfold multi.
      by apply setter_returns_self.
    + by apply instance_ok_store.
    + done.
  - apply orb_true_iff in Hc as [Hc|Hc]; [apply orb_true_iff in Hc as [Hc|Hc]|].
    + apply andb_true_iff in Hc as [Hn Ha]. apply String.eqb_eq in Hn as ->.
      destruct a; try done.
      * eexists. split; [|split].
        -- erewrite (Hcall F_set_url); [|reflexivity..]. unfold set_url.
           by apply setter_returns_self.
        -- by apply instance_ok_store.
        -- done.
      * eexists. split; [|split].
        -- erewrite (Hcall F_set_url); [|reflexivity..]. unfold set_url.
           by apply setter_returns_self.
        -- by apply instance_ok_store.
        -- done.
    + apply String.eqb_eq in Hc as ->.
      eexists. split; [|split].
      * erewrite (Hcall F_set_output_path); [|reflexivity..]. unfold set_output_path.
        by apply setter_returns_self.
      * by apply instance_ok_store.
      * done.
    + apply String.eqb_eq in Hc as ->.
      eexists. split; [|split].
      * erewrite (Hcall F_split); [|reflexivity..]. unfold split.
        by apply setter_returns_self.
      * by apply instance_ok_store.
      * done.
Qed.

(** Any chain of valid configuration calls returns the original instance
    and performs no effect.  (A chain with [output_dir] in it is not of this
    kind: that call never reaches the method.) *)
Lemma config_chain_returns_self calls : ∀ w self,
  instance_ok w self → forallb valid_config_call calls = true →
  ∃ w', chain (VRef self) calls w = (Returns (VRef self), w')
        ∧ instance_ok w' self ∧ trace w' = trace w.
Proof.
  induction calls as [|c calls IH]; intros w self Hok Hall.
  - exists w. by repeat split.
  - cbn [forallb] in Hall. apply andb_true_iff in Hall as [Hc Hall].
    destruct (config_call_returns_self w self c Hok Hc) as (w1 & Hcall & Hok1 & Htr1).
    destruct (IH w1 self Hok1 Hall) as (w2 & Hrest & Hok2 & Htr2).
    exists w2. split; [|split; [done | congruence]].
    destruct c as [name args]. cbn [chain].
    by erewrite bind_returns.
Qed.

End Configuration.

(** ** [set_url] *)

(** C5 as stated fails: a list whose items are not strings is neither a
    string nor a sequence of strings, and [set_url] accepts it. *)
Lemma set_url_accepts_list_of_ints :
  is_string (VList [VInt 3]) = false
  ∧ is_sequence_of_strings (VList [VInt 3]) = false
  ∧ (set_url fresh_instance (VList [VInt 3]) fresh_world).1 = Returns (VRef fresh_instance).
Proof. vm_compute. done. Qed.

(** C5, amended. [set_url] looks at the type of its argument only: a string
    is stored as a one-item list, a list is stored as it is (whatever its
    items), and both calls return the instance; any other argument (a tuple
    of strings too) raises [ValueError] and leaves the world as it was.  In
    no case is an event produced, so nothing has reached the network. *)
Theorem set_url_accepts_str_or_list (self : loc) (v : pyval) (w : world) :
  is_Some (heap w !! self) →
  match v with
  | VStr s =>
      set_url self v w = (Returns (VRef self), store_attr w self "urls" (VList [VStr s]))
  | VList xs =>
      set_url self v w = (Returns (VRef self), store_attr w self "urls" (VList xs))
  | _ =>
      set_url self v w
      = (Raises (Exn ValueError "URLs must be a string or a list of strings."), w)
  end
  ∧ trace (set_url self v w).2 = trace w.
Proof.
  intros Hl.
  assert (Hst : ∀ u, (setattr self "urls" u >> ret (VRef self)) w
                     = (Returns (VRef self), store_attr w self "urls" u)).
  { intros u. unfold bind. by rewrite setattr_spec. }
  destruct v; cbn [set_url]; rewrite ?Hst; done.
Qed.

Lemma set_url_accepts_str_or_list_witness :
  set_url fresh_instance (VStr "https://youtu.be/Y3whytmX51w") fresh_world
  = (Returns (VRef fresh_instance),
     store_attr fresh_world fresh_instance "urls" (VList [VStr "https://youtu.be/Y3whytmX51w"]))
  ∧ trace (set_url fresh_instance (VStr "https://youtu.be/Y3whytmX51w") fresh_world).2
    = trace fresh_world.
Proof.
  apply (set_url_accepts_str_or_list fresh_instance
           (VStr "https://youtu.be/Y3whytmX51w") fresh_world).
  exists init_dict. reflexivity.
Defined.

(** After an accepted call the attribute [urls] holds the list. *)
Lemma store_attr_has_attr w self name v :
  is_Some (heap w !! self) → has_attr (store_attr w self name v) self name v.
Proof.
  intros [d Hd]. exists (<[name := v]> d).
  rewrite store_attr_heap_lookup, Hd. split; [done | apply lookup_insert_eq].
Qed.

(** ** Witnesses for the fail-fast theorems *)

Lemma audio_no_urls_raises_witness :
  @audio example_net fresh_instance fresh_world
  = (Raises (Exn ValueError "URL(s) not set. Use set_url() method first."), fresh_world).
Proof.
  apply (@audio_no_urls_raises example_net fresh_instance fresh_world).
  exists init_dict. split; reflexivity.
Defined.

Lemma split_audio_missing_file_witness :
  split_audio fresh_instance (VStr "./talk.mp3") (VInt 10) fresh_world
  = (Raises (Exn FileNotFoundError "The file ./talk.mp3 does not exist."), fresh_world).
Proof.
  apply (split_audio_missing_file fresh_instance "./talk.mp3" (VInt 10) fresh_world).
  - reflexivity.
  - by apply not_elem_of_empty.
Defined.

(** ** File names derived from URLs *)

Lemma starts_with_app sep l :
  starts_with sep l = true → l = (sep ++ drop (length sep) l)%list.
Proof.
  revert l. induction sep as [|a sep IH]; intros l Hs; [done|].
  destruct l as [|b l]; [done|]. cbn in Hs.
  apply andb_true_iff in Hs as [Hab Hs]. apply Ascii.eqb_eq in Hab as ->.
  cbn. f_equal. by apply IH.
Qed.

Lemma after_last_other sep c l :
  starts_with sep (c :: l) = false → after_last sep (c :: l) = after_last sep l.
Proof. intros Hs. cbn [after_last]. rewrite Hs. by destruct (after_last sep l). Qed.

Lemma rfind_go_after_last c l : ∀ i last,
  match after_last [c] l with
  | None => rfind_go c l i last = last
  | Some t => ∃ k : nat, rfind_go c l i last = i + Z.of_nat k ∧ drop (S k) l = t
  end.
Proof.
  induction l as [|a r IH]; intros i last; [done|].
  cbn [rfind_go after_last]. specialize (IH (i + 1) (if ascii_eqb a c then i else last)).
  destruct (after_last [c] r) as [t|].
  - destruct IH as (k & Hk & Hd). exists (S k). split; [rewrite Hk; lia | done].
  - rewrite IH. cbn [starts_with]. unfold ascii_eqb. rewrite (Ascii.eqb_sym c a).
    destruct (Ascii.eqb a c); cbn [andb].
    + exists 0%nat. split; [lia | done].
    + done.
Qed.

(** [os.path.basename] is the text after the last "/". *)
Lemma basename_after_last (p : string) : basename p = text_after_last "/" p.
Proof.
  unfold basename, text_after_last, rfind, slice_from.
  pose proof (rfind_go_after_last SEP (chars p) 0 (-1)) as Hr.
  change (chars "/") with [SEP].
  destruct (after_last [SEP] (chars p)) as [t|].
  - destruct Hr as (k & -> & <-). cbn [default].
    by replace (Z.to_nat (0 + Z.of_nat k + 1)) with (S k) by lia.
  - rewrite Hr. done.
Qed.

Lemma split_go_nonempty sep l : ∀ skip cur, split_go sep skip cur l ≠ [].
Proof.
  induction l as [|c r IH]; intros skip cur; [done|]. cbn [split_go].
  destruct skip; [|apply IH]. destruct (starts_with sep (c :: r)); [done | apply IH].
Qed.

Lemma last_cons_nonempty {A} (x : A) (l : list A) d : l ≠ [] → List.last (x :: l) d = List.last l d.
Proof. by destruct l. Qed.

Lemma after_last_here sep c l :
  starts_with sep (c :: l) = true →
  after_last sep (c :: l)
  = Some (default (drop (length sep) (c :: l)) (after_last sep l)).
Proof. intros Hs. cbn [after_last]. rewrite Hs. by destruct (after_last sep l). Qed.

(** The last piece of [split("://")] is the text after the last "://". *)
Lemma split_go_last (n : nat) : ∀ l cur,
  (length l ≤ n)%nat →
  List.last (split_go (chars "://") 0 cur l) []
  = default (cur ++ l)%list (after_last (chars "://") l).
Proof.
  induction n as [|n IH]; intros l cur Hn.
  - destruct l; [|cbn in Hn; lia]. cbn. by rewrite app_nil_r.
  - destruct l as [|c r]; [cbn; by rewrite app_nil_r|].
    cbn [split_go]. destruct (starts_with (chars "://") (c :: r)) eqn:Hs.
    + rewrite (after_last_here _ _ _ Hs).
      apply starts_with_app in Hs. cbn in Hs.
      destruct r as [|c1 [|c2 r']]; try done. injection Hs as -> -> ->.
      rewrite last_cons_nonempty by apply split_go_nonempty.
      change (split_go (chars "://") (length (chars "://") - 1) []
                ("/"%char :: "/"%char :: r'))
        with (split_go (chars "://") 0 [] r').
      rewrite IH by (cbn in Hn; lia).
      rewrite !(after_last_other _ "/"%char) by done.
      change (drop (length (chars "://")) (":"%char :: "/"%char :: "/"%char :: r')) with r'.
      by destruct (after_last _ r').
    + rewrite IH by (cbn in Hn; lia). rewrite after_last_other by done.
      by rewrite <- app_assoc.
Qed.

Lemma last_map_str (L : list (list ascii)) :
  L ≠ [] → List.last (map str L) "" = str (List.last L []).
Proof.
  induction L as [|x L IH]; [done|]. intros _. destruct L as [|y L]; [done|].
  change (map str (x :: y :: L)) with (str x :: map str (y :: L)).
  rewrite !last_cons_nonempty by done. by apply IH.
Qed.

Lemma split_last_after_last (url : string) :
  last_item (py_split url "://") = text_after_last "://" url.
Proof.
  unfold last_item, py_split, text_after_last.
  rewrite last_map_str by apply split_go_nonempty.
  by rewrite (split_go_last (length (chars url))).
Qed.

(** [after_last] says what its name says: when it finds nothing, the
    separator does not occur; when it gives [t], the list ends with the
    separator followed by [t], and the separator does not occur in [t]. *)
Lemma starts_with_prefix sep suf : starts_with sep (sep ++ suf) = true.
Proof.
  induction sep as [|a sep IH]; [done|]. cbn. unfold ascii_eqb.
  by rewrite Ascii.eqb_refl, IH.
Qed.

Lemma after_last_None sep l :
  sep ≠ [] → after_last sep l = None → ∀ pre suf, l ≠ (pre ++ sep ++ suf)%list.
Proof.
  intros Hsep. induction l as [|c r IH]; intros Hn pre suf Heq.
  - destruct pre; [destruct sep; done | done].
  - cbn [after_last] in Hn. destruct (after_last sep r) eqn:Hr; [done|].
    destruct (starts_with sep (c :: r)) eqn:Hs; [done|].
    destruct pre as [|c' pre].
    + cbn in Heq. rewrite Heq, starts_with_prefix in Hs. done.
    + injection Heq as _ Heq. by eapply IH.
Qed.

Lemma no_occurrence_suffix (sep l : list ascii) k :
  (∀ pre suf, l ≠ (pre ++ sep ++ suf)%list) →
  ∀ pre suf, drop k l ≠ (pre ++ sep ++ suf)%list.
Proof.
  intros Hl pre suf Heq. apply (Hl (take k l ++ pre)%list suf).
  by rewrite <- app_assoc, <- Heq, take_drop.
Qed.

Lemma after_last_Some sep l t :
  sep ≠ [] → after_last sep l = Some t →
  (∃ pre, l = (pre ++ sep ++ t)%list) ∧ ∀ pre suf, t ≠ (pre ++ sep ++ suf)%list.
Proof.
  intros Hsep. revert t. induction l as [|c r IH]; intros t Ht; [done|].
  cbn [after_last] in Ht. destruct (after_last sep r) as [t'|] eqn:Hr.
  - injection Ht as <-. destruct (IH t' eq_refl) as ((pre & ->) & Hno).
    split; [by exists (c :: pre) | done].
  - destruct (starts_with sep (c :: r)) eqn:Hs; [|done]. injection Ht as <-.
    split; [exists []; by apply starts_with_app|].
    destruct sep as [|a sep]; [done|]. cbn [length drop].
    apply no_occurrence_suffix. by apply after_last_None.
Qed.

(** C10 as stated fails: a URL that holds "://" a second time (here in its
    query string) keeps only what follows the last one, not the URL without
    its scheme. *)
Lemma webpage_filename_not_scheme_stripped :
  (webpage_filename (VStr "https://a.com/r?u=http://b.com/x") empty_world).1
  = Returns "b.com_x.html"
  ∧ spec_webpage_filename "https://a.com/r?u=http://b.com/x"
    = "a.com_r?u=http:__b.com_x.html".
Proof. vm_compute. done. Qed.

(** C10, amended. For every URL (a string): the image file name is the
    basename of the URL taken as a path, that is the text after its last
    "/" (all of it when there is none); the webpage file name is the text
    after the last "://" of the URL (all of it when there is none) with every
    "/" replaced by "_" and ".html" appended.  The two examples of the
    specification come out as it says. *)
Theorem filename_derivation (url : string) (w : world) :
  image_filename (VStr url) w = (Returns (text_after_last "/" url), w)
  ∧ webpage_filename (VStr url) w
    = (Returns (replace (text_after_last "://" url) "/" "_" ++ ".html"), w)
  ∧ image_filename (VStr "https://x.com/img/pic.jpg") w = (Returns "pic.jpg", w)
  ∧ webpage_filename (VStr "https://example.com/a/b") w
    = (Returns "example.com_a_b.html", w).
Proof.
  split; [|split; [|split]].
  - unfold image_filename, bind, as_str, ret. by rewrite basename_after_last.
  - unfold webpage_filename, ret. by rewrite split_last_after_last.
  - reflexivity.
  - reflexivity.
Qed.

(** ** Audio segmentation *)

(** [ceil_div] is the ceiling of the quotient: the least [n] with [D <= n * S]. *)
Lemma ceil_div_bounds (D S : Z) :
  0 <= D → 0 < S →
  (ceil_div D S - 1) * S < D ∧ D <= ceil_div D S * S.
Proof.
  intros HD HS. unfold ceil_div, Qceiling.
  destruct S as [|p|p]; try lia.
  assert (Hq : Qfloor (- (inject_Z D / inject_Z (Z.pos p))) = (- D) / Z.pos p).
  { unfold Qfloor, Qdiv, Qinv, Qmult, Qopp, inject_Z. cbn [Qnum Qden].
    by rewrite Z.mul_1_r, Pos.mul_1_l. }
  rewrite Hq.
  pose proof (Z.div_mod (- D) (Z.pos p) ltac:(lia)) as Hdm.
  pose proof (Z.mod_pos_bound (- D) (Z.pos p) ltac:(lia)) as Hm.
  split; nia.
Qed.

Lemma ceil_div_nonneg (D S : Z) : 0 <= D → 0 < S → 0 <= ceil_div D S.
Proof. intros HD HS. pose proof (ceil_div_bounds D S HD HS). nia. Qed.

(** *** The float quotient and the exact quotient *)

(** the rounded quotient is within a half of the exact one *)
Lemma round_half_even_bounds (x y : Z) :
  0 < y →
  2 * x - y <= 2 * y * round_half_even x y ∧ 2 * y * round_half_even x y <= 2 * x + y.
Proof.
  intros Hy. unfold round_half_even.
  pose proof (Z.div_mod x y ltac:(lia)) as Hdm.
  pose proof (Z.mod_pos_bound x y Hy) as Hm.
  destruct (Z.ltb_spec (2 * (x mod y)) y); [nia|].
  destruct (Z.ltb_spec y (2 * (x mod y))); [nia|].
  destruct (Z.even (x / y)); nia.
Qed.

Lemma round_half_even_le (x y N : Z) : 0 < y → x <= N * y → round_half_even x y <= N.
Proof. intros Hy Hx. pose proof (round_half_even_bounds x y Hy). nia. Qed.

Lemma round_half_even_gt (x y N : Z) :
  0 < y → y < 2 * (x - N * y) → N < round_half_even x y.
Proof. intros Hy Hx. pose proof (round_half_even_bounds x y Hy). nia. Qed.


(** [quotient_exponent a b] is the [e] with [2^e <= a/b < 2^(e+1)] *)
Lemma quotient_exponent_spec (a b : Z) :
  0 < a → 0 < b →
  let e := quotient_exponent a b in
  b * 2 ^ Z.max 0 e <= a * 2 ^ Z.max 0 (- e)
  ∧ a * 2 ^ Z.max 0 (- (e + 1)) < b * 2 ^ Z.max 0 (e + 1).
Proof.
  intros Ha Hb. unfold quotient_exponent.
  pose proof (Z.log2_spec a Ha) as [Ha1 Ha2].
  pose proof (Z.log2_spec b Hb) as [Hb1 Hb2].
  pose proof (Z.log2_nonneg a) as Hla. pose proof (Z.log2_nonneg b) as Hlb.
  set (la := Z.log2 a) in *. set (lb := Z.log2 b) in *.
  rewrite !Z.pow_succ_r in * by lia.
  destruct (Z.ltb_spec (a * 2 ^ Z.max 0 (- (la - lb))) (b * 2 ^ Z.max 0 (la - lb))) as [Ht|Ht];
    cbv zeta.
  - split.
    + destruct (Z.le_gt_cases 1 (la - lb)) as [Hd|Hd].
      * replace (Z.max 0 (la - lb - 1)) with (la - lb - 1) by lia.
        replace (Z.max 0 (- (la - lb - 1))) with 0 by lia.
        replace la with (lb + 1 + (la - lb - 1)) in Ha1 by lia.
        rewrite Z.pow_add_r, Z.pow_add_r in Ha1 by lia.
        assert (0 < 2 ^ (la - lb - 1)) by (apply Z.pow_pos_nonneg; lia).
        change (2 ^ 1) with 2 in Ha1. change (2 ^ 0) with 1. nia.
      * replace (Z.max 0 (la - lb - 1)) with 0 by lia.
        replace (Z.max 0 (- (la - lb - 1))) with (lb + 1 - la) by lia.
        assert (E : 2 ^ la * 2 ^ (lb + 1 - la) = 2 * 2 ^ lb).
        { rewrite <- Z.pow_add_r by lia. replace (la + (lb + 1 - la)) with (Z.succ lb) by lia.
          by rewrite Z.pow_succ_r by lia. }
        assert (0 < 2 ^ (lb + 1 - la)) by (apply Z.pow_pos_nonneg; lia).
        change (2 ^ 0) with 1. nia.
    + by replace (la - lb - 1 + 1) with (la - lb) by lia.
  - split; [done|].
    destruct (Z.le_gt_cases 0 (la - lb + 1)) as [Hd|Hd].
    + replace (Z.max 0 (la - lb + 1)) with (la - lb + 1) by lia.
      replace (Z.max 0 (- (la - lb + 1))) with 0 by lia.
      assert (E : 2 ^ lb * 2 ^ (la - lb + 1) = 2 * 2 ^ la).
      { rewrite <- Z.pow_add_r by lia. replace (lb + (la - lb + 1)) with (Z.succ la) by lia.
        by rewrite Z.pow_succ_r by lia. }
      assert (0 < 2 ^ (la - lb + 1)) by (apply Z.pow_pos_nonneg; lia).
      change (2 ^ 0) with 1. nia.
    + replace (Z.max 0 (la - lb + 1)) with 0 by lia.
      replace (Z.max 0 (- (la - lb + 1))) with (lb - la - 1) by lia.
      assert (E : 2 * 2 ^ la * 2 ^ (lb - la - 1) = 2 ^ lb).
      { rewrite <- Z.pow_succ_r by lia. rewrite <- Z.pow_add_r by lia. f_equal. lia. }
      assert (0 < 2 ^ (lb - la - 1)) by (apply Z.pow_pos_nonneg; lia).
      change (2 ^ 0) with 1. nia.
Qed.

Lemma pow2_pos (n : Z) : 0 <= n → 0 < 2 ^ n.
Proof. intros. apply Z.pow_pos_nonneg; lia. Qed.

(** In the range of [float_exact] the ceiling of the float quotient is the
    ceiling of the exact quotient. *)
Lemma math_ceil_true_divide (a b : Z) :
  0 <= a → 0 < b → float_exact a b →
  math_ceil (true_divide a b) = ceil_div a b.
Proof.
  intros Ha Hb [Ha53 Hb53].
  pose proof (ceil_div_bounds a b Ha (ltac:(lia) : 0 < b)) as [Hlo Hhi].
  unfold true_divide.
  replace (a <? 0) with false by (symmetry; apply Z.ltb_ge; lia).
  replace (b <? 0) with false by (symmetry; apply Z.ltb_ge; lia).
  rewrite !Z.abs_eq by lia. cbn [xorb].
  destruct (Z.eqb_spec a 0) as [->|Hne].
  { unfold math_ceil. cbn. nia. }
  assert (Ha0 : 0 < a) by lia.
  destruct (quotient_exponent_spec a b Ha0 Hb) as [P1 P2].
  set (e := quotient_exponent a b) in *.
  assert (He1 : e <= 52).
  { destruct (Z.le_gt_cases e 52) as [|Hgt]; [done|]. exfalso.
    rewrite (Z.max_r 0 e), (Z.max_l 0 (- e)) in P1 by lia.
    pose proof (Z.pow_le_mono_r 2 53 e ltac:(lia) ltac:(lia)).
    change (2 ^ 0) with 1 in P1. nia. }
  assert (He2 : -53 <= e).
  { destruct (Z.le_gt_cases (-53) e) as [|Hlt]; [done|]. exfalso.
    rewrite (Z.max_r 0 (- (e + 1))), (Z.max_l 0 (e + 1)) in P2 by lia.
    pose proof (Z.pow_le_mono_r 2 53 (- (e + 1)) ltac:(lia) ltac:(lia)).
    change (2 ^ 0) with 1 in P2. nia. }
  replace (Z.max e (-1022) - 52) with (- (52 - e)) by lia.
  set (t := 52 - e). assert (Ht : 0 <= t) by (unfold t; lia).
  rewrite Z.opp_involutive, (Z.max_r 0 t), (Z.max_l 0 (- t)) by lia.
  change (2 ^ 0) with 1. rewrite Z.mul_1_r.
  pose proof (pow2_pos t Ht) as HT. set (T := 2 ^ t) in *.
  assert (HbT : b < 2 * T).
  { destruct (Z.le_gt_cases 0 e) as [He|He].
    - rewrite (Z.max_r 0 e), (Z.max_l 0 (- e)) in P1 by lia.
      change (2 ^ 0) with 1 in P1.
      assert (E : 2 ^ e * (2 * T) = 2 ^ 53).
      { unfold T. rewrite <- Z.pow_succ_r, <- Z.pow_add_r by lia. f_equal. unfold t. lia. }
      pose proof (pow2_pos e He). nia.
    - pose proof (Z.pow_le_mono_r 2 53 (Z.succ t) ltac:(lia) ltac:(unfold t; lia)) as Hle.
      rewrite Z.pow_succ_r in Hle by lia. fold T in Hle. lia. }
  set (c := ceil_div a b) in *.
  set (m := round_half_even (a * T) b).
  assert (Hm1 : m <= c * T) by (apply round_half_even_le; nia).
  assert (Hm2 : (c - 1) * T < m) by (apply round_half_even_gt; nia).
  unfold math_ceil. cbn [f_neg f_mantissa f_exponent].
  rewrite Z.opp_involutive.
  destruct (Z.leb_spec 0 (- t)) as [Hq|Hq].
  - assert (t = 0) as Ht0 by lia. unfold T in *. rewrite Ht0 in *.
    change (2 ^ (-0)) with 1. change (2 ^ 0) with 1 in *. lia.
  - fold T. assert (Hk : - c = - m / T); [|lia].
    apply (Z.div_unique (- m) T (- c) (c * T - m)); [left|]; lia.
Qed.


Example float_quotients :
  true_divide 1 3 = Float false 6004799503160661 (-54)
  ∧ true_divide 1 (2 ^ 1074) = Float false 1 (-1074)
  ∧ true_divide 1 (2 ^ 1075) = Float false 0 (-1074)
  ∧ math_ceil (true_divide 130000 60000) = 3
  ∧ math_ceil (true_divide 120000 60000) = 2
  ∧ math_ceil (true_divide 7 (-2)) = -3
  ∧ math_ceil (true_divide (2 ^ 53 + 1) 1) = 2 ^ 53.
Proof. vm_compute. repeat split; reflexivity. Qed.

(** pydub's slice with bounds [0 <= s <= e] is the interval cut to the length. *)
Lemma ms_slice_interval (a : audio_buffer) (s e : Z) :
  0 <= s → s <= e →
  ms_slice a s e
  = interval a (Z.min s (Z.of_nat (length a))) (Z.min e (Z.of_nat (length a))).
Proof.
  intros Hs He. unfold ms_slice, py_slice, interval.
  set (n := Z.of_nat (length a)).
  assert (Hn : 0 <= n) by lia.
  assert (H1 : (Z.min s n <? 0) = false) by (apply Z.ltb_ge; lia).
  assert (H2 : (Z.min e n <? 0) = false) by (apply Z.ltb_ge; lia).
  rewrite H1, H2. cbv iota. rewrite H1, H2. cbv iota.
  rewrite !Z.max_r by lia.
  by rewrite (Z.min_r n (Z.min e n)), (Z.min_r n (Z.min s n)) by lia.
Qed.

Lemma interval_length (a : audio_buffer) (lo hi : Z) :
  0 <= lo → lo <= hi → hi <= Z.of_nat (length a) →
  Z.of_nat (length (interval a lo hi)) = hi - lo.
Proof.
  intros H1 H2 H3. unfold interval. rewrite length_take, length_drop. lia.
Qed.

(** Cutting a list into [n] consecutive chunks of [s] items (the last ones
    as long as the list allows) and gluing them gives its first [n * s]
    items. *)
Lemma concat_chunks {A} (s n : nat) (a : list A) :
  concat (map (λ i, take s (drop (i * s) a)) (seq 0 n)) = take (n * s) a.
Proof.
  induction n as [|n IH]; [done|].
  rewrite seq_S, map_app, concat_app, IH. cbn [map concat plus].
  rewrite app_nil_r, take_take_drop. f_equal. lia.
Qed.

(** A take that runs past the end is a take up to the end. *)
Lemma interval_clipped (a : audio_buffer) (lo hi : Z) :
  0 <= lo → lo <= hi →
  interval a lo (Z.min hi (Z.of_nat (length a)))
  = take (Z.to_nat (hi - lo)) (drop (Z.to_nat lo) a).
Proof.
  intros H1 H2. unfold interval.
  destruct (decide (hi <= Z.of_nat (length a))) as [Hle|Hgt].
  - by rewrite Z.min_l.
  - rewrite Z.min_r by lia.
    rewrite !take_ge; [done | rewrite length_drop; lia | rewrite length_drop; lia].
Qed.

Lemma for_each_export (idxs : list nat) (seg : nat → audio_buffer) (path msg : nat → string) :
  ∀ w,
  for_each idxs (λ i, export (seg i) (path i) >> print (msg i)) w
  = (Returns tt,
     World (heap w)
           (foldl (λ f i, <[path i := Mp3 (seg i)]> f) (files w) idxs)
           (dirs w)
           (trace w ++ flat_map (λ i, [EvExport (path i) (seg i); EvPrint (msg i)]) idxs)).
Proof.
  induction idxs as [|i idxs IH]; intros w.
  - cbn. unfold ret. by rewrite app_nil_r, world_eta.
  - cbn [for_each]. unfold bind at 1.
    unfold export, print, emit, bind, get_world, set_files. cbn [heap files dirs trace].
    rewrite IH. cbn [heap files dirs trace foldl flat_map].
    by rewrite <- !app_assoc.
Qed.

Lemma exports_of_flat_map (idxs : list nat) (seg : nat → audio_buffer) (path msg : nat → string) :
  exports_of (flat_map (λ i, [EvExport (path i) (seg i); EvPrint (msg i)]) idxs)
  = map (λ i, (path i, seg i)) idxs.
Proof. induction idxs as [|i idxs IH]; [done|]. cbn. by rewrite <- IH. Qed.

Section Segments.
Variables (a : audio_buffer) (L : Z).
Hypothesis L_pos : 0 < L.

Lemma num_segments_bounds :
  (num_segments a L - 1) * segment_length_ms L < Z.of_nat (length a)
  ∧ Z.of_nat (length a) <= num_segments a L * segment_length_ms L
  ∧ 0 <= num_segments a L.
Proof.
  unfold num_segments, segment_length_ms.
  pose proof (ceil_div_bounds (Z.of_nat (length a)) (L * 60 * 1000) ltac:(lia) ltac:(lia)).
  pose proof (ceil_div_nonneg (Z.of_nat (length a)) (L * 60 * 1000) ltac:(lia) ltac:(lia)).
  tauto.
Qed.

Lemma segment_length_ms_pos : 0 < segment_length_ms L.
Proof. unfold segment_length_ms. lia. Qed.

Lemma segment_start_in_range (i : nat) :
  (i < Z.to_nat (num_segments a L))%nat →
  Z.of_nat i * segment_length_ms L < Z.of_nat (length a).
Proof.
  intros Hi. pose proof num_segments_bounds. pose proof segment_length_ms_pos. nia.
Qed.

Lemma segment_as_chunk (i : nat) :
  segment a L i
  = take (Z.to_nat (segment_length_ms L)) (drop (i * Z.to_nat (segment_length_ms L)) a).
Proof.
  pose proof segment_length_ms_pos.
  unfold segment. rewrite interval_clipped by nia.
  f_equal; [f_equal; lia | f_equal; nia].
Qed.

Lemma segments_concat :
  concat (map (segment a L) (seq 0 (Z.to_nat (num_segments a L)))) = a.
Proof.
  rewrite (map_ext _ _ segment_as_chunk).
  rewrite (concat_chunks (Z.to_nat (segment_length_ms L))). apply take_ge.
  pose proof num_segments_bounds. pose proof segment_length_ms_pos. nia.
Qed.

Lemma segment_length (i : nat) :
  (i < Z.to_nat (num_segments a L))%nat →
  Z.of_nat (length (segment a L i))
  = Z.min ((Z.of_nat i + 1) * segment_length_ms L) (Z.of_nat (length a))
    - Z.of_nat i * segment_length_ms L
  ∧ 0 < Z.of_nat (length (segment a L i)).
Proof.
  intros Hi. pose proof (segment_start_in_range i Hi). pose proof segment_length_ms_pos.
  assert (Hlen : Z.of_nat (length (segment a L i))
    = Z.min ((Z.of_nat i + 1) * segment_length_ms L) (Z.of_nat (length a))
      - Z.of_nat i * segment_length_ms L).
  { unfold segment. apply interval_length; nia. }
  split; [done | nia].
Qed.

(** What the code slices for index [i] is the segment of the specification. *)
Lemma ms_slice_segment (i : nat) :
  (i < Z.to_nat (num_segments a L))%nat →
  ms_slice a (Z.of_nat i * segment_length_ms L) ((Z.of_nat i + 1) * segment_length_ms L)
  = segment a L i.
Proof.
  intros Hi. pose proof (segment_start_in_range i Hi). pose proof segment_length_ms_pos.
  rewrite ms_slice_interval by nia. unfold segment. f_equal. lia.
Qed.

End Segments.

(** C4, amended. For an MP3 file holding [D] milliseconds of audio and a
    positive segment length of [L] minutes, both in the range in which the
    float division of the source is exact enough ([D] and [L*60*1000] below
    2^53), [split_audio] returns, and exports exactly
    [ceil (D / (L*60*1000))] segments: the count [n] is the least integer
    with [D <= n * L*60000].  The exports are numbered from 1, in order;
    export number [i+1] holds the samples from [i * L*60000] up to
    [(i+1) * L*60000], cut at [D].  The segments are non-empty, glued
    together they are the whole file, and the last one lasts
    [D - (n-1) * L*60000]. *)
Theorem split_audio_segments (self : loc) (input_file : string) (a : list Z) (L : Z)
    (w : world) :
  files w !! input_file = Some (Mp3 a) →
  0 < L →
  float_exact (Z.of_nat (length a)) (L * 60 * 1000) →
  let S := L * 60 * 1000 in
  let D := Z.of_nat (length a) in
  let n := ceil_div D S in
  ((n - 1) * S < D ∧ D <= n * S)
  ∧ (∃ w', split_audio self (VStr input_file) (VInt L) w = (Returns (VRef self), w')
           ∧ exports_of (new_events w w') = expected_exports input_file a L)
  ∧ length (expected_exports input_file a L) = Z.to_nat n
  ∧ (∀ (i : nat) p seg, expected_exports input_file a L !! i = Some (p, seg) →
       p = segment_path input_file (Z.of_nat i + 1)
       ∧ seg = interval a (Z.of_nat i * S) (Z.min ((Z.of_nat i + 1) * S) D)
       ∧ Z.of_nat (length seg) = Z.min ((Z.of_nat i + 1) * S) D - Z.of_nat i * S
       ∧ 0 < Z.of_nat (length seg))
  ∧ concat (map snd (expected_exports input_file a L)) = a
  ∧ (0 < n → ∃ p seg, last (expected_exports input_file a L) = Some (p, seg)
                      ∧ Z.of_nat (length seg) = D - (n - 1) * S).
Proof.
  intros Hfile HL Hfe S D n.
  assert (Hcount : math_ceil (true_divide D S) = n)
    by (apply math_ceil_true_divide; [lia | lia | exact Hfe]).
  pose proof (num_segments_bounds a L HL) as (Hlo & Hhi & Hn0).
  change (segment_length_ms L) with S in *. change (num_segments a L) with n in *.
  fold D in Hlo, Hhi.
  assert (Hlen : length (expected_exports input_file a L) = Z.to_nat n).
  { unfold expected_exports. by rewrite length_map, length_seq. }
  assert (Hith : ∀ (i : nat) p seg, expected_exports input_file a L !! i = Some (p, seg) →
            (i < Z.to_nat n)%nat ∧ p = segment_path input_file (Z.of_nat i + 1)
            ∧ seg = segment a L i).
  { intros i p seg Hi. unfold expected_exports in Hi.
    apply list_lookup_fmap_Some in Hi as (j & Heq & Hj).
    apply lookup_seq in Hj as [-> Hlt]. cbn in Heq. by injection Heq as -> ->. }
  split; [done|]. split; [|split; [done|split; [|split]]].
  - (* the run *)
    unfold split_audio.
    unfold bind at 1. cbn [as_str ret].
    unfold bind at 1. unfold path_exists. rewrite Hfile.
    rewrite bool_decide_eq_true_2 by (by eexists). cbn [orb negb].
    unfold bind at 1. unfold from_mp3, bind at 1, emit at 1. cbn iota beta.
    unfold bind at 1, get_world at 1. cbn [files]. rewrite Hfile.
    unfold ret at 1. cbn [as_number].
    fold S. replace (S =? 0) with false by (symmetry; apply Z.eqb_neq; lia).
    fold D. rewrite Hcount.
    set (w1 := World (heap w) (files w) (dirs w) (trace w ++ [EvDecode input_file])).
    unfold bind at 1.
    lazymatch goal with
    | |- context [for_each ?l ?body w1] =>
        change (for_each l body w1)
          with (for_each l
                  (λ i : nat,
                     export (ms_slice a (Z.of_nat i * S) ((Z.of_nat i + 1) * S))
                            (segment_path input_file (Z.of_nat i + 1)) >>
                     print ("Exported: " ++ segment_path input_file (Z.of_nat i + 1)))
                  w1)
    end.
    rewrite (for_each_export (seq 0 (Z.to_nat n))
               (λ i, ms_slice a (Z.of_nat i * S) ((Z.of_nat i + 1) * S))
               (λ i, segment_path input_file (Z.of_nat i + 1))
               (λ i, "Exported: " ++ segment_path input_file (Z.of_nat i + 1)) w1).
    unfold bind, print, emit, ret. cbn [heap files dirs trace w1].
    eexists. split; [reflexivity|].
    erewrite new_events_app; [|cbn [trace]; rewrite <- !app_assoc; reflexivity].
    unfold exports_of. rewrite !omap_app. cbn [omap app].
    fold exports_of. rewrite exports_of_flat_map, app_nil_r.
    unfold expected_exports. change (num_segments a L) with n.
    apply map_ext_in. intros i Hi.
    apply in_seq in Hi. f_equal. apply (ms_slice_segment a L HL).
    change (num_segments a L) with n. lia.
  - intros i p seg Hi. destruct (Hith i p seg Hi) as (Hlt & -> & ->).
    destruct (segment_length a L HL i Hlt) as [Hl Hp].
    by repeat split.
  - unfold expected_exports. rewrite map_map. cbn [snd].
    apply (segments_concat a L HL).
  - intros Hn. unfold expected_exports. change (num_segments a L) with n.
    replace (Z.to_nat n) with (Datatypes.S (Z.to_nat (n - 1))) by lia.
    rewrite seq_S, map_app. cbn [map]. rewrite last_snoc.
    eexists _, _. split; [reflexivity|].
    destruct (segment_length a L HL (Z.to_nat (n - 1))) as [Hl _];
      [change (num_segments a L) with n; lia|].
    cbn [plus]. rewrite Hl. change (segment_length_ms L) with S. fold D. nia.
Qed.

Lemma split_audio_segments_witness :
  let S := 1 * 60 * 1000 in
  let D := Z.of_nat (length long_talk) in
  let n := ceil_div D S in
  ((n - 1) * S < D ∧ D <= n * S)
  ∧ (∃ w', split_audio fresh_instance (VStr "out/a.b.mp3") (VInt 1) long_talk_world
           = (Returns (VRef fresh_instance), w')
           ∧ exports_of (new_events long_talk_world w')
             = expected_exports "out/a.b.mp3" long_talk 1)
  ∧ length (expected_exports "out/a.b.mp3" long_talk 1) = Z.to_nat n
  ∧ (∀ (i : nat) p seg,
       expected_exports "out/a.b.mp3" long_talk 1 !! i = Some (p, seg) →
       p = segment_path "out/a.b.mp3" (Z.of_nat i + 1)
       ∧ seg = interval long_talk (Z.of_nat i * S) (Z.min ((Z.of_nat i + 1) * S) D)
       ∧ Z.of_nat (length seg) = Z.min ((Z.of_nat i + 1) * S) D - Z.of_nat i * S
       ∧ 0 < Z.of_nat (length seg))
  ∧ concat (map snd (expected_exports "out/a.b.mp3" long_talk 1)) = long_talk
  ∧ (0 < n → ∃ p seg, last (expected_exports "out/a.b.mp3" long_talk 1) = Some (p, seg)
                      ∧ Z.of_nat (length seg) = D - (n - 1) * S).
Proof.
  apply (split_audio_segments fresh_instance "out/a.b.mp3" long_talk 1 long_talk_world).
  - reflexivity.
  - lia.
  - split; vm_compute; reflexivity.
Defined.

(** the file of 130 seconds is cut in three *)
Example long_talk_in_three_parts :
  ceil_div (Z.of_nat (length long_talk)) (1 * 60 * 1000) = 3
  ∧ math_ceil (true_divide (Z.of_nat (length long_talk)) (1 * 60 * 1000)) = 3.
Proof. split; vm_compute; reflexivity. Qed.

(** C4 as stated fails: [split_audio] divides in floats.  With an interval
    of 10^400 minutes, the quotient of the 3 milliseconds of this file by
    the segment length is below the least positive float and is rounded to
    0.0: the call returns and no segment is exported, where the ceiling of
    the quotient is 1. *)
Lemma split_audio_long_interval_no_segment :
  0 < 10 ^ 400
  ∧ ceil_div (Z.of_nat (length [10; 20; 30])) (10 ^ 400 * 60 * 1000) = 1
  ∧ files talk_world !! "./talk.mp3" = Some (Mp3 [10; 20; 30])
  ∧ (split_audio fresh_instance (VStr "./talk.mp3") (VInt (10 ^ 400)) talk_world).1
    = Returns (VRef fresh_instance)
  ∧ exports_of (new_events talk_world
                  (split_audio fresh_instance (VStr "./talk.mp3") (VInt (10 ^ 400))
                     talk_world).2)
    = [].
Proof. vm_compute. repeat split; reflexivity. Qed.

Example split_talk_in_one_part :
  expected_exports "./talk.mp3" [10; 20; 30] 1 = [("./talk_part1.mp3", [10; 20; 30])].
Proof. vm_compute. reflexivity. Qed.

(** 130 seconds cut in one-minute segments: two full minutes and ten seconds. *)
Example split_130_seconds :
  map (λ e : string * list Z, (e.1, Z.of_nat (length e.2)))
      (expected_exports "out/a.b.mp3" long_talk 1)
  = [("out/a.b_part1.mp3", 60000); ("out/a.b_part2.mp3", 60000);
     ("out/a.b_part3.mp3", 10000)].
Proof. vm_compute. reflexivity. Qed.

(** ** Which events a computation can add *)

Lemma extends_refl ok w : extends ok w w.
Proof. exists []. by rewrite app_nil_r. Qed.

Lemma extends_trans ok w1 w2 w3 : extends ok w1 w2 → extends ok w2 w3 → extends ok w1 w3.
Proof.
  intros (e1 & H1 & F1) (e2 & H2 & F2). exists (e1 ++ e2)%list.
  rewrite H2, H1, <- app_assoc, forallb_app, F1, F2. done.
Qed.

Lemma extends_weaken (ok ok' : event → bool) w w' :
  (∀ e, ok e = true → ok' e = true) → extends ok w w' → extends ok' w w'.
Proof.
  intros Hw (evs & H1 & F1). exists evs. split; [done|].
  apply forallb_forall. intros e He. apply Hw. by eapply forallb_forall in F1.
Qed.

Lemma extends_new_events ok w w' : extends ok w w' → forallb ok (new_events w w') = true.
Proof. intros (evs & H1 & F1). by rewrite (new_events_app _ _ _ H1). Qed.

Lemma extends_same_trace ok w w' : trace w' = trace w → extends ok w w'.
Proof. intros Htr. exists []. by rewrite app_nil_r. Qed.

Lemma extends_one ok w w' e : trace w' = (trace w ++ [e])%list → ok e = true → extends ok w w'.
Proof. intros Htr He. exists [e]. cbn. by rewrite He. Qed.

Section Emits.
Context {ok : event → bool}.

Lemma emits_ret {A} (a : A) : emits ok (ret a).
Proof. intros w. apply extends_refl. Qed.

Lemma emits_raise {A} c msg : emits ok (@raise A c msg).
Proof. intros w. apply extends_refl. Qed.

Lemma emits_bind {A B} (m : M A) (k : A → M B) :
  emits ok m → (∀ a, emits ok (k a)) → emits ok (bind m k).
Proof.
  intros Hm Hk w. unfold bind. specialize (Hm w).
  destruct (m w) as [[a|e] w1]; cbn [snd] in *; [|done].
  eapply extends_trans; [exact Hm | apply Hk].
Qed.

Lemma emits_emit e : ok e = true → emits ok (emit e).
Proof. intros He w. by apply extends_one with (e := e). Qed.

Lemma emits_print msg : ok (EvPrint msg) = true → emits ok (print msg).
Proof. apply emits_emit. Qed.

Lemma emits_getattr self name : emits ok (getattr self name).
Proof.
  intros w. unfold getattr, no_attribute, raise.
  repeat case_match; apply extends_refl.
Qed.

Lemma emits_setattr self name v : emits ok (setattr self name v).
Proof.
  intros w. unfold setattr, no_attribute, raise, set_heap.
  case_match; by apply extends_same_trace.
Qed.

Lemma emits_get_world : emits ok get_world.
Proof. intros w. apply extends_refl. Qed.

Lemma emits_set_files f : emits ok (set_files f).
Proof. intros w. by apply extends_same_trace. Qed.

Lemma emits_set_dirs d : emits ok (set_dirs d).
Proof. intros w. by apply extends_same_trace. Qed.

Lemma emits_set_heap h : emits ok (set_heap h).
Proof. intros w. by apply extends_same_trace. Qed.

Lemma emits_path_exists p : emits ok (path_exists p).
Proof. intros w. apply extends_refl. Qed.

Lemma emits_as_str v : emits ok (as_str v).
Proof. destruct v; first [apply emits_ret | apply emits_raise]. Qed.

Lemma emits_py_iter v : emits ok (py_iter v).
Proof. destruct v; first [apply emits_ret | apply emits_raise]. Qed.

Lemma emits_py_len v : emits ok (py_len v).
Proof. destruct v; first [apply emits_ret | apply emits_raise]. Qed.

Lemma emits_py_first v : emits ok (py_first v).
Proof.
  destruct v as [| | |s|xs|xs| | |]; try apply emits_raise;
    [destruct s | destruct xs | destruct xs]; first [apply emits_ret | apply emits_raise].
Qed.

Lemma emits_for_each {A} (xs : list A) (body : A → M unit) :
  (∀ x, emits ok (body x)) → emits ok (for_each xs body).
Proof.
  intros Hb. induction xs as [|x xs IH]; [apply emits_ret|].
  cbn [for_each]. apply emits_bind; [apply Hb | by intros _].
Qed.

Lemma emits_map_M {A B} (f : A → M B) (xs : list A) :
  (∀ x, emits ok (f x)) → emits ok (map_M f xs).
Proof.
  intros Hf. induction xs as [|x xs IH]; [apply emits_ret|].
  cbn [map_M]. apply emits_bind; [apply Hf|]. intros y.
  apply emits_bind; [apply IH|]. intros ys. apply emits_ret.
Qed.

Lemma emits_try_except {A} (body : M A) (handler : exn → M A) :
  emits ok body → (∀ e, emits ok (handler e)) →
  emits ok (try_except_RequestException body handler).
Proof.
  intros Hb Hh w. unfold try_except_RequestException. specialize (Hb w).
  destruct (body w) as [[a|e] w1]; cbn [snd] in *; [done|].
  destruct (is_RequestException (exc e)); [|done].
  eapply extends_trans; [exact Hb | apply Hh].
Qed.

Lemma emits_in_worker {A} (task : M A) : emits ok task → emits ok (in_worker task).
Proof.
  intros Ht w. unfold in_worker. specialize (Ht w).
  destruct (task w) as [r w1]. cbn [snd] in *.
  destruct Ht as (evs & Htr & Hok). by exists evs.
Qed.

End Emits.

Create HintDb emits discriminated.

#[export] Hint Resolve emits_getattr emits_setattr emits_get_world emits_set_files
  emits_set_dirs emits_set_heap emits_path_exists emits_as_str emits_py_iter
  emits_py_len emits_py_first : emits.

(** One step of the proof that a computation only adds permitted events,
    chosen by the shape of the computation. *)
Ltac emits_step :=
  lazymatch goal with
  | |- emits _ (bind _ _) => apply emits_bind; [|intros ?]
  | |- emits _ (ret _) => apply emits_ret
  | |- emits _ (raise _ _) => apply emits_raise
  | |- emits _ (emit _) => apply emits_emit; reflexivity
  | |- emits _ (print _) => apply emits_print; reflexivity
  | |- emits _ (for_each _ _) => apply emits_for_each; intros ?
  | |- emits _ (map_M _ _) => apply emits_map_M; intros ?
  | |- emits _ (try_except_RequestException _ _) => apply emits_try_except; [|intros ?]
  | |- emits _ (in_worker _) => apply emits_in_worker
  | |- emits _ (match ?x with _ => _ end) => destruct x
  | |- emits _ _ => solve [auto 2 with emits]
  end.

Ltac emits_auto := repeat emits_step.

(** The file-system, network and codec primitives, and the methods that use
    no pool, add no pool event. *)
Section Pool_free.
Context `{!Collaborators}.

Lemma emits_mkdir ok p : (∀ d, ok (EvMkdir d) = true) → emits ok (mkdir p).
Proof.
  intros Hok. unfold mkdir.
  apply emits_bind; [apply emits_as_str|]. intros path.
  apply emits_bind; [apply emits_emit, Hok|]. intros _. emits_auto.
Qed.

Lemma emits_fetch_to_file url output_path body notice :
  emits not_pool (fetch_to_file url output_path body notice).
Proof. unfold fetch_to_file, raise_for_status, write_file. emits_auto. Qed.

#[local] Hint Resolve emits_fetch_to_file : emits.

Lemma emits_download_image url output_path : emits not_pool (download_image url output_path).
Proof. unfold download_image. emits_auto. Qed.

Lemma emits_download_webpage self url output_path :
  emits not_pool (download_webpage self url output_path).
Proof. unfold download_webpage. emits_auto. Qed.

Lemma emits__download_audio self url : emits not_pool (_download_audio self url).
Proof. unfold _download_audio. emits_auto. Qed.

Lemma emits_split_audio self input_file minutes :
  emits not_pool (split_audio self input_file minutes).
Proof. unfold split_audio, from_mp3, export. emits_auto. Qed.

Lemma emits_image_filename ok url : emits ok (image_filename url).
Proof. unfold image_filename. emits_auto. Qed.

Lemma emits_webpage_filename ok url : emits ok (webpage_filename url).
Proof. unfold webpage_filename, split. emits_auto. Qed.

Lemma emits_run_all job filename od urls :
  (∀ u p, emits not_pool (job u p)) → (∀ u, emits not_pool (filename u)) →
  emits not_pool (run_all job filename od urls).
Proof. intros Hj Hf. unfold run_all. emits_auto. Qed.

End Pool_free.

(** ** Worker pools: what they add to the trace *)

Lemma emits_weaken {A} (ok ok' : event → bool) (m : M A) :
  (∀ e, ok e = true → ok' e = true) → emits ok m → emits ok' m.
Proof. intros Hw Hm w. eapply extends_weaken; [exact Hw | apply Hm]. Qed.

Lemma emits_any {A} ok (m : M A) : emits ok m → emits any_event m.
Proof. by apply emits_weaken. Qed.

Lemma emits_map_M_Forall {A B} ok (f : A → M B) (xs : list A) :
  Forall (λ x, emits ok (f x)) xs → emits ok (map_M f xs).
Proof.
  induction 1 as [|x xs Hx _ IH]; [apply emits_ret|].
  cbn [map_M]. apply emits_bind; [apply Hx|]. intros y.
  apply emits_bind; [apply IH|]. intros ys. apply emits_ret.
Qed.

Lemma for_each_emit {A} (g : A → event) (xs : list A) : ∀ w,
  for_each xs (λ x, emit (g x)) w
  = (Returns tt, World (heap w) (files w) (dirs w) (trace w ++ map g xs)).
Proof.
  induction xs as [|x xs IH]; intros w.
  - cbn. unfold ret. by rewrite app_nil_r, world_eta.
  - cbn [for_each]. unfold bind, emit at 1. rewrite IH. cbn [heap files dirs trace map].
    by rewrite <- app_assoc.
Qed.

Lemma begins_with_extends w pre w1 w2 :
  begins_with w pre w1 → extends any_event w1 w2 → begins_with w pre w2.
Proof.
  intros (e1 & H1) (e2 & H2 & _). exists (e1 ++ e2)%list.
  by rewrite H2, H1, <- !app_assoc.
Qed.

Lemma begins_with_new_events w pre w' :
  begins_with w pre w' → ∃ evs, new_events w w' = (pre ++ evs)%list.
Proof. intros (evs & Htr). exists evs. by apply new_events_app. Qed.

Lemma begins_with_later w e pre w1 w' :
  trace w1 = (trace w ++ [e])%list → begins_with w1 pre w' → begins_with w (e :: pre) w'.
Proof. intros H1 (evs & H2). exists evs. by rewrite H2, H1, <- app_assoc. Qed.

(** a computation whose first part has produced [pre] keeps it *)
Lemma bind_begins_with {A B} (m : M A) (k : A → M B) w0 pre w :
  begins_with w0 pre (m w).2 → (∀ a, emits any_event (k a)) →
  begins_with w0 pre (bind m k w).2.
Proof.
  intros Hm Hk. unfold bind. destruct (m w) as [[a|e] w1]; cbn [snd] in *; [|done].
  eapply begins_with_extends; [exact Hm | apply Hk].
Qed.

Section Pool_traces.
Context `{!Collaborators}.

Lemma emits_pool_run {A} (tasks : list (M A)) :
  Forall (emits any_event) tasks → emits any_event (pool_run tasks).
Proof.
  intros Ht. unfold pool_run. apply emits_map_M_Forall.
  apply Forall_forall. intros [i t] Hin. apply list_elem_of_omap in Hin.
  destruct Hin as (j & _ & Hj). destruct (tasks !! j) as [t'|] eqn:Hl; [|done].
  cbn in Hj. injection Hj as <- <-. cbn [snd fst].
  apply emits_bind; [|intros r; apply emits_ret].
  apply emits_in_worker. rewrite Forall_forall in Ht. apply Ht.
  by eapply list_elem_of_lookup_2.
Qed.

Lemma emits_with_pool {A} (body : M A) :
  emits any_event body → emits any_event (with_pool body).
Proof.
  intros Hb. unfold with_pool. apply emits_bind; [by apply emits_emit|]. intros _ w.
  specialize (Hb w). destruct (body w) as [r w1]. cbn [snd trace] in *.
  eapply extends_trans; [exact Hb|]. by apply extends_one with (e := EvPoolClose).
Qed.

Lemma emits_pool_join {A} (tasks : list (M A)) :
  Forall (emits any_event) tasks → emits any_event (pool_join tasks).
Proof.
  intros Ht. unfold pool_join. apply emits_bind; [by apply emits_pool_run|].
  intros done. emits_auto.
Qed.

Lemma emits_pool_map target f xs :
  (∀ x, emits any_event (f x)) → emits any_event (pool_map target f xs).
Proof.
  intros Hf. unfold pool_map. apply emits_bind; [apply emits_py_iter|]. intros items.
  apply emits_bind; [apply emits_for_each; intros x; by apply emits_emit|]. intros _.
  apply emits_bind; [|intros done; emits_auto].
  apply emits_pool_run, Forall_forall. intros t Hin.
  apply list_elem_of_fmap in Hin as (x & -> & _). apply Hf.
Qed.

Lemma emits_submit_all target filename od urls :
  (∀ u, emits any_event (filename u)) →
  emits any_event (submit_all target filename od urls).
Proof. intros Hf. unfold submit_all. emits_auto. Qed.

Lemma emits_download_audios self urls : emits any_event (download_audios self urls).
Proof.
  unfold download_audios.
  apply emits_bind; [apply emits_getattr|]. intros od.
  apply emits_bind; [by apply emits_mkdir|]. intros _.
  apply emits_bind; [apply emits_getattr|]. intros mp.
  apply emits_bind; [|intros; emits_auto].
  destruct (truthy mp).
  - apply emits_with_pool, emits_pool_map. intros x. apply emits_any with not_pool.
    apply emits__download_audio.
  - apply emits_bind; [apply emits_py_iter|]. intros xs. apply emits_map_M. intros x.
    apply emits_any with not_pool, emits__download_audio.
Qed.

End Pool_traces.

(** ** Dispatch of the audio jobs *)

Lemma has_attr_same_heap w w' self name v :
  heap w' = heap w → has_attr w self name v → has_attr w' self name v.
Proof. intros Hh (d & Hd & Hv). exists d. by rewrite Hh. Qed.

Lemma mkdir_spec od w :
  mkdir (VStr od) w
  = (Returns tt, World (heap w) (files w) ({[od]} ∪ dirs w) (trace w ++ [EvMkdir od])).
Proof. reflexivity. Qed.

Section Audio_dispatch.
Context `{!Collaborators}.

Lemma with_pool_begins {A} (body : M A) pre w :
  (∀ w1, begins_with w1 pre (body w1).2) →
  ∃ mid, begins_with w (EvPoolOpen :: pre ++ mid ++ [EvPoolClose])%list (with_pool body w).2.
Proof.
  intros Hb. unfold with_pool, bind, emit.
  set (w1 := World (heap w) (files w) (dirs w) (trace w ++ [EvPoolOpen])).
  destruct (Hb w1) as (mid & Hmid). destruct (body w1) as [r w2]. cbn [snd trace] in *.
  exists mid, []. rewrite Hmid. cbn [w1 trace]. by rewrite app_nil_r, <- !app_assoc.
Qed.

Lemma pool_map_begins target f items w :
  (∀ x, emits any_event (f x)) →
  begins_with w (map (EvPoolSubmit target) items) (pool_map target f (VList items) w).2.
Proof.
  intros Hf. unfold pool_map. cbn [py_iter]. unfold bind at 1, ret at 1.
  unfold bind at 1. rewrite for_each_emit.
  set (w1 := World _ _ _ _).
  assert (Hrest : ∀ k : list (nat * outcome pyval) → M (list pyval),
            (∀ done, emits any_event (k done)) →
            begins_with w (map (EvPoolSubmit target) items)
              (bind (pool_run (map f items)) k w1).2).
  { intros k Hk. apply begins_with_extends with w1.
    - exists []. unfold w1. cbn [trace]. by rewrite app_nil_r.
    - apply emits_bind; [|exact Hk].
      apply emits_pool_run, Forall_forall. intros t Hin.
      apply list_elem_of_fmap in Hin as (x & -> & _). apply Hf. }
  apply Hrest. intros done. emits_auto.
Qed.

(** With the flag set, [download_audios] creates the directory, constructs
    a pool, hands it one task per URL, and tears the pool down. *)
Lemma download_audios_pooled self us od mp w :
  has_attr w self "output_dir" (VStr od) →
  has_attr w self "use_multiprocessing" mp →
  truthy mp = true →
  ∃ mid, begins_with w
           ([EvMkdir od; EvPoolOpen] ++ map (EvPoolSubmit F__download_audio) us
            ++ mid ++ [EvPoolClose])%list
           (download_audios self (VList us) w).2.
Proof.
  intros Hod Hmp Ht. unfold download_audios.
  rewrite (bind_returns _ _ _ _ _ (getattr_has _ _ _ _ Hod)).
  rewrite (bind_returns _ _ _ _ _ (mkdir_spec od w)).
  set (w1 := World _ _ _ _).
  assert (Hmp1 : has_attr w1 self "use_multiprocessing" mp)
    by (by apply has_attr_same_heap with w).
  rewrite (bind_returns _ _ _ _ _ (getattr_has _ _ _ _ Hmp1)). rewrite Ht.
  destruct (with_pool_begins
              (pool_map F__download_audio (_download_audio self) (VList us))
              (map (EvPoolSubmit F__download_audio) us) w1) as (mid & Hmid).
  { intros w2. apply pool_map_begins. intros x.
    apply emits_any with not_pool, emits__download_audio. }
  exists mid. apply bind_begins_with; [|intros; emits_auto].
  apply begins_with_later with w1; [reflexivity | exact Hmid].
Qed.

Lemma emits_audio_single self u : emits not_pool (audio_single self u).
Proof.
  unfold audio_single.
  emits_auto; first [apply emits__download_audio | apply emits_split_audio].
Qed.

(** C8. When the URL list holds exactly one URL, [audio] is the single
    fetch run in the calling process (followed by the optional
    segmentation) and adds no pool event to the trace: no pool is
    constructed.  When it holds two or more URLs and the parallel flag is
    set, [audio] constructs a worker pool and submits to it one
    [_download_audio] task per URL, in order, before tearing it down. *)
Theorem audio_dispatch (self : loc) (us : list pyval) (w : world) :
  has_attr w self "urls" (VList us) →
  us ≠ [] →
  match us with
  | [u] =>
      audio self w = audio_single self u w
      ∧ forallb not_pool (new_events w (audio self w).2) = true
  | _ =>
      ∀ od mp,
        has_attr w self "output_dir" (VStr od) →
        has_attr w self "use_multiprocessing" mp →
        truthy mp = true →
        ∃ mid rest,
          new_events w (audio self w).2
          = ([EvMkdir od; EvPoolOpen] ++ map (EvPoolSubmit F__download_audio) us
             ++ mid ++ [EvPoolClose] ++ rest)%list
  end.
Proof.
  intros Hurls Hne.
  destruct us as [|u [|u2 us]]; [done| |].
  - assert (Heq : audio self w = audio_single self u w).
    { unfold audio. rewrite (bind_returns _ _ _ _ _ (getattr_has _ _ _ _ Hurls)).
      reflexivity. }
    split; [done|]. rewrite Heq. apply extends_new_events.
    apply emits_audio_single.
  - intros od mp Hod Hmp Ht.
    destruct (download_audios_pooled self (u :: u2 :: us) od mp w Hod Hmp Ht) as (mid & Hmid).
    assert (Hb : begins_with w
              ([EvMkdir od; EvPoolOpen] ++ map (EvPoolSubmit F__download_audio) (u :: u2 :: us)
               ++ mid ++ [EvPoolClose])%list (audio self w).2).
    { unfold audio. rewrite (bind_returns _ _ _ _ _ (getattr_has _ _ _ _ Hurls)).
      cbn [truthy negb py_len]. unfold bind at 1, ret at 1.
      cbn [length Nat.eqb].
      apply bind_begins_with; [|intros; emits_auto].
      apply bind_begins_with; [exact Hmid|].
      intros files. emits_auto; apply emits_any with not_pool, emits_split_audio. }
    apply begins_with_new_events in Hb as (rest & Hrest).
    exists mid, rest. rewrite Hrest. by rewrite <- !app_assoc.
Qed.

End Audio_dispatch.

Lemma audio_dispatch_witness :
  (@audio example_net fresh_instance one_url_world
   = @audio_single example_net fresh_instance (VStr "https://youtu.be/a") one_url_world
   ∧ forallb not_pool
       (new_events one_url_world (@audio example_net fresh_instance one_url_world).2) = true)
  ∧ (∃ mid rest,
       new_events two_url_world (@audio example_net fresh_instance two_url_world).2
       = ([EvMkdir "."; EvPoolOpen]
          ++ map (EvPoolSubmit F__download_audio)
               [VStr "https://youtu.be/a"; VStr "https://youtu.be/b"]
          ++ mid ++ [EvPoolClose] ++ rest)%list).
Proof.
  split.
  - apply (@audio_dispatch example_net fresh_instance [VStr "https://youtu.be/a"]
             one_url_world).
    + eexists. split; reflexivity.
    + discriminate.
  - apply (@audio_dispatch example_net fresh_instance
             [VStr "https://youtu.be/a"; VStr "https://youtu.be/b"] two_url_world)
      with (od := ".") (mp := VBool true).
    + eexists. split; reflexivity.
    + discriminate.
    + eexists. split; reflexivity.
    + eexists. split; reflexivity.
    + reflexivity.
Defined.

(** ** Dispatch of the image and webpage jobs *)

Section Batch_dispatch.
Context `{!Collaborators}.

Lemma with_pool_opens {A} (body : M A) w :
  emits any_event body → begins_with w [EvPoolOpen] (with_pool body w).2.
Proof.
  intros Hb. unfold with_pool, bind, emit.
  set (w1 := World (heap w) (files w) (dirs w) (trace w ++ [EvPoolOpen])).
  destruct (Hb w1) as (mid & Hmid & _). destruct (body w1) as [r w2]. cbn [snd trace] in *.
  exists (mid ++ [EvPoolClose])%list. rewrite Hmid. unfold w1. cbn [trace].
  by rewrite <- !app_assoc.
Qed.

Lemma emits_pooled_batch target (job : pyval → pyval → M pyval) filename od urls :
  (∀ u p, emits any_event (job u p)) → (∀ u, emits any_event (filename u)) →
  emits any_event
    (let! urls := py_iter urls in
     let! tasks := submit_all target filename od urls in
     pool_join (map (λ t : pyval * pyval, job t.1 t.2) tasks)).
Proof.
  intros Hj Hf. apply emits_bind; [apply emits_py_iter|]. intros xs.
  apply emits_bind; [by apply emits_submit_all|]. intros tasks.
  apply emits_pool_join, Forall_forall. intros t Hin.
  apply list_elem_of_fmap in Hin as (x & -> & _). apply Hj.
Qed.

(** Whatever the flag says, the [download_images] that the class ends up
    with creates the directory and then constructs a pool. *)
Lemma download_images_opens_pool self image_urls od w :
  has_attr w self "output_dir" (VStr od) →
  begins_with w [EvMkdir od; EvPoolOpen] (download_images self image_urls w).2.
Proof.
  intros Hod. unfold download_images.
  rewrite (bind_returns _ _ _ _ _ (getattr_has _ _ _ _ Hod)).
  rewrite (bind_returns _ _ _ _ _ (mkdir_spec od w)).
  apply bind_begins_with; [|intros; emits_auto].
  eapply begins_with_later; [|apply with_pool_opens]; [reflexivity|].
  apply emits_pooled_batch.
  - intros u p. apply emits_any with not_pool, emits_download_image.
  - intros u. apply emits_image_filename.
Qed.

(** [download_webpages] follows the flag: a pool when it is set, ... *)
Lemma download_webpages_pooled self webpage_urls od mp w :
  has_attr w self "output_dir" (VStr od) →
  has_attr w self "use_multiprocessing" mp →
  truthy mp = true →
  begins_with w [EvMkdir od; EvPoolOpen] (download_webpages self webpage_urls w).2.
Proof.
  intros Hod Hmp Ht. unfold download_webpages.
  rewrite (bind_returns _ _ _ _ _ (getattr_has _ _ _ _ Hod)).
  rewrite (bind_returns _ _ _ _ _ (mkdir_spec od w)).
  set (w1 := World _ _ _ _).
  assert (Hmp1 : has_attr w1 self "use_multiprocessing" mp)
    by (by apply has_attr_same_heap with w).
  rewrite (bind_returns _ _ _ _ _ (getattr_has _ _ _ _ Hmp1)). rewrite Ht.
  apply bind_begins_with; [|intros; emits_auto].
  apply begins_with_later with w1; [reflexivity|]. apply with_pool_opens.
  apply emits_pooled_batch.
  - intros u p. apply emits_any with not_pool, emits_download_webpage.
  - intros u. apply emits_webpage_filename.
Qed.

(** ... and the calling process alone when it is not. *)
Lemma download_webpages_sequential self webpage_urls od mp w :
  has_attr w self "output_dir" (VStr od) →
  has_attr w self "use_multiprocessing" mp →
  truthy mp = false →
  extends not_pool w (download_webpages self webpage_urls w).2.
Proof.
  intros Hod Hmp Ht. unfold download_webpages.
  rewrite (bind_returns _ _ _ _ _ (getattr_has _ _ _ _ Hod)).
  rewrite (bind_returns _ _ _ _ _ (mkdir_spec od w)).
  set (w1 := World _ _ _ _).
  assert (Hmp1 : has_attr w1 self "use_multiprocessing" mp)
    by (by apply has_attr_same_heap with w).
  rewrite (bind_returns _ _ _ _ _ (getattr_has _ _ _ _ Hmp1)). rewrite Ht.
  apply extends_trans with w1; [by apply extends_one with (e := EvMkdir od)|].
  revert w1 Hmp1. 
  assert (He : emits not_pool
    ((let! urls := py_iter webpage_urls in
      run_all (download_webpage self) webpage_filename (VStr od) urls) >>
     print "All webpages downloaded!" >> ret (VRef self))).
  { apply emits_bind; [|intros; emits_auto].
    apply emits_bind; [apply emits_py_iter|]. intros urls.
    apply emits_run_all; [apply emits_download_webpage | apply emits_webpage_filename]. }
  intros w1 _. apply He.
Qed.

(** The [download_images] of line 145, which the class body replaces, did
    follow the flag: with the flag unset it adds no pool event. *)
Lemma download_images_shadowed_sequential self image_urls od mp w :
  has_attr w self "output_dir" (VStr od) →
  has_attr w self "use_multiprocessing" mp →
  truthy mp = false →
  extends not_pool w (download_images_shadowed self image_urls w).2.
Proof.
  intros Hod Hmp Ht. unfold download_images_shadowed.
  rewrite (bind_returns _ _ _ _ _ (getattr_has _ _ _ _ Hod)).
  rewrite (bind_returns _ _ _ _ _ (mkdir_spec od w)).
  set (w1 := World _ _ _ _).
  assert (Hmp1 : has_attr w1 self "use_multiprocessing" mp)
    by (by apply has_attr_same_heap with w).
  rewrite (bind_returns _ _ _ _ _ (getattr_has _ _ _ _ Hmp1)). rewrite Ht.
  apply extends_trans with w1; [by apply extends_one with (e := EvMkdir od)|].
  assert (He : emits not_pool
    ((let! urls := py_iter image_urls in
      run_all download_image image_filename (VStr od) urls) >>
     print "All images downloaded!" >> ret (VRef self))).
  { apply emits_bind; [|intros; emits_auto].
    apply emits_bind; [apply emits_py_iter|]. intros urls.
    apply emits_run_all; [apply emits_download_image | apply emits_image_filename]. }
  apply He.
Qed.

(** C2 (the code departs from it). On a newly constructed instance the
    parallel flag is unset.  There, for every argument,
    [obj.download_images(urls)] runs the [def] of line 246, which constructs
    a worker pool right after creating the directory: the image jobs are not
    dispatched sequentially.  [obj.download_webpages(urls)] on the same
    instance adds no pool event: the webpage jobs follow the flag. *)
Theorem download_images_ignores_flag (w : world) (image_urls webpage_urls : pyval) :
  let self := fresh (dom (heap w)) in
  let w1 := (Dlsys w).2 in
  has_attr w1 self "use_multiprocessing" (VBool false)
  ∧ (∃ rest, new_events w1 (call_method (VRef self) "download_images" [image_urls] w1).2
             = ([EvMkdir "."; EvPoolOpen] ++ rest)%list)
  ∧ forallb not_pool
      (new_events w1 (call_method (VRef self) "download_webpages" [webpage_urls] w1).2)
    = true.
Proof.
  intros self w1.
  assert (Hmp : has_attr w1 self "use_multiprocessing" (VBool false))
    by (by apply Dlsys_has_attr).
  assert (Hod : has_attr w1 self "output_dir" (VStr ".")) by (by apply Dlsys_has_attr).
  split; [done|]. split.
  - apply begins_with_new_events. unfold call_method.
    rewrite (bind_returns _ _ _ _ _
      (getattr_class_function w1 self "download_images" F_download_images_246
         (Dlsys_lacks_attr w "download_images" eq_refl) eq_refl)).
    cbn [call call_function]. by apply download_images_opens_pool.
  - apply extends_new_events. unfold call_method.
    rewrite (bind_returns _ _ _ _ _
      (getattr_class_function w1 self "download_webpages" F_download_webpages
         (Dlsys_lacks_attr w "download_webpages" eq_refl) eq_refl)).
    cbn [call call_function]. by apply download_webpages_sequential with "." (VBool false).
Qed.

End Batch_dispatch.

(** ** Image and webpage batches: failures are caught per job *)

Section Jobs.
Context `{!Collaborators}.

Lemma names_directory_nonempty path : names_directory path = false → path ≠ "".
Proof. by intros Hp ->. Qed.

(** The body of a job, and the handler around it: whatever the network
    answers, a job that does not fail at [open] returns; what it leaves is
    [fetch_world]. *)
Lemma caught_fetch_spec (body : response → content) (err ok_ url path : string) w :
  job_completes url path = true →
  (try_except_RequestException
     (fetch_to_file url path body ok_)
     (λ e, print (err ++ url ++ ": " ++ exc_msg e)) >> ret VNone) w
  = (Returns VNone, fetch_world body err ok_ url path w).
Proof.
  intros Hok. unfold job_completes, fetch_fails in Hok.
  unfold fetch_world, fetch_events, fetch_files, bind, try_except_RequestException,
    fetch_to_file, raise_for_status, write_file, bind, emit, print, emit, get_world,
    set_files, ret, raise.
  cbn [heap files dirs trace].
  destruct (requests_get url) as [msg|r]; cbn [is_RequestException exc exc_msg
    heap files dirs trace].
  - by rewrite <- !app_assoc.
  - destruct ((400 <=? status_code r) && (status_code r <? 600));
      cbn [is_RequestException exc exc_msg heap files dirs trace orb] in *;
      [by rewrite <- !app_assoc|].
    apply negb_true_iff in Hok. rewrite Hok.
    replace (String.eqb path "") with false
      by (symmetry; by apply String.eqb_neq, names_directory_nonempty).
    cbn [heap files dirs trace]. by rewrite <- !app_assoc.
Qed.

Lemma download_image_spec (url path : string) w :
  job_completes url path = true →
  download_image (VStr url) (VStr path) w
  = (Returns VNone,
     fetch_world (λ r, Bytes (resp_content r)) "Error downloading image "
       "Image downloaded and saved to: " url path w).
Proof. apply caught_fetch_spec. Qed.

Lemma download_webpage_spec self (url path : string) w :
  job_completes url path = true →
  download_webpage self (VStr url) (VStr path) w
  = (Returns VNone,
     fetch_world (λ r, Text (resp_text r)) "Error downloading webpage "
       "Webpage downloaded and saved to: " url path w).
Proof. apply caught_fetch_spec. Qed.

End Jobs.

Lemma first_failure_all_return {A} (rs : list (outcome A)) :
  Forall (λ r, ∃ a, r = Returns a) rs → first_failure rs = None.
Proof.
  unfold first_failure. induction 1 as [|r rs [a ->] _ IH]; [done|]. by cbn.
Qed.

Lemma omap_lookup_seq {A} (l : list A) : omap (λ i, l !! i) (seq 0 (length l)) = l.
Proof.
  induction l as [|x l IH] using rev_ind; [done|].
  rewrite length_app, Nat.add_comm. cbn [length plus]. rewrite seq_S, omap_app.
  f_equal.
  - rewrite <- IH at 2. apply list_omap_ext.
    apply Forall2_same_length_lookup_2; [done|]. intros i x1 x2 Hi1 Hi2.
    rewrite Hi1 in Hi2. injection Hi2 as <-.
    apply lookup_seq in Hi1 as [-> Hlt]. by rewrite lookup_app_l.
  - cbn. by rewrite lookup_app_r, Nat.sub_diag.
Qed.

Lemma list_lookup_map {A B} (f : A → B) (l : list A) (i : nat) :
  map f l !! i = f <$> l !! i.
Proof. apply list_lookup_fmap. Qed.

Section Batch.
Context `{!Collaborators}.

(** what the pool takes is what was submitted, in some order *)
Lemma scheduled_Permutation {A} (xs : list A) : scheduled xs ≡ₚ xs.
Proof.
  unfold scheduled. rewrite (pool_schedule_perm (length xs)). by rewrite omap_lookup_seq.
Qed.

Variables (job : pyval → pyval → M pyval) (filename : pyval → M string).
Variables (fn : string → string) (body : response → content) (err ok_ od : string).
Variable target : func_id.

Hypothesis job_spec : ∀ u p w,
  job_completes u p = true →
  job (VStr u) (VStr p) w = (Returns VNone, fetch_world body err ok_ u p w).
Hypothesis filename_spec : ∀ u w, filename (VStr u) w = (Returns (fn u), w).

Local Abbreviation path := (λ u : string, path_join od (fn u)).
Local Abbreviation after urls w := (batch_world body err ok_ path urls w).
Local Abbreviation complete urls := (Forall (λ u, job_completes u (path u) = true) urls).

(** the sequential loop *)
Lemma run_all_spec (urls : list string) : ∀ w,
  complete urls →
  run_all job filename (VStr od) (VStr <$> urls) w = (Returns tt, after urls w).
Proof.
  induction urls as [|u urls IH]; intros w Hok; [done|].
  apply Forall_cons in Hok as [Hu Hok].
  unfold run_all in *. cbn [fmap list_fmap for_each].
  unfold bind at 1. unfold bind at 1. rewrite filename_spec.
  cbn [as_str]. unfold bind at 1, ret at 1. unfold bind at 1. rewrite job_spec by done.
  unfold ret at 1. by rewrite IH.
Qed.

(** the submission loop *)
Lemma submit_all_spec (urls : list string) : ∀ w,
  submit_all target filename (VStr od) (VStr <$> urls) w
  = (Returns (map (λ u, (VStr u, VStr (path u))) urls),
     World (heap w) (files w) (dirs w)
           (trace w ++ map (λ u, EvPoolSubmit target (VTuple [VStr u; VStr (path u)])) urls)).
Proof.
  induction urls as [|u urls IH]; intros w.
  - cbn. unfold ret. by rewrite app_nil_r, world_eta.
  - unfold submit_all in *. cbn [fmap list_fmap map_M].
    unfold bind at 1. unfold bind at 1. rewrite filename_spec.
    cbn [as_str]. unfold bind at 1, ret at 1. unfold bind at 1, emit at 1.
    unfold ret at 1. unfold bind at 1. rewrite IH. unfold ret.
    cbn [heap files dirs trace map]. by rewrite <- app_assoc.
Qed.

(** the jobs in the workers, in any order of indices *)
Lemma workers_spec (urls : list string) (order : list nat) : complete urls → ∀ w,
  map_M (λ it : nat * M pyval, let! r := in_worker it.2 in ret (it.1, r))
    (omap (λ i, (λ t, (i, t)) <$>
                  map (λ t : pyval * pyval, job t.1 t.2)
                      (map (λ u, (VStr u, VStr (path u))) urls) !! i) order) w
  = (Returns (omap (λ i, (λ _, (i, Returns VNone)) <$> urls !! i) order),
     after (omap (λ i, urls !! i) order) w).
Proof.
  intros Hok. induction order as [|i order IH]; intros w; [done|].
  cbn [omap list_omap]. rewrite !list_lookup_map.
  destruct (urls !! i) as [u|] eqn:Hi; cbn [fmap option_fmap option_map]; [|apply IH].
  cbn [map_M fst snd]. unfold bind at 1. unfold bind at 1, in_worker at 1.
  rewrite job_spec by (by apply (Forall_lookup_1 _ _ _ _ Hok Hi)). unfold ret at 1.
  change (World (heap w) (files (fetch_world body err ok_ u (path u) w))
                (dirs (fetch_world body err ok_ u (path u) w))
                (trace (fetch_world body err ok_ u (path u) w)))
    with (fetch_world body err ok_ u (path u) w).
  unfold bind at 1. rewrite IH. done.
Qed.

(** the join: every task has returned, so no [get] raises *)
Lemma pool_join_spec (urls : list string) w :
  complete urls →
  pool_join (map (λ t : pyval * pyval, job t.1 t.2)
                 (map (λ u, (VStr u, VStr (path u))) urls)) w
  = (Returns tt, after (scheduled urls) w).
Proof.
  intros Hok. unfold pool_join, pool_run. unfold bind at 1.
  rewrite !length_map, workers_spec by done.
  rewrite first_failure_all_return; [done|].
  apply Forall_forall. intros r Hr. apply list_elem_of_omap in Hr as (i & _ & Hi).
  apply elem_of_list_to_map_2, list_elem_of_omap in Hi as (j & _ & Hj).
  destruct (urls !! j); [|done]. cbn in Hj. injection Hj as _ <-. by eexists.
Qed.

(** the batch through a pool *)
Lemma pooled_batch_spec (urls : list string) w :
  complete urls →
  with_pool
    (let! us := py_iter (VList (VStr <$> urls)) in
     let! tasks := submit_all target filename (VStr od) us in
     pool_join (map (λ t : pyval * pyval, job t.1 t.2) tasks)) w
  = (Returns tt,
     let w1 := World (heap w) (files w) (dirs w)
                 (trace w ++ EvPoolOpen ::
                    map (λ u, EvPoolSubmit target (VTuple [VStr u; VStr (path u)])) urls) in
     let w2 := after (scheduled urls) w1 in
     World (heap w2) (files w2) (dirs w2) (trace w2 ++ [EvPoolClose])).
Proof.
  intros Hok. unfold with_pool. unfold bind at 1, emit at 1.
  cbn [py_iter]. unfold bind at 1, ret at 1. unfold bind at 1.
  rewrite submit_all_spec, pool_join_spec by done. cbn [heap files dirs trace].
  by rewrite <- app_assoc.
Qed.

End Batch.

Section Batch_outcome.
Context `{!Collaborators}.
Variables (body : response → content) (err ok_ : string) (path : string → string).

Local Abbreviation after urls w := (batch_world body err ok_ path urls w).
Local Abbreviation events urls := (flat_map (λ u, fetch_events err ok_ u (path u)) urls).

Lemma batch_world_trace (urls : list string) : ∀ w,
  trace (after urls w) = (trace w ++ events urls)%list.
Proof.
  induction urls as [|u urls IH]; intros w; [cbn; by rewrite app_nil_r|].
  cbn [batch_world foldl flat_map]. unfold batch_world in IH. rewrite IH.
  cbn [fetch_world trace]. by rewrite <- app_assoc.
Qed.

Lemma batch_world_heap (urls : list string) : ∀ w, heap (after urls w) = heap w.
Proof.
  induction urls as [|u urls IH]; intros w; [done|].
  cbn [batch_world foldl]. unfold batch_world in IH. by rewrite IH.
Qed.

Lemma batch_world_dirs (urls : list string) : ∀ w, dirs (after urls w) = dirs w.
Proof.
  induction urls as [|u urls IH]; intros w; [done|].
  cbn [batch_world foldl]. unfold batch_world in IH. by rewrite IH.
Qed.

Lemma fetch_files_keeps u p fs q : is_Some (fs !! q) → is_Some (fetch_files body u p fs !! q).
Proof.
  intros Hq. unfold fetch_files. repeat case_match; try done.
  destruct (decide (p = q)) as [->|Hne];
    [rewrite lookup_insert_eq; by eexists | by rewrite lookup_insert_ne].
Qed.

Lemma batch_world_keeps (urls : list string) q : ∀ w,
  is_Some (files w !! q) → is_Some (files (after urls w) !! q).
Proof.
  induction urls as [|u urls IH]; intros w Hq; [done|].
  cbn [batch_world foldl]. apply IH. cbn [fetch_world files]. by apply fetch_files_keeps.
Qed.

Lemma fetch_files_writes u p fs :
  fetch_fails u = false → is_Some (fetch_files body u p fs !! p).
Proof.
  unfold fetch_fails, fetch_files. destruct (requests_get u) as [|r]; [done|].
  intros ->. rewrite lookup_insert_eq. by eexists.
Qed.

(** every succeeding URL of the batch has its file afterwards *)
Lemma batch_world_files (urls : list string) u : ∀ w,
  u ∈ succeeding urls → is_Some (files (after urls w) !! path u).
Proof.
  unfold succeeding. induction urls as [|v urls IH]; intros w Hu.
  - by apply elem_of_nil in Hu.
  - cbn [batch_world foldl]. rewrite filter_cons in Hu.
    destruct (decide (fetch_fails v = false)) as [Hv|Hv].
    + apply elem_of_cons in Hu as [->|Hu]; [|by apply IH].
      apply batch_world_keeps. cbn [fetch_world files]. by apply fetch_files_writes.
    + by apply IH.
Qed.

(** the writes of a batch are those of its succeeding URLs, in order *)
Lemma batch_world_writes (urls : list string) :
  writes_of (events urls) = map path (succeeding urls).
Proof.
  unfold succeeding, writes_of. induction urls as [|u urls IH]; [done|].
  cbn [flat_map]. rewrite omap_app, IH, filter_cons.
  unfold fetch_events, fetch_fails.
  destruct (requests_get u) as [msg|r]; [by rewrite decide_False|].
  destruct ((400 <=? status_code r) && (status_code r <? 600));
    [by rewrite decide_False | by rewrite decide_True].
Qed.

(** every failing URL of the batch has its error notice *)
Lemma batch_world_notices (urls : list string) u :
  u ∈ failing urls → ∃ msg, EvPrint (err ++ u ++ ": " ++ msg) ∈ events urls.
Proof.
  unfold failing. induction urls as [|v urls IH]; intros Hu.
  - by apply elem_of_nil in Hu.
  - cbn [flat_map]. rewrite filter_cons in Hu.
    assert (Hlater : u ∈ filter (λ u, fetch_fails u = true) urls →
              ∃ msg, EvPrint (err ++ u ++ ": " ++ msg)
                     ∈ (fetch_events err ok_ v (path v) ++ events urls)%list).
    { intros Hin. destruct (IH Hin) as (msg & Hmsg). exists msg.
      apply elem_of_app. by right. }
    destruct (decide (fetch_fails v = true)) as [Hv|Hv]; [|by apply Hlater].
    apply elem_of_cons in Hu as [->|Hu]; [|by apply Hlater].
    unfold fetch_fails in Hv. unfold fetch_events.
    destruct (requests_get v) as [msg|r].
    + exists msg. apply elem_of_app. left. apply elem_of_cons. right. apply elem_of_cons. by left.
    + rewrite Hv. eexists. apply elem_of_app. left.
      apply elem_of_cons. right. apply elem_of_cons. by left.
Qed.

Lemma succeeding_Permutation (us urls : list string) :
  us ≡ₚ urls → succeeding us ≡ₚ succeeding urls.
Proof. unfold succeeding. by intros ->. Qed.

Lemma failing_Permutation (us urls : list string) :
  us ≡ₚ urls → failing us ≡ₚ failing urls.
Proof. unfold failing. by intros ->. Qed.

Lemma failing_succeeding_length (urls : list string) :
  (length (failing urls) + length (succeeding urls) = length urls)%nat.
Proof.
  unfold failing, succeeding. induction urls as [|u urls IH]; [done|].
  rewrite !filter_cons. destruct (fetch_fails u).
  - rewrite decide_True, decide_False by done. cbn [length]. lia.
  - rewrite decide_False, decide_True by done. cbn [length]. lia.
Qed.

(** A batch whose jobs ran in the order [us], some arrangement of [urls],
    between a prologue and an epilogue that write nothing, is completed. *)
Lemma batch_completed_intro self (urls us : list string) pre post w w0 wf r :
  us ≡ₚ urls →
  r = (Returns (VRef self), wf) →
  writes_of pre = [] → writes_of post = [] →
  trace wf = (trace w ++ pre ++ events us ++ post)%list →
  (∀ q, is_Some (files (after us w0) !! q) → is_Some (files wf !! q)) →
  batch_completed self path err urls w r.
Proof.
  intros Hperm -> Hpre Hpost Htr Hfiles. unfold batch_completed. cbn [fst snd].
  rewrite (new_events_app _ _ _ Htr).
  split; [done|]. split; [|split].
  - unfold writes_of in *. rewrite !omap_app, Hpre, Hpost, app_nil_r. cbn [app].
    fold (writes_of (events us)).
    rewrite batch_world_writes. by rewrite (succeeding_Permutation us urls).
  - intros u Hu. apply Hfiles, batch_world_files.
    by rewrite (succeeding_Permutation us urls).
  - intros u Hu. rewrite <- (failing_Permutation us urls) in Hu by done.
    destruct (batch_world_notices us u Hu) as (msg & Hmsg). exists msg.
    apply elem_of_app. right. apply elem_of_app. by left.
Qed.

End Batch_outcome.

Lemma writes_of_submits {A} target (arg : A → pyval) (xs : list A) :
  writes_of (map (λ x, EvPoolSubmit target (arg x)) xs) = [].
Proof. induction xs as [|x xs IH]; [done | by cbn]. Qed.

(** ** Paths that can be opened for writing *)

Lemma chars_str l : chars (str l) = l.
Proof. apply list_ascii_of_string_of_list_ascii. Qed.

Lemma no_occurrence_not_elem (c : ascii) (l : list ascii) :
  (∀ pre suf, l ≠ (pre ++ [c] ++ suf)%list) → c ∉ l.
Proof. intros Hno Hin. apply list_elem_of_split in Hin as (pre & suf & ->). by eapply Hno. Qed.

Lemma basename_no_separator url : SEP ∉ chars (basename url).
Proof.
  rewrite basename_after_last. unfold text_after_last. rewrite chars_str.
  change (chars "/") with [SEP].
  destruct (after_last [SEP] (chars url)) as [t|] eqn:Ht; cbn [default].
  - apply no_occurrence_not_elem. by apply (after_last_Some [SEP] (chars url) t).
  - apply no_occurrence_not_elem. by apply (after_last_None [SEP] (chars url)).
Qed.

Lemma replace_removes s (a b : ascii) : a ≠ b → a ∉ chars (replace s a b).
Proof.
  intros Hab. unfold replace. rewrite chars_str.
  intros Hin. apply list_elem_of_fmap in Hin as (c & Hc & _).
  unfold ascii_eqb in Hc. destruct (Ascii.eqb c a) eqn:E.
  - done.
  - apply Ascii.eqb_neq in E. done.
Qed.

Lemma chars_app s1 s2 : chars (s1 ++ s2) = (chars s1 ++ chars s2)%list.
Proof. induction s1 as [|c s1 IH]; [done|]. cbn. by rewrite <- IH. Qed.

Lemma chars_inj s1 s2 : chars s1 = chars s2 → s1 = s2.
Proof.
  intros Heq. rewrite <- (string_of_list_ascii_of_string s1),
    <- (string_of_list_ascii_of_string s2). unfold chars in Heq. by rewrite Heq.
Qed.

Lemma str_chars s : str (chars s) = s.
Proof. apply string_of_list_ascii_of_string. Qed.

Lemma starts_with_absent l : SEP ∉ l → starts_with [SEP] l = false.
Proof.
  intros Hno. destruct l as [|c l]; [done|]. cbn [starts_with].
  destruct (ascii_eqb SEP c) eqn:Ec; [|done].
  unfold ascii_eqb in Ec. apply Ascii.eqb_eq in Ec as <-.
  exfalso. apply Hno. apply elem_of_cons. by left.
Qed.

Lemma after_last_absent l : SEP ∉ l → after_last [SEP] l = None.
Proof.
  induction l as [|c l IH]; intros Hno; [done|].
  rewrite after_last_other by (by apply starts_with_absent).
  apply IH. intros Hin. apply Hno. apply elem_of_cons. by right.
Qed.

Lemma after_last_final pre t : SEP ∉ t → after_last [SEP] (pre ++ SEP :: t)%list = Some t.
Proof.
  intros Hno. induction pre as [|c pre IH].
  - cbn [app]. rewrite after_last_here by done. by rewrite after_last_absent.
  - cbn [app after_last]. by rewrite IH.
Qed.

(** [a.endswith('/')], as [posixpath.join] tests it *)
Lemma ends_in_separator od :
  starts_with [SEP] (reverse (chars od)) = true ↔ ∃ d, od = d ++ "/".
Proof.
  split.
  - intros Hs. destruct (reverse (chars od)) as [|c l] eqn:Hr; [done|].
    cbn [starts_with] in Hs. apply andb_true_iff in Hs as [Hc _].
    unfold ascii_eqb in Hc. apply Ascii.eqb_eq in Hc as <-.
    exists (str (reverse l)). apply chars_inj.
    rewrite chars_app, chars_str. apply (f_equal reverse) in Hr.
    rewrite reverse_involutive in Hr. rewrite Hr. by rewrite reverse_cons.
  - intros [d ->]. rewrite chars_app, reverse_app. done.
Qed.

(** [os.path.join] of a directory and a name without separator: the
    directory, a "/" unless the directory is empty or ends in one, and the
    name *)
Lemma path_join_under od name : SEP ∉ chars name → joined_under od name (path_join od name).
Proof.
  intros Hno. unfold path_join, joined_under.
  rewrite starts_with_absent by done.
  destruct (String.eqb od "") eqn:Hod; cbn [orb].
  - left. apply String.eqb_eq in Hod. split; [by left | done].
  - apply String.eqb_neq in Hod.
    destruct (starts_with [SEP] (reverse (chars od))) eqn:Hs.
    + left. split; [|done]. right. by apply ends_in_separator.
    + right. split; [|done]. split; [done|]. intros d Hd.
      assert (Ht : starts_with [SEP] (reverse (chars od)) = true)
        by (apply ends_in_separator; by exists d).
      congruence.
Qed.

Lemma basename_of_name name : SEP ∉ chars name → basename name = name.
Proof.
  intros Hno. rewrite basename_after_last. unfold text_after_last.
  change (chars "/") with [SEP]. rewrite after_last_absent by done. apply str_chars.
Qed.

Lemma basename_under d name : SEP ∉ chars name → basename (d ++ "/" ++ name) = name.
Proof.
  intros Hno. rewrite basename_after_last. unfold text_after_last.
  rewrite !chars_app. change (chars "/") with [SEP]. cbn [app].
  rewrite after_last_final by done. apply str_chars.
Qed.

(** the last component of a joined path is the name that was joined *)
Lemma basename_path_join od name : SEP ∉ chars name → basename (path_join od name) = name.
Proof.
  intros Hno. destruct (path_join_under od name Hno) as [[Hod ->]|[_ ->]].
  - destruct Hod as [->|[d ->]]; [by apply basename_of_name|].
    replace ((d ++ "/") ++ name) with (d ++ "/" ++ name); [by apply basename_under|].
    apply chars_inj. by rewrite !chars_app, <- app_assoc.
  - by apply basename_under.
Qed.

Lemma is_file_name_html x : is_file_name (x ++ ".html") = true.
Proof.
  assert (Hne : ∀ s, (length (chars s) < 5)%nat → String.eqb (x ++ ".html") s = false).
  { intros s Hs. apply String.eqb_neq. intros Heq. apply (f_equal chars) in Heq.
    rewrite chars_app in Heq. apply (f_equal length) in Heq.
    rewrite length_app in Heq. cbn [chars list_ascii_of_string length] in Heq. lia. }
  unfold is_file_name. rewrite !Hne by (cbn; lia). done.
Qed.

Lemma webpage_name_no_separator url :
  SEP ∉ chars (replace (last_item (py_split url "://")) "/" "_" ++ ".html").
Proof.
  rewrite chars_app. intros [Hin|Hin]%elem_of_app.
  - by apply (replace_removes _ "/" "_") in Hin.
  - cbn in Hin. repeat (apply elem_of_cons in Hin as [Hin|Hin]; [done|]).
    by apply elem_of_nil in Hin.
Qed.

Section Writable_paths.
Context `{!Collaborators}.

(** The file of a webpage is never a directory: its name ends in ".html". *)
Lemma webpage_job_completes od url : job_completes url (webpage_path od url) = true.
Proof.
  unfold job_completes, names_directory, webpage_path.
  rewrite basename_path_join by apply webpage_name_no_separator.
  rewrite is_file_name_html. apply orb_true_r.
Qed.

Lemma webpage_jobs_complete od (urls : list string) :
  Forall (λ u, job_completes u (webpage_path od u) = true) urls.
Proof. apply Forall_forall. intros u _. apply webpage_job_completes. Qed.

(** The file of an image is one when the URL ends in a file name. *)
Lemma image_jobs_complete od (urls : list string) :
  Forall (λ u, is_file_name (basename u) = true) (succeeding urls) →
  Forall (λ u, job_completes u (image_path od u) = true) urls.
Proof.
  intros Hok. apply Forall_forall. intros u Hu.
  unfold job_completes. destruct (fetch_fails u) eqn:Hf; [done|]. cbn [orb].
  unfold names_directory, image_path.
  rewrite basename_path_join by apply basename_no_separator.
  rewrite negb_involutive.
  apply (proj1 (Forall_forall _ _) Hok). unfold succeeding.
  apply list_elem_of_filter. by split.
Qed.

End Writable_paths.

Section Batch_completion.
Context `{!Collaborators}.

Lemma download_images_completed self od (urls : list string) w :
  has_attr w self "output_dir" (VStr od) →
  Forall (λ u, is_file_name (basename u) = true) (succeeding urls) →
  batch_completed self (image_path od) "Error downloading image " urls w
    (download_images self (VList (VStr <$> urls)) w).
Proof.
  intros Hod Hnames. unfold download_images.
  rewrite (bind_returns _ _ _ _ _ (getattr_has _ _ _ _ Hod)).
  rewrite (bind_returns _ _ _ _ _ (mkdir_spec od w)).
  unfold bind at 1.
  rewrite (pooled_batch_spec download_image image_filename basename
             (λ r, Bytes (resp_content r)) "Error downloading image "
             "Image downloaded and saved to: " od F_download_image_228
             download_image_spec (λ u w, eq_refl))
    by (by apply image_jobs_complete).
  cbv zeta. unfold bind, print, emit, ret. cbn [heap files dirs trace].
  eapply (batch_completed_intro _ _ _ _ self urls (scheduled urls)
            ([EvMkdir od; EvPoolOpen]
             ++ map (λ u, EvPoolSubmit F_download_image_228
                            (VTuple [VStr u; VStr (image_path od u)])) urls)
            [EvPoolClose; EvPrint "All images downloaded!"]).
  - apply scheduled_Permutation.
  - reflexivity.
  - unfold writes_of. rewrite omap_app. apply writes_of_submits.
  - reflexivity.
  - cbn [trace]. rewrite batch_world_trace. cbn [trace].
    rewrite <- !app_assoc. reflexivity.
  - intros q Hq. exact Hq.
Qed.

Lemma download_webpages_completed self od mp (urls : list string) w :
  has_attr w self "output_dir" (VStr od) →
  has_attr w self "use_multiprocessing" mp →
  batch_completed self (webpage_path od) "Error downloading webpage " urls w
    (download_webpages self (VList (VStr <$> urls)) w).
Proof.
  intros Hod Hmp. unfold download_webpages.
  rewrite (bind_returns _ _ _ _ _ (getattr_has _ _ _ _ Hod)).
  rewrite (bind_returns _ _ _ _ _ (mkdir_spec od w)).
  set (w1 := World _ _ _ _).
  assert (Hmp1 : has_attr w1 self "use_multiprocessing" mp)
    by (by apply has_attr_same_heap with w).
  rewrite (bind_returns _ _ _ _ _ (getattr_has _ _ _ _ Hmp1)).
  unfold bind at 1. destruct (truthy mp).
  - rewrite (pooled_batch_spec (download_webpage self) webpage_filename
               (λ u, replace (last_item (py_split u "://")) "/" "_" ++ ".html")
               (λ r, Text (resp_text r)) "Error downloading webpage "
               "Webpage downloaded and saved to: " od F_download_webpage
               (download_webpage_spec self) (λ u w, eq_refl))
      by apply webpage_jobs_complete.
    cbv zeta. unfold bind, print, emit, ret. cbn [heap files dirs trace].
    eapply (batch_completed_intro _ _ _ _ self urls (scheduled urls)
              ([EvMkdir od; EvPoolOpen]
               ++ map (λ u, EvPoolSubmit F_download_webpage
                              (VTuple [VStr u; VStr (webpage_path od u)])) urls)
              [EvPoolClose; EvPrint "All webpages downloaded!"]).
    + apply scheduled_Permutation.
    + reflexivity.
    + unfold writes_of. rewrite omap_app. apply writes_of_submits.
    + reflexivity.
    + cbn [trace]. rewrite batch_world_trace. unfold w1. cbn [trace].
      rewrite <- !app_assoc. reflexivity.
    + intros q Hq. exact Hq.
  - cbn [py_iter]. unfold bind at 1, ret at 1.
    rewrite (run_all_spec (download_webpage self) webpage_filename
               (λ u, replace (last_item (py_split u "://")) "/" "_" ++ ".html")
               (λ r, Text (resp_text r)) "Error downloading webpage "
               "Webpage downloaded and saved to: " od
               (download_webpage_spec self) (λ u w, eq_refl))
      by apply webpage_jobs_complete.
    unfold bind, print, emit, ret. cbn [heap files dirs trace].
    eapply (batch_completed_intro _ _ _ _ self urls urls [EvMkdir od]
              [EvPrint "All webpages downloaded!"]).
    + done.
    + reflexivity.
    + reflexivity.
    + reflexivity.
    + cbn [trace]. rewrite batch_world_trace. unfold w1. cbn [trace].
      rewrite <- !app_assoc. reflexivity.
    + intros q Hq. exact Hq.
Qed.

(** C9, amended. In a batch of webpage URLs in which exactly one URL's
    fetch fails (the connection fails or the status is an error such as 404)
    and the others succeed, the operation returns the instance without
    raising, whatever the parallel flag and whatever the order in which a
    pool takes the jobs; it performs exactly N-1 writes, those of the
    succeeding URLs, whose files are then on disk; and the failing URL has
    its error notice.  The same holds of a batch of image URLs provided
    every URL whose fetch succeeds ends in a file name (its text after the
    last "/" is not empty and is neither "." nor ".."): the handler of a job
    catches the failures of the request only, not the failure of [open] on
    a path that names a directory. *)
Theorem batch_survives_one_failure (self : loc) (od : string) (mp : pyval)
    (urls : list string) (w : world) :
  has_attr w self "output_dir" (VStr od) →
  has_attr w self "use_multiprocessing" mp →
  length (failing urls) = 1%nat →
  length (succeeding urls) = (length urls - 1)%nat
  ∧ (Forall (λ u, is_file_name (basename u) = true) (succeeding urls) →
     batch_completed self (image_path od) "Error downloading image " urls w
       (download_images self (VList (VStr <$> urls)) w)
     ∧ length (writes_of (new_events w
                 (download_images self (VList (VStr <$> urls)) w).2))
       = (length urls - 1)%nat)
  ∧ batch_completed self (webpage_path od) "Error downloading webpage " urls w
      (download_webpages self (VList (VStr <$> urls)) w)
  ∧ length (writes_of (new_events w
              (download_webpages self (VList (VStr <$> urls)) w).2))
    = (length urls - 1)%nat.
Proof.
  intros Hod Hmp Hone.
  pose proof (failing_succeeding_length urls) as Hlen.
  assert (Hgood : length (succeeding urls) = (length urls - 1)%nat) by lia.
  pose proof (download_webpages_completed self od mp urls w Hod Hmp) as Hw.
  split; [done|]. split; [|split; [done|]].
  - intros Hnames.
    pose proof (download_images_completed self od urls w Hod Hnames) as Hi.
    split; [done|]. destruct Hi as (_ & Hwr & _). by rewrite Hwr, length_map.
  - destruct Hw as (_ & Hwr & _). by rewrite Hwr, length_map.
Qed.

End Batch_completion.

Lemma batch_survives_one_failure_witness :
  length (@succeeding example_net three_urls) = (length three_urls - 1)%nat
  ∧ @batch_completed example_net fresh_instance (image_path ".")
      "Error downloading image " three_urls fresh_world
      (@download_images example_net fresh_instance (VList (VStr <$> three_urls)) fresh_world)
  ∧ length (writes_of (new_events fresh_world
              (@download_images example_net fresh_instance
                 (VList (VStr <$> three_urls)) fresh_world).2))
    = (length three_urls - 1)%nat
  ∧ @batch_completed example_net fresh_instance (webpage_path ".")
      "Error downloading webpage " three_urls fresh_world
      (@download_webpages example_net fresh_instance (VList (VStr <$> three_urls))
         fresh_world)
  ∧ length (writes_of (new_events fresh_world
              (@download_webpages example_net fresh_instance
                 (VList (VStr <$> three_urls)) fresh_world).2))
    = (length three_urls - 1)%nat.
Proof.
  destruct (@batch_survives_one_failure example_net fresh_instance "." (VBool false)
              three_urls fresh_world) as (Hlen & Himages & Hpages & Hwrites).
  - exists init_dict. split; reflexivity.
  - exists init_dict. split; reflexivity.
  - reflexivity.
  - split; [exact Hlen|]. split; [|split; [|split]].
    + apply Himages. repeat constructor.
    + apply Himages. repeat constructor.
    + exact Hpages.
    + exact Hwrites.
Defined.

(** C9 as stated fails for images: of these three URLs exactly one fetch
    fails (the third, 404) and the other two succeed, yet the batch raises.
    The second URL ends in "/": its file name is empty, its path is the
    output directory itself, and [open] fails there with an error that the
    handler of the job does not catch. *)
Lemma image_batch_raises_on_directory_url :
  length (@failing example_net gallery_urls) = 1%nat
  ∧ length (@succeeding example_net gallery_urls) = (length gallery_urls - 1)%nat
  ∧ (@download_images example_net fresh_instance (VList (VStr <$> gallery_urls))
       fresh_world).1
    = Raises (Exn IsADirectoryError "[Errno 21] Is a directory: './'").
Proof. vm_compute. done. Qed.

(** The three-URL batch of images, run: two files, two writes, one error
    notice, and the pool that the unset flag did not ask for. *)
Example three_images_run :
  let r := @download_images example_net fresh_instance (VList (VStr <$> three_urls))
             fresh_world in
  r.1 = Returns (VRef fresh_instance)
  ∧ map fst (map_to_list (files r.2)) ≡ₚ ["./pic.jpg"; "./b.png"]
  ∧ new_events fresh_world r.2
    = [ EvMkdir "."; EvPoolOpen;
        EvPoolSubmit F_download_image_228
          (VTuple [VStr "https://x.com/img/pic.jpg"; VStr "./pic.jpg"]);
        EvPoolSubmit F_download_image_228
          (VTuple [VStr "https://x.com/img/missing.png"; VStr "./missing.png"]);
        EvPoolSubmit F_download_image_228
          (VTuple [VStr "https://x.com/b.png"; VStr "./b.png"]);
        EvHttpGet "https://x.com/b.png"; EvFileWrite "./b.png";
        EvPrint "Image downloaded and saved to: ./b.png";
        EvHttpGet "https://x.com/img/missing.png";
        EvPrint ("Error downloading image https://x.com/img/missing.png: "
                 ++ "404 Error for url: https://x.com/img/missing.png");
        EvHttpGet "https://x.com/img/pic.jpg"; EvFileWrite "./pic.jpg";
        EvPrint "Image downloaded and saved to: ./pic.jpg";
        EvPoolClose; EvPrint "All images downloaded!" ].
Proof.
  vm_compute. split; [reflexivity|]. split; [|reflexivity].
  apply Permutation_swap.
Qed.

(** ** Audio jobs: what one fetch does *)

Section Audio_jobs.
Context `{!Collaborators}.

(** One audio job on an instance whose directory and template are strings:
    the extractor runs once on the joined template; its failure is raised as
    it is, its success leaves the MP3 on disk and returns its path. *)
Lemma _download_audio_spec self od op (url : string) w :
  has_attr w self "output_dir" (VStr od) →
  has_attr w self "output_path" (VStr op) →
  _download_audio self (VStr url) w
  = (audio_job_result (path_join od op) url, audio_job_world (path_join od op) url w).
Proof.
  intros Hod Hop. unfold _download_audio.
  rewrite (bind_returns _ _ _ _ _ (getattr_has _ _ _ _ Hod)).
  rewrite (bind_returns _ _ _ _ _ (getattr_has _ _ _ _ Hop)).
  cbn [as_str]. unfold bind at 1, ret at 1. unfold bind at 1, ret at 1.
  unfold bind at 1, ret at 1. unfold bind at 1, emit at 1.
  unfold audio_job_result, audio_job_world.
  destruct (ydl_extract_info url (path_join od op)) as [msg|[filename a]]; [done|].
  unfold bind, get_world, set_files, print, emit, ret. cbn [heap files dirs trace].
  by rewrite <- app_assoc.
Qed.

Lemma audio_job_world_heap t u w : heap (audio_job_world t u w) = heap w.
Proof. unfold audio_job_world. by destruct (ydl_extract_info u t) as [|[??]]. Qed.


Lemma audio_batch_world_snoc t urls u w :
  audio_batch_world t (urls ++ [u]) w = audio_job_world t u (audio_batch_world t urls w).
Proof. unfold audio_batch_world. by rewrite foldl_app. Qed.

End Audio_jobs.

Lemma omap_lookup_bind_seq {A B} (g : A → option B) (l : list A) :
  omap (λ i, l !! i ≫= g) (seq 0 (length l)) = omap g l.
Proof.
  induction l as [|x l IH] using rev_ind; [done|].
  rewrite length_app, Nat.add_comm. cbn [length plus]. rewrite seq_S, !omap_app.
  f_equal.
  - rewrite <- IH. apply list_omap_ext.
    apply Forall2_same_length_lookup_2; [done|]. intros i x1 x2 Hi1 Hi2.
    rewrite Hi1 in Hi2. injection Hi2 as <-.
    apply lookup_seq in Hi1 as [-> Hlt]. by rewrite lookup_app_l.
  - cbn. by rewrite lookup_app_r, Nat.sub_diag.
Qed.

Section Audio_batches.
Context `{!Collaborators}.
Variables (self : loc) (od op : string).

Local Abbreviation t := (path_join od op).

Local Abbreviation audio_ready := (audio_ready self od op).

Lemma audio_ready_same_heap w w' : heap w' = heap w → audio_ready w → audio_ready w'.
Proof. intros Hh [H1 H2]. split; by apply has_attr_same_heap with w. Qed.

Lemma audio_job_ready u w : audio_ready w → audio_ready (audio_job_world t u w).
Proof. apply audio_ready_same_heap, audio_job_world_heap. Qed.

(** the sequential loop of [download_audios] *)
Lemma sequential_audio_spec (urls : list string) : ∀ w,
  audio_ready w →
  map_M (_download_audio self) (VStr <$> urls) w
  = (sequential_result t urls, audio_batch_world t (attempted t urls) w).
Proof.
  induction urls as [|u urls IH]; intros w Hw; [done|].
  cbn [fmap list_fmap map_M sequential_result attempted].
  unfold bind at 1. destruct Hw as [Hod Hop].
  rewrite (_download_audio_spec self od op u w Hod Hop).
  unfold extract_fails. unfold audio_job_result at 1 2.
  destruct (ydl_extract_info u t) as [msg|[filename a]] eqn:Hu; [done|].
  unfold bind at 1. rewrite IH by (by apply audio_job_ready).
  cbn [audio_batch_world foldl].
  by destruct (sequential_result t urls).
Qed.

(** the jobs in the workers, in any order of indices *)
Lemma audio_workers_spec (urls : list string) (order : list nat) : ∀ w,
  audio_ready w →
  map_M (λ it : nat * M pyval, let! r := in_worker it.2 in ret (it.1, r))
    (omap (λ i, (λ task, (i, task)) <$>
                  map (_download_audio self) (VStr <$> urls) !! i) order) w
  = (Returns (omap (λ i, (λ u, (i, audio_job_result t u)) <$> urls !! i) order),
     audio_batch_world t (omap (λ i, urls !! i) order) w).
Proof.
  induction order as [|i order IH]; intros w Hw; [done|].
  cbn [omap list_omap]. rewrite list_lookup_map, list_lookup_fmap.
  destruct (urls !! i) as [u|]; cbn [fmap option_fmap option_map]; [|by apply IH].
  cbn [map_M fst snd]. unfold bind at 1. unfold bind at 1, in_worker at 1.
  destruct Hw as [Hod Hop].
  rewrite (_download_audio_spec self od op u w Hod Hop). unfold ret at 1.
  replace (World (heap w) (files (audio_job_world t u w)) (dirs (audio_job_world t u w))
             (trace (audio_job_world t u w)))
    with (audio_job_world t u w)
    by (rewrite <- (audio_job_world_heap t u w); by destruct (audio_job_world t u w)).
  unfold bind at 1. rewrite IH by (by apply audio_job_ready). done.
Qed.

End Audio_batches.

(** ** What leaves the instances alone *)

Section Keeps_heap.

Lemma keeps_ret {A} (a : A) : keeps_heap (ret a).
Proof. by intros w. Qed.

Lemma keeps_raise {A} c msg : keeps_heap (@raise A c msg).
Proof. by intros w. Qed.

Lemma keeps_bind {A B} (m : M A) (k : A → M B) :
  keeps_heap m → (∀ a, keeps_heap (k a)) → keeps_heap (bind m k).
Proof.
  intros Hm Hk w. unfold bind. specialize (Hm w).
  destruct (m w) as [[a|e] w1]; cbn [snd] in *; [|done]. by rewrite Hk.
Qed.

Lemma keeps_emit e : keeps_heap (emit e).
Proof. by intros w. Qed.

Lemma keeps_print msg : keeps_heap (print msg).
Proof. by intros w. Qed.

Lemma keeps_getattr self name : keeps_heap (getattr self name).
Proof. intros w. unfold getattr, no_attribute, raise. by repeat case_match. Qed.

Lemma keeps_get_world : keeps_heap get_world.
Proof. by intros w. Qed.

Lemma keeps_set_files f : keeps_heap (set_files f).
Proof. by intros w. Qed.

Lemma keeps_set_dirs d : keeps_heap (set_dirs d).
Proof. by intros w. Qed.

Lemma keeps_path_exists p : keeps_heap (path_exists p).
Proof. by intros w. Qed.

Lemma keeps_as_str v : keeps_heap (as_str v).
Proof. destruct v; first [apply keeps_ret | apply keeps_raise]. Qed.

Lemma keeps_py_iter v : keeps_heap (py_iter v).
Proof. destruct v; first [apply keeps_ret | apply keeps_raise]. Qed.

Lemma keeps_py_len v : keeps_heap (py_len v).
Proof. destruct v; first [apply keeps_ret | apply keeps_raise]. Qed.

Lemma keeps_py_first v : keeps_heap (py_first v).
Proof.
  destruct v as [| | |s|xs|xs| | |]; try apply keeps_raise;
    [destruct s | destruct xs | destruct xs]; first [apply keeps_ret | apply keeps_raise].
Qed.

Lemma keeps_for_each {A} (xs : list A) (body : A → M unit) :
  (∀ x, keeps_heap (body x)) → keeps_heap (for_each xs body).
Proof.
  intros Hb. induction xs as [|x xs IH]; [apply keeps_ret|].
  cbn [for_each]. apply keeps_bind; [apply Hb | by intros _].
Qed.

Lemma keeps_map_M {A B} (f : A → M B) (xs : list A) :
  (∀ x, keeps_heap (f x)) → keeps_heap (map_M f xs).
Proof.
  intros Hf. induction xs as [|x xs IH]; [apply keeps_ret|].
  cbn [map_M]. apply keeps_bind; [apply Hf|]. intros y.
  apply keeps_bind; [apply IH|]. intros ys. apply keeps_ret.
Qed.

Lemma keeps_try_except {A} (body : M A) (handler : exn → M A) :
  keeps_heap body → (∀ e, keeps_heap (handler e)) →
  keeps_heap (try_except_RequestException body handler).
Proof.
  intros Hb Hh w. unfold try_except_RequestException. specialize (Hb w).
  destruct (body w) as [[a|e] w1]; cbn [snd] in *; [done|].
  destruct (is_RequestException (exc e)); [|done]. by rewrite Hh.
Qed.

(** a worker cannot touch the parent's instances, whatever its task does *)
Lemma keeps_in_worker {A} (task : M A) : keeps_heap (in_worker task).
Proof. intros w. unfold in_worker. by destruct (task w). Qed.

End Keeps_heap.

Create HintDb keeps discriminated.

#[export] Hint Resolve keeps_getattr keeps_get_world keeps_set_files keeps_set_dirs
  keeps_path_exists keeps_as_str keeps_py_iter keeps_py_len keeps_py_first
  keeps_in_worker : keeps.

Ltac keeps_step :=
  lazymatch goal with
  | |- keeps_heap (bind _ _) => apply keeps_bind; [|intros ?]
  | |- keeps_heap (ret _) => apply keeps_ret
  | |- keeps_heap (raise _ _) => apply keeps_raise
  | |- keeps_heap (emit _) => apply keeps_emit
  | |- keeps_heap (print _) => apply keeps_print
  | |- keeps_heap (for_each _ _) => apply keeps_for_each; intros ?
  | |- keeps_heap (map_M _ _) => apply keeps_map_M; intros ?
  | |- keeps_heap (try_except_RequestException _ _) => apply keeps_try_except; [|intros ?]
  | |- keeps_heap (match ?x with _ => _ end) => destruct x
  | |- keeps_heap _ => solve [auto 2 with keeps]
  end.

Ltac keeps_auto := repeat keeps_step.

Section Keeps_heap_methods.
Context `{!Collaborators}.

Lemma keeps_mkdir p : keeps_heap (mkdir p).
Proof. unfold mkdir. keeps_auto. Qed.

Lemma keeps_pool_run {A} (tasks : list (M A)) : keeps_heap (pool_run tasks).
Proof. unfold pool_run. keeps_auto. Qed.

Lemma keeps_with_pool {A} (body : M A) : keeps_heap body → keeps_heap (with_pool body).
Proof.
  intros Hb. unfold with_pool. apply keeps_bind; [apply keeps_emit|]. intros _ w.
  specialize (Hb w). by destruct (body w).
Qed.

Lemma keeps_pool_join {A} (tasks : list (M A)) : keeps_heap (pool_join tasks).
Proof. unfold pool_join. apply keeps_bind; [apply keeps_pool_run|]. intros done. keeps_auto. Qed.

Lemma keeps_pool_map target f xs : keeps_heap (pool_map target f xs).
Proof.
  unfold pool_map. apply keeps_bind; [apply keeps_py_iter|]. intros items.
  apply keeps_bind; [keeps_auto|]. intros _.
  apply keeps_bind; [apply keeps_pool_run|]. intros done. keeps_auto.
Qed.

#[local] Hint Resolve keeps_mkdir keeps_pool_run keeps_pool_join keeps_pool_map : keeps.

Lemma keeps__download_audio self url : keeps_heap (_download_audio self url).
Proof. unfold _download_audio. keeps_auto. Qed.

Lemma keeps_split_audio self input_file minutes :
  keeps_heap (split_audio self input_file minutes).
Proof. unfold split_audio, from_mp3, export. keeps_auto. Qed.

Lemma keeps_fetch_to_file url output_path body notice :
  keeps_heap (fetch_to_file url output_path body notice).
Proof. unfold fetch_to_file, raise_for_status, write_file. keeps_auto. Qed.

#[local] Hint Resolve keeps__download_audio keeps_split_audio keeps_fetch_to_file : keeps.

Lemma keeps_download_image url output_path : keeps_heap (download_image url output_path).
Proof. unfold download_image. keeps_auto. Qed.

Lemma keeps_download_webpage self url output_path :
  keeps_heap (download_webpage self url output_path).
Proof. unfold download_webpage. keeps_auto. Qed.

Lemma keeps_download_audios self urls : keeps_heap (download_audios self urls).
Proof.
  unfold download_audios. keeps_auto.
  apply keeps_with_pool. auto with keeps.
Qed.

#[local] Hint Resolve keeps_download_image keeps_download_webpage keeps_download_audios : keeps.

Lemma keeps_audio self : keeps_heap (audio self).
Proof. unfold audio. keeps_auto. Qed.

Lemma keeps_submit_all target filename od urls :
  (∀ u, keeps_heap (filename u)) → keeps_heap (submit_all target filename od urls).
Proof. intros Hf. unfold submit_all. keeps_auto. Qed.

Lemma keeps_run_all job filename od urls :
  (∀ u p, keeps_heap (job u p)) → (∀ u, keeps_heap (filename u)) →
  keeps_heap (run_all job filename od urls).
Proof. intros Hj Hf. unfold run_all. keeps_auto. Qed.

Lemma keeps_image_filename url : keeps_heap (image_filename url).
Proof. unfold image_filename. keeps_auto. Qed.

(** the name of a page is computed without a change, unless the item is an
    instance, whose [split] is then called *)
Lemma keeps_webpage_filename url :
  is_instance url = false → keeps_heap (webpage_filename url).
Proof. intros Hu. destruct url; try discriminate Hu; unfold webpage_filename; keeps_auto. Qed.

#[local] Hint Resolve keeps_image_filename : keeps.

Lemma keeps_for_each_Forall {A} (xs : list A) (body : A → M unit) :
  Forall (λ x, keeps_heap (body x)) xs → keeps_heap (for_each xs body).
Proof.
  induction 1 as [|x xs Hx _ IH]; [apply keeps_ret|].
  cbn [for_each]. apply keeps_bind; [apply Hx | by intros _].
Qed.

Lemma keeps_map_M_Forall {A B} (f : A → M B) (xs : list A) :
  Forall (λ x, keeps_heap (f x)) xs → keeps_heap (map_M f xs).
Proof.
  induction 1 as [|x xs Hx _ IH]; [apply keeps_ret|].
  cbn [map_M]. apply keeps_bind; [apply Hx|]. intros y.
  apply keeps_bind; [apply IH|]. intros ys. apply keeps_ret.
Qed.

(** the items of a value that holds no instance *)
Lemma py_iter_no_instance v us w w' :
  holds_instance v = false → py_iter v w = (Returns us, w') →
  Forall (λ u, is_instance u = false) us.
Proof.
  intros Hv Hit. destruct v; try discriminate Hit; cbn in Hit; injection Hit as <- _.
  - apply Forall_forall. intros u Hu. apply list_elem_of_fmap in Hu as (c & -> & _). done.
  - apply Forall_forall. intros u Hu. cbn in Hv.
    destruct (is_instance u) eqn:E; [|done].
    assert (Ht : existsb is_instance xs = true); [|congruence].
    apply existsb_exists. exists u. split; [by apply list_elem_of_In | done].
  - apply Forall_forall. intros u Hu. cbn in Hv.
    destruct (is_instance u) eqn:E; [|done].
    assert (Ht : existsb is_instance xs = true); [|congruence].
    apply existsb_exists. exists u. split; [by apply list_elem_of_In | done].
Qed.

Lemma keeps_over_items {A} v (k : list pyval → M A) :
  holds_instance v = false →
  (∀ us, Forall (λ u, is_instance u = false) us → keeps_heap (k us)) →
  keeps_heap (bind (py_iter v) k).
Proof.
  intros Hv Hk w. unfold bind.
  destruct (py_iter v w) as [[us|e] w1] eqn:Hit.
  - pose proof (py_iter_no_instance v us w w1 Hv Hit) as Hus.
    pose proof (keeps_py_iter v w) as Hh. rewrite Hit in Hh. cbn [snd] in Hh.
    by rewrite (Hk us Hus w1).
  - pose proof (keeps_py_iter v w) as Hh. by rewrite Hit in Hh.
Qed.

Lemma keeps_download_images self urls : keeps_heap (download_images self urls).
Proof.
  unfold download_images. keeps_auto. apply keeps_with_pool.
  apply keeps_bind; [apply keeps_py_iter|]. intros us.
  apply keeps_bind; [apply keeps_submit_all; auto with keeps|]. intros tasks.
  apply keeps_pool_join.
Qed.

Lemma keeps_download_webpages self urls :
  holds_instance urls = false → keeps_heap (download_webpages self urls).
Proof.
  intros Hurls. unfold download_webpages.
  apply keeps_bind; [apply keeps_getattr|]. intros od.
  apply keeps_bind; [apply keeps_mkdir|]. intros _.
  apply keeps_bind; [apply keeps_getattr|]. intros mp.
  apply keeps_bind; [|intros; keeps_auto]. destruct (truthy mp).
  - apply keeps_with_pool. apply keeps_over_items; [done|]. intros us Hus.
    apply keeps_bind; [|intros tasks; apply keeps_pool_join].
    unfold submit_all. apply keeps_map_M_Forall.
    apply (Forall_impl _ _ _ Hus). intros u Hu.
    apply keeps_bind; [by apply keeps_webpage_filename|]. intros name. keeps_auto.
  - apply keeps_over_items; [done|]. intros us Hus.
    unfold run_all. apply keeps_for_each_Forall.
    apply (Forall_impl _ _ _ Hus). intros u Hu.
    apply keeps_bind; [by apply keeps_webpage_filename|]. intros name. keeps_auto.
Qed.

Lemma keeps_download_video self : keeps_heap (download_video self).
Proof. unfold download_video. keeps_auto. Qed.

End Keeps_heap_methods.

Section Keeps_heap_shadowed.
Context `{!Collaborators}.

Lemma keeps_download_image_shadowed self url output_path :
  keeps_heap (download_image_shadowed self url output_path).
Proof.
  unfold download_image_shadowed. keeps_auto; apply keeps_fetch_to_file.
Qed.

Lemma keeps_download_images_shadowed self urls :
  keeps_heap (download_images_shadowed self urls).
Proof.
  unfold download_images_shadowed. keeps_auto; try apply keeps_mkdir.
  - apply keeps_with_pool.
    apply keeps_bind; [apply keeps_py_iter|]. intros us.
    apply keeps_bind; [apply keeps_submit_all; intros; apply keeps_image_filename|].
    intros tasks. apply keeps_pool_join.
  - apply keeps_run_all; intros; [apply keeps_download_image | apply keeps_image_filename].
Qed.

End Keeps_heap_shadowed.

(** ** Audio batches *)

Lemma exn_eta e : Exn (exc e) (exc_msg e) = e.
Proof. by destruct e. Qed.

Lemma first_failure_Some {A} (rs : list (outcome A)) e :
  Raises e ∈ rs → ∃ e', first_failure rs = Some e' ∧ Raises e' ∈ rs.
Proof.
  unfold first_failure. induction rs as [|r rs IH]; intros Hin.
  - by apply elem_of_nil in Hin.
  - destruct r as [a|e1].
    + apply elem_of_cons in Hin as [Hin|Hin]; [done|].
      destruct (IH Hin) as (e' & He' & Hin'). exists e'. split; [done|].
      by apply elem_of_cons; right.
    + exists e1. split; [done|]. apply elem_of_cons; by left.
Qed.

Lemma done_results {A B} (res : A → B) (xs : list A) (order : list nat) :
  map snd (omap (λ i, (λ u, (i, res u)) <$> xs !! i) order)
  = map res (omap (λ i, xs !! i) order).
Proof.
  induction order as [|i order IH]; [done|].
  cbn [omap list_omap]. destruct (xs !! i) as [u|]; cbn; [by rewrite <- IH | exact IH].
Qed.

Lemma done_lookup {A B} (res : A → B) (xs : list A) (order : list nat) i u :
  i ∈ order → xs !! i = Some u →
  (list_to_map (omap (λ i, (λ u, (i, res u)) <$> xs !! i) order) : gmap nat B) !! i
  = Some (res u).
Proof.
  intros Hin Hu.
  destruct (list_to_map _ !! i) as [r|] eqn:Hr.
  - apply elem_of_list_to_map_2, list_elem_of_omap in Hr as (j & _ & Hj).
    destruct (xs !! j) as [u'|] eqn:Hj'; [|done]. cbn in Hj.
    injection Hj as -> <-. congruence.
  - apply not_elem_of_list_to_map_2 in Hr. exfalso. apply Hr.
    apply list_elem_of_fmap. exists (i, res u). split; [done|].
    apply list_elem_of_omap. exists i. split; [done|]. by rewrite Hu.
Qed.

Section Audio_pool.
Context `{!Collaborators}.
Variables (self : loc) (od op : string).

Local Abbreviation t := (path_join od op).
Local Abbreviation audio_ready := (audio_ready self od op).

Lemma audio_batch_world_trace (urls : list string) : ∀ w,
  trace (audio_batch_world t urls w) = (trace w ++ audio_batch_events t urls)%list.
Proof.
  induction urls as [|u urls IH]; intros w; [cbn; by rewrite app_nil_r|].
  cbn [audio_batch_world foldl audio_batch_events flat_map].
  unfold audio_batch_world in IH. rewrite IH.
  unfold audio_job_world, audio_job_events, extract_fails.
  destruct (ydl_extract_info u t) as [|[??]]; cbn [trace]; by rewrite <- app_assoc.
Qed.

Lemma audio_batch_world_dirs (urls : list string) : ∀ w,
  dirs (audio_batch_world t urls w) = dirs w.
Proof.
  induction urls as [|u urls IH]; intros w; [done|].
  cbn [audio_batch_world foldl]. unfold audio_batch_world in IH. rewrite IH.
  unfold audio_job_world. by destruct (ydl_extract_info u t) as [|[??]].
Qed.

(** a file that exists stays, and every job that succeeds leaves its file *)
Lemma audio_batch_world_keeps (urls : list string) p : ∀ w,
  is_Some (files w !! p) → is_Some (files (audio_batch_world t urls w) !! p).
Proof.
  induction urls as [|u urls IH]; intros w Hp; [done|].
  cbn [audio_batch_world foldl]. apply IH.
  unfold audio_job_world. destruct (ydl_extract_info u t) as [|[f a]]; [done|].
  cbn [files]. destruct (decide (mp3_path f = p)) as [<-|Hne].
  - rewrite lookup_insert_eq. by eexists.
  - by rewrite lookup_insert_ne.
Qed.

Lemma audio_batch_world_files (urls : list string) u f a : ∀ w,
  u ∈ urls → ydl_extract_info u t = inr (f, a) →
  is_Some (files (audio_batch_world t urls w) !! mp3_path f).
Proof.
  induction urls as [|u' urls IH]; intros w Hin Hu; [by apply elem_of_nil in Hin|].
  cbn [audio_batch_world foldl].
  apply elem_of_cons in Hin as [<-|Hin]; [|by apply IH].
  apply audio_batch_world_keeps. unfold audio_job_world. rewrite Hu. cbn [files].
  rewrite lookup_insert_eq. by eexists.
Qed.

Lemma pool_run_audio_spec (urls : list string) w :
  audio_ready w →
  pool_run (map (_download_audio self) (VStr <$> urls)) w
  = (Returns (omap (λ i, (λ u, (i, audio_job_result t u)) <$> urls !! i)
                   (pool_schedule (length urls))),
     audio_batch_world t (scheduled urls) w).
Proof.
  intros Hw. unfold pool_run. rewrite length_map, length_fmap.
  by apply audio_workers_spec.
Qed.

Lemma gather_results (urls : list string) :
  omap (λ i, match (list_to_map
                      (omap (λ i, (λ u, (i, audio_job_result t u)) <$> urls !! i)
                            (pool_schedule (length urls)))
                    : gmap nat (outcome pyval)) !! i with
             | Some (Returns v) => Some v
             | _ => None
             end) (seq 0 (length urls))
  = omap (audio_job_file t) urls.
Proof.
  rewrite <- (omap_lookup_bind_seq (audio_job_file t) urls).
  apply list_omap_ext, Forall2_same_length_lookup_2; [done|].
  intros i j1 j2 Hj1 Hj2. rewrite Hj1 in Hj2. injection Hj2 as <-.
  apply lookup_seq in Hj1 as [-> Hlt]. cbn [plus].
  destruct (lookup_lt_is_Some_2 urls i Hlt) as [u Hu].
  rewrite (done_lookup (audio_job_result t) urls _ i u); [|..|done].
  - rewrite Hu. done.
  - rewrite (pool_schedule_perm (length urls)). apply elem_of_seq. lia.
Qed.

(** [pool.map(self._download_audio, urls)] *)
Lemma pool_map_audio_spec (urls : list string) w :
  audio_ready w →
  pool_map F__download_audio (_download_audio self) (VList (VStr <$> urls)) w
  = (pooled_result t urls,
     audio_batch_world t (scheduled urls)
       (with_events w (map (λ u, EvPoolSubmit F__download_audio (VStr u)) urls))).
Proof.
  intros Hw. unfold pool_map. cbn [py_iter]. unfold bind at 1, ret at 1.
  unfold bind at 1. rewrite for_each_emit.
  unfold bind at 1. rewrite pool_run_audio_spec
    by (by apply audio_ready_same_heap with w).
  rewrite done_results. unfold pooled_result, scheduled, with_events.
  replace (map (EvPoolSubmit F__download_audio) (VStr <$> urls))
    with (map (λ u, EvPoolSubmit F__download_audio (VStr u)) urls)
    by (clear; induction urls as [|u urls IH]; [done | cbn; by rewrite IH]).
  destruct (first_failure _) as [e|].
  - unfold raise. by rewrite exn_eta.
  - unfold ret. rewrite length_fmap. by rewrite gather_results.
Qed.

(** [download_audios], lines 96-114, on a list of strings: with the flag
    set ... *)
Lemma download_audios_pooled_spec (urls : list string) mp w :
  audio_ready w → has_attr w self "use_multiprocessing" mp → truthy mp = true →
  download_audios self (VList (VStr <$> urls)) w
  = (as_file_list (pooled_result t urls), pooled_audio_world od t urls w).
Proof.
  intros Hw Hmp Ht. unfold download_audios. pose proof Hw as [Hod Hop].
  rewrite (bind_returns _ _ _ _ _ (getattr_has _ _ _ _ Hod)).
  rewrite (bind_returns _ _ _ _ _ (mkdir_spec od w)).
  fold (after_mkdir od w).
  assert (Hmp1 : has_attr (after_mkdir od w) self "use_multiprocessing" mp)
    by (by apply has_attr_same_heap with w).
  rewrite (bind_returns _ _ _ _ _ (getattr_has _ _ _ _ Hmp1)). rewrite Ht.
  unfold bind at 1, with_pool at 1, bind at 1, emit at 1.
  rewrite pool_map_audio_spec by (by apply audio_ready_same_heap with w).
  unfold pooled_audio_world, with_events. cbn [heap files dirs trace after_mkdir].
  rewrite <- !app_assoc. cbn [app].
  destruct (pooled_result t urls) as [vs|e]; cbn [as_file_list]; [|done].
  unfold bind, print, emit, ret. cbn [heap files dirs trace].
  by rewrite <- !app_assoc.
Qed.

(** ... and with the flag unset *)
Lemma download_audios_sequential_spec (urls : list string) mp w :
  audio_ready w → has_attr w self "use_multiprocessing" mp → truthy mp = false →
  download_audios self (VList (VStr <$> urls)) w
  = (as_file_list (sequential_result t urls), sequential_audio_world od t urls w).
Proof.
  intros Hw Hmp Ht. unfold download_audios. pose proof Hw as [Hod Hop].
  rewrite (bind_returns _ _ _ _ _ (getattr_has _ _ _ _ Hod)).
  rewrite (bind_returns _ _ _ _ _ (mkdir_spec od w)).
  fold (after_mkdir od w).
  assert (Hmp1 : has_attr (after_mkdir od w) self "use_multiprocessing" mp)
    by (by apply has_attr_same_heap with w).
  rewrite (bind_returns _ _ _ _ _ (getattr_has _ _ _ _ Hmp1)). rewrite Ht.
  cbn [py_iter]. unfold bind at 1. unfold bind at 1, ret at 1.
  rewrite (sequential_audio_spec self od op)
    by (by apply audio_ready_same_heap with w).
  unfold sequential_audio_world.
  destruct (sequential_result t urls) as [vs|e]; cbn [as_file_list]; [|done].
  reflexivity.
Qed.

End Audio_pool.

(** ** [split_audio]: the run *)

Lemma split_audio_run self input_file a minutes m w :
  files w !! input_file = Some (Mp3 a) →
  as_number minutes = Some m →
  m ≠ 0 →
  split_audio self (VStr input_file) minutes w
  = (Returns (VRef self), split_world input_file a m minutes w).
Proof.
  intros Hfile Hm Hne. unfold split_audio.
  unfold bind at 1. cbn [as_str ret].
  unfold bind at 1. unfold path_exists. rewrite Hfile.
  rewrite bool_decide_eq_true_2 by (by eexists). cbn [orb negb].
  unfold bind at 1. unfold from_mp3, bind at 1, emit at 1. cbn iota beta.
  unfold bind at 1, get_world at 1. cbn [files]. rewrite Hfile.
  unfold ret at 1. rewrite Hm.
  replace (m * 60 * 1000 =? 0) with false by (symmetry; apply Z.eqb_neq; lia).
  set (w1 := World (heap w) (files w) (dirs w) (trace w ++ [EvDecode input_file])).
  unfold bind at 1.
  lazymatch goal with
  | |- context [for_each ?l ?body w1] =>
      change (for_each l body w1)
        with (for_each l
                (λ i : nat,
                   export (ms_slice a (Z.of_nat i * (m * 60 * 1000))
                                      ((Z.of_nat i + 1) * (m * 60 * 1000)))
                          (segment_path input_file (Z.of_nat i + 1)) >>
                   print ("Exported: " ++ segment_path input_file (Z.of_nat i + 1)))
                w1)
  end.
  rewrite (for_each_export _
             (λ i, ms_slice a (Z.of_nat i * (m * 60 * 1000))
                              ((Z.of_nat i + 1) * (m * 60 * 1000)))
             (λ i, segment_path input_file (Z.of_nat i + 1))
             (λ i, "Exported: " ++ segment_path input_file (Z.of_nat i + 1)) w1).
  unfold bind, print, emit, ret, split_world. cbn [heap files dirs trace w1].
  by rewrite <- !app_assoc.
Qed.

(** ** Events of the fetches and events of the segmentation *)

Section Phase_events.
Context `{!Collaborators}.

Lemma emits_pool_run_of {A} ok (tasks : list (M A)) :
  Forall (emits ok) tasks → emits ok (pool_run tasks).
Proof.
  intros Ht. unfold pool_run. apply emits_map_M_Forall.
  apply Forall_forall. intros [i t] Hin. apply list_elem_of_omap in Hin.
  destruct Hin as (j & _ & Hj). destruct (tasks !! j) as [t'|] eqn:Hl; [|done].
  cbn in Hj. injection Hj as <- <-. cbn [snd fst].
  apply emits_bind; [|intros r; apply emits_ret].
  apply emits_in_worker. rewrite Forall_forall in Ht. apply Ht.
  by eapply list_elem_of_lookup_2.
Qed.

Lemma emits_with_pool_of {A} ok (body : M A) :
  ok EvPoolOpen = true → ok EvPoolClose = true →
  emits ok body → emits ok (with_pool body).
Proof.
  intros Ho Hc Hb. unfold with_pool. apply emits_bind; [by apply emits_emit|]. intros _ w.
  specialize (Hb w). destruct (body w) as [r w1]. cbn [snd trace] in *.
  eapply extends_trans; [exact Hb|]. by apply extends_one with (e := EvPoolClose).
Qed.

Lemma emits_pool_map_of ok target f xs :
  (∀ x, ok (EvPoolSubmit target x) = true) →
  (∀ x, emits ok (f x)) → emits ok (pool_map target f xs).
Proof.
  intros Hs Hf. unfold pool_map. apply emits_bind; [apply emits_py_iter|]. intros items.
  apply emits_bind; [apply emits_for_each; intros x; by apply emits_emit|]. intros _.
  apply emits_bind; [|intros done; emits_auto].
  apply emits_pool_run_of, Forall_forall. intros t Hin.
  apply list_elem_of_fmap in Hin as (x & -> & _). apply Hf.
Qed.

Lemma fetch__download_audio self url : emits not_segmentation (_download_audio self url).
Proof. unfold _download_audio. emits_auto. Qed.

Lemma fetch_download_audios self urls : emits not_segmentation (download_audios self urls).
Proof.
  unfold download_audios.
  apply emits_bind; [apply emits_getattr|]. intros od.
  apply emits_bind; [by apply emits_mkdir|]. intros _.
  apply emits_bind; [apply emits_getattr|]. intros mp.
  apply emits_bind; [|intros; emits_auto].
  destruct (truthy mp).
  - apply emits_with_pool_of; [done..|]. apply emits_pool_map_of; [done|].
    intros x. apply fetch__download_audio.
  - apply emits_bind; [apply emits_py_iter|]. intros xs. apply emits_map_M. intros x.
    apply fetch__download_audio.
Qed.

Lemma segmentation_split_audio self input_file minutes :
  emits not_download (split_audio self input_file minutes).
Proof. unfold split_audio, from_mp3, export. emits_auto. Qed.

Lemma segmentation_split_one self f : emits not_download (split_one self f).
Proof. unfold split_one. emits_auto. apply segmentation_split_audio. Qed.

Lemma segmentation_split_each self fs : emits not_download (split_each self fs).
Proof. unfold split_each. emits_auto. apply segmentation_split_audio. Qed.

Lemma not_download_not_pool e : not_download e = true → not_pool e = true.
Proof. by destruct e. Qed.

Lemma extracts_of_not_download evs :
  forallb not_download evs = true → extracts_of evs = [].
Proof.
  induction evs as [|e evs IH]; [done|]. cbn [forallb]. intros [He Hr]%andb_true_iff.
  specialize (IH Hr). by destruct e.
Qed.

Lemma exports_of_not_segmentation evs :
  forallb not_segmentation evs = true → exports_of evs = [].
Proof.
  induction evs as [|e evs IH]; [done|]. cbn [forallb]. intros [He Hr]%andb_true_iff.
  specialize (IH Hr). by destruct e.
Qed.

Lemma extracts_of_app evs1 evs2 :
  extracts_of (evs1 ++ evs2) = (extracts_of evs1 ++ extracts_of evs2)%list.
Proof. apply omap_app. Qed.

Lemma extracts_of_audio_batch t urls : extracts_of (audio_batch_events t urls) = urls.
Proof.
  induction urls as [|u urls IH]; [done|].
  cbn [audio_batch_events flat_map]. rewrite extracts_of_app.
  fold (audio_batch_events t urls). rewrite IH.
  unfold audio_job_events. by destruct (extract_fails t u).
Qed.

Lemma audio_batch_not_segmentation t urls :
  forallb not_segmentation (audio_batch_events t urls) = true.
Proof.
  induction urls as [|u urls IH]; [done|].
  cbn [audio_batch_events flat_map]. rewrite forallb_app.
  fold (audio_batch_events t urls). rewrite IH.
  unfold audio_job_events. by destruct (extract_fails t u).
Qed.

Lemma audio_batch_not_pool t urls : forallb not_pool (audio_batch_events t urls) = true.
Proof.
  induction urls as [|u urls IH]; [done|].
  cbn [audio_batch_events flat_map]. rewrite forallb_app.
  fold (audio_batch_events t urls). rewrite IH.
  unfold audio_job_events. by destruct (extract_fails t u).
Qed.

Lemma submits_not_segmentation (urls : list string) :
  forallb not_segmentation (map (λ u, EvPoolSubmit F__download_audio (VStr u)) urls) = true.
Proof. induction urls as [|u urls IH]; [done | by cbn]. Qed.

Lemma audio_job_world_trace t u w :
  trace (audio_job_world t u w) = (trace w ++ audio_job_events t u)%list.
Proof.
  unfold audio_job_world, audio_job_events, extract_fails.
  by destruct (ydl_extract_info u t) as [|[??]].
Qed.

(** a computation that only reads: the world it leaves is the one it found *)
Lemma bind_extends {A B} ok (m : M A) (k : A → M B) w :
  extends ok w (m w).2 → (∀ a, emits ok (k a)) → extends ok w (bind m k w).2.
Proof.
  intros Hm Hk. unfold bind. destruct (m w) as [[a|e] w1]; cbn [snd] in *; [|done].
  eapply extends_trans; [exact Hm | apply Hk].
Qed.

Lemma bind_extends_heap {A B} ok (m : M A) (k : A → M B) w :
  keeps_heap m → emits ok m →
  (∀ a w1, heap w1 = heap w → extends ok w1 (k a w1).2) →
  extends ok w (bind m k w).2.
Proof.
  intros Hh Hm Hk. unfold bind. specialize (Hh w). specialize (Hm w).
  destruct (m w) as [[a|e] w1]; cbn [snd] in *; [|done].
  eapply extends_trans; [exact Hm | by apply Hk].
Qed.

Lemma in_two_phases_intro ok1 ok2 w w1 w2 :
  extends ok1 w w1 → extends ok2 w1 w2 → in_two_phases ok1 ok2 w w2.
Proof.
  intros (e1 & H1 & F1) (e2 & H2 & F2). exists e1, e2. split; [|done].
  by rewrite H2, H1, <- app_assoc.
Qed.

Lemma in_two_phases_first ok1 ok2 w w1 w2 :
  extends ok1 w w1 → in_two_phases ok1 ok2 w1 w2 → in_two_phases ok1 ok2 w w2.
Proof.
  intros (e0 & H0 & F0) (e1 & e2 & H12 & F1 & F2).
  exists (e0 ++ e1)%list, e2. split; [|split; [|done]].
  - by rewrite H12, H0, <- !app_assoc.
  - by rewrite forallb_app, F0, F1.
Qed.

Lemma in_two_phases_second ok1 ok2 w w1 w2 :
  in_two_phases ok1 ok2 w w1 → extends ok2 w1 w2 → in_two_phases ok1 ok2 w w2.
Proof.
  intros (e1 & e2 & H12 & F1 & F2) (e3 & H3 & F3).
  exists e1, (e2 ++ e3)%list. split; [|split; [done|]].
  - by rewrite H3, H12, <- !app_assoc.
  - by rewrite forallb_app, F2, F3.
Qed.

Lemma in_two_phases_refl ok1 ok2 w : in_two_phases ok1 ok2 w w.
Proof. exists [], []. by rewrite app_nil_r. Qed.

End Phase_events.

(** ** [audio]: the fetches, then the segmentation *)

Lemma bind_assoc {A B C} (m : M A) (k : A → M B) (h : B → M C) w :
  bind (bind m k) h w = bind m (λ a, bind (k a) h) w.
Proof. unfold bind. by destruct (m w) as [[a|e] w1]. Qed.

Section Audio_runs.
Context `{!Collaborators}.
Variables (self : loc) (od op : string).

Local Abbreviation t := (path_join od op).
Local Abbreviation audio_ready := (audio_ready self od op).

(** [audio] on one URL: the fetch, then the optional segmentation *)
Lemma audio_one_url u w :
  has_attr w self "urls" (VList [VStr u]) → audio_ready w →
  audio self w
  = match audio_job_result t u with
    | Raises e => (Raises e, audio_job_world t u w)
    | Returns f => (split_one self f >> ret (VRef self)) (audio_job_world t u w)
    end.
Proof.
  intros Hurls [Hod Hop]. unfold audio.
  rewrite (bind_returns _ _ _ _ _ (getattr_has _ _ _ _ Hurls)).
  change (bind (bind (_download_audio self (VStr u)) (split_one self))
               (λ _, ret (VRef self)) w = 
          match audio_job_result t u with
          | Raises e => (Raises e, audio_job_world t u w)
          | Returns f => (split_one self f >> ret (VRef self)) (audio_job_world t u w)
          end).
  rewrite bind_assoc. unfold bind at 1.
  rewrite (_download_audio_spec self od op u w Hod Hop).
  by destruct (audio_job_result t u).
Qed.

(** [audio] on several URLs: [download_audios], then the optional
    segmentation of every file *)
Lemma audio_many_urls us w :
  has_attr w self "urls" (VList us) → (2 ≤ length us)%nat →
  audio self w
  = (let! output_files := download_audios self (VList us) in
     split_each self output_files >> ret (VRef self)) w.
Proof.
  intros Hurls Hlen. unfold audio.
  rewrite (bind_returns _ _ _ _ _ (getattr_has _ _ _ _ Hurls)).
  destruct us as [|u1 [|u2 us]]; [cbn in Hlen; lia..|].
  change (bind (bind (download_audios self (VList (u1 :: u2 :: us))) (split_each self))
               (λ _, ret (VRef self)) w
          = (let! output_files := download_audios self (VList (u1 :: u2 :: us)) in
             split_each self output_files >> ret (VRef self)) w).
  apply bind_assoc.
Qed.

Lemma audio_job_ready_at u w : audio_ready w → audio_ready (audio_job_world t u w).
Proof. apply audio_ready_same_heap, audio_job_world_heap. Qed.



Lemma sequential_audio_world_trace urls w :
  ∃ tail, trace (sequential_audio_world od t urls w)
          = (trace w ++ EvMkdir od :: audio_batch_events t (attempted t urls) ++ tail)%list
          ∧ (tail = [] ∨ tail = [EvPrint "All audio files downloaded!"])
          ∧ (∀ e, sequential_result t urls = Raises e → tail = []).
Proof.
  unfold sequential_audio_world. destruct (sequential_result t urls) as [vs|e].
  - exists [EvPrint "All audio files downloaded!"]. split; [|split; [by right | done]].
    cbn [with_events trace]. rewrite audio_batch_world_trace. cbn [after_mkdir trace].
    by rewrite <- !app_assoc.
  - exists []. split; [|split; [by left | done]].
    rewrite audio_batch_world_trace. cbn [after_mkdir trace].
    by rewrite <- !app_assoc, app_nil_r.
Qed.

Lemma sequential_result_stops pre bad post msg :
  Forall (λ u, extract_fails t u = false) pre →
  ydl_extract_info bad t = inl msg →
  sequential_result t (pre ++ bad :: post) = Raises (Exn DownloadError msg)
  ∧ attempted t (pre ++ bad :: post) = (pre ++ [bad])%list.
Proof.
  intros Hpre Hbad. induction Hpre as [|u pre Hu _ [IH1 IH2]].
  - cbn. unfold audio_job_result, extract_fails. by rewrite Hbad.
  - cbn [app sequential_result attempted]. rewrite IH1, IH2, Hu.
    unfold extract_fails in Hu. unfold audio_job_result.
    by destruct (ydl_extract_info u t) as [|[??]].
Qed.

Lemma sequential_result_all urls :
  Forall (λ u, extract_fails t u = false) urls →
  sequential_result t urls = Returns (omap (audio_job_file t) urls)
  ∧ attempted t urls = urls.
Proof.
  induction 1 as [|u urls Hu _ [IH1 IH2]]; [done|].
  cbn [sequential_result attempted omap list_omap]. rewrite IH1, IH2, Hu.
  unfold audio_job_file. unfold extract_fails in Hu. unfold audio_job_result.
  by destruct (ydl_extract_info u t) as [|[??]].
Qed.

Lemma pooled_result_all urls :
  Forall (λ u, extract_fails t u = false) urls →
  pooled_result t urls = Returns (omap (audio_job_file t) urls).
Proof.
  intros Hall. unfold pooled_result. rewrite first_failure_all_return; [done|].
  apply Forall_forall. intros r Hr. apply list_elem_of_fmap in Hr as (u & -> & Hu).
  rewrite (scheduled_Permutation urls) in Hu.
  rewrite Forall_forall in Hall. specialize (Hall u Hu).
  unfold extract_fails in Hall. unfold audio_job_result.
  destruct (ydl_extract_info u t) as [|[??]]; [done | by eexists].
Qed.

Lemma pooled_result_fails urls bad :
  bad ∈ urls → extract_fails t bad = true →
  ∃ u msg, u ∈ urls ∧ ydl_extract_info u t = inl msg
           ∧ pooled_result t urls = Raises (Exn DownloadError msg).
Proof.
  intros Hin Hbad. unfold pooled_result.
  unfold extract_fails in Hbad.
  destruct (ydl_extract_info bad t) as [msg|[??]] eqn:Hb; [|done].
  destruct (first_failure_Some (map (audio_job_result t) (scheduled urls))
              (Exn DownloadError msg)) as (e & -> & He).
  { apply list_elem_of_fmap. exists bad. split.
    - unfold audio_job_result. by rewrite Hb.
    - by rewrite (scheduled_Permutation urls). }
  apply list_elem_of_fmap in He as (u & Hu & Hin').
  rewrite (scheduled_Permutation urls) in Hin'.
  unfold audio_job_result in Hu.
  destruct (ydl_extract_info u t) as [msg'|[??]] eqn:Hu'; [|done].
  injection Hu as ->. by exists u, msg'.
Qed.

End Audio_runs.

Section Audio_fetches.
Context `{!Collaborators}.
Variables (self : loc) (od op : string).

Local Abbreviation t := (path_join od op).
Local Abbreviation audio_ready := (audio_ready self od op).

Lemma bind_outcome {A B} (m : M A) (k : A → M B) w r w1 :
  m w = (r, w1) →
  bind m k w = match r with Returns a => k a w1 | Raises e => (Raises e, w1) end.
Proof. unfold bind. by intros ->. Qed.

Lemma getattr_reads name w : ∃ r, getattr self name w = (r, w).
Proof.
  unfold getattr, no_attribute, raise. repeat case_match; by eexists.
Qed.

(** on a single file, the loop of lines 91-92 is the call of line 87 *)
Lemma split_each_one f w : split_each self (VList [f]) w = split_one self f w.
Proof.
  destruct (getattr_reads "split_minutes" w) as [r Hv].
  unfold split_each, split_one. rewrite !(bind_outcome _ _ _ _ _ Hv).
  destruct r as [v|e]; [|done].
  destruct (truthy v); [|done].
  cbn [py_iter]. unfold bind at 1, ret at 1. cbn [for_each].
  unfold bind at 1. rewrite (bind_outcome _ _ _ _ _ Hv). unfold bind.
  by destruct (split_audio self f v w) as [[?|?] ?].
Qed.

(** [audio] on a non-empty list of strings: the fetches, and when they all
    went through, the optional segmentation of the files they returned *)
Lemma audio_run_eq (urls : list string) mp w :
  has_attr w self "urls" (VList (VStr <$> urls)) → urls ≠ [] →
  audio_ready w → has_attr w self "use_multiprocessing" mp →
  audio self w
  = match audio_fetch_result mp t urls with
    | Raises e => (Raises e, audio_fetch_world mp od t urls w)
    | Returns vs =>
        (split_each self (VList vs) >> ret (VRef self)) (audio_fetch_world mp od t urls w)
    end.
Proof.
  intros Hurls Hne Hw Hmp. destruct urls as [|u1 [|u2 urls]]; [done| |].
  - rewrite (audio_one_url self od op u1 w Hurls Hw).
    cbn [audio_fetch_result audio_fetch_world sequential_result].
    destruct (audio_job_result t u1) as [f|e]; [|done].
    unfold bind. by rewrite split_each_one.
  - rewrite (audio_many_urls self _ w Hurls) by (cbn; lia).
    unfold audio_fetch_result, audio_fetch_world. unfold bind at 1.
    destruct (truthy mp) eqn:Ht.
    + rewrite (download_audios_pooled_spec self od op _ mp w Hw Hmp Ht).
      by destruct (pooled_result t (u1 :: u2 :: urls)).
    + rewrite (download_audios_sequential_spec self od op _ mp w Hw Hmp Ht).
      by destruct (sequential_result t (u1 :: u2 :: urls)).
Qed.


Lemma sequential_audio_world_events urls w :
  trace (sequential_audio_world od t urls w)
  = (trace w ++ EvMkdir od :: audio_batch_events t (attempted t urls)
       ++ match sequential_result t urls with
          | Returns _ => [EvPrint "All audio files downloaded!"]
          | Raises _ => []
          end)%list.
Proof.
  unfold sequential_audio_world. destruct (sequential_result t urls) as [vs|e];
    cbn [with_events trace]; rewrite audio_batch_world_trace; cbn [after_mkdir trace];
    rewrite <- !app_assoc; [done | by rewrite app_nil_r].
Qed.

Lemma pooled_audio_world_events urls w :
  trace (pooled_audio_world od t urls w)
  = (trace w ++ [EvMkdir od; EvPoolOpen]
       ++ map (λ u, EvPoolSubmit F__download_audio (VStr u)) urls
       ++ audio_batch_events t (scheduled urls)
       ++ EvPoolClose ::
          match pooled_result t urls with
          | Returns _ => [EvPrint "All audio files downloaded!"]
          | Raises _ => []
          end)%list.
Proof.
  unfold pooled_audio_world. destruct (pooled_result t urls) as [vs|e];
    cbn [with_events trace]; rewrite audio_batch_world_trace;
    cbn [with_events after_mkdir trace]; by rewrite <- !app_assoc.
Qed.

Lemma audio_fetch_world_trace mp urls w :
  trace (audio_fetch_world mp od t urls w)
  = (trace w ++ audio_fetch_events mp od t urls)%list.
Proof.
  unfold audio_fetch_world, audio_fetch_events.
  destruct urls as [|u1 [|u2 urls]]; [destruct (truthy mp)| |destruct (truthy mp)];
    first [apply audio_job_world_trace | apply pooled_audio_world_events
          | apply sequential_audio_world_events].
Qed.

Lemma audio_fetch_not_segmentation mp urls :
  forallb not_segmentation (audio_fetch_events mp od t urls) = true.
Proof.
  assert (Hseq : ∀ urls, forallb not_segmentation
            (EvMkdir od :: audio_batch_events t (attempted t urls)
               ++ match sequential_result t urls with
                  | Returns _ => [EvPrint "All audio files downloaded!"]
                  | Raises _ => []
                  end) = true).
  { intros l. cbn [forallb]. rewrite forallb_app, audio_batch_not_segmentation.
    by destruct (sequential_result t l). }
  assert (Hpool : ∀ urls, forallb not_segmentation
            ([EvMkdir od; EvPoolOpen]
               ++ map (λ u, EvPoolSubmit F__download_audio (VStr u)) urls
               ++ audio_batch_events t (scheduled urls)
               ++ EvPoolClose ::
                  match pooled_result t urls with
                  | Returns _ => [EvPrint "All audio files downloaded!"]
                  | Raises _ => []
                  end) = true).
  { intros l. cbn [app forallb]. rewrite !forallb_app, submits_not_segmentation,
      audio_batch_not_segmentation. by destruct (pooled_result t l). }
  unfold audio_fetch_events.
  destruct urls as [|u1 [|u2 urls]]; [destruct (truthy mp)| |destruct (truthy mp)];
    try apply Hseq; try apply Hpool.
  unfold audio_job_events. by destruct (extract_fails t u1).
Qed.

(** what follows the fetches only adds events of the segmentation *)
Lemma audio_split_phase vs w1 :
  extends not_download w1 ((split_each self (VList vs) >> ret (VRef self)) w1).2.
Proof.
  apply emits_bind; [apply segmentation_split_each | intros; apply emits_ret].
Qed.

(** the events of a run of [audio]: those of the fetches, then only events
    of the segmentation, and none of these when a fetch failed *)
Lemma audio_run_events (urls : list string) mp w :
  has_attr w self "urls" (VList (VStr <$> urls)) → urls ≠ [] →
  audio_ready w → has_attr w self "use_multiprocessing" mp →
  ∃ evs2, new_events w (audio self w).2 = (audio_fetch_events mp od t urls ++ evs2)%list
          ∧ forallb not_download evs2 = true
          ∧ (∀ e, audio_fetch_result mp t urls = Raises e →
               (audio self w).1 = Raises e ∧ evs2 = []
               ∧ files (audio self w).2 = files (audio_fetch_world mp od t urls w)).
Proof.
  intros Hurls Hne Hw Hmp. rewrite (audio_run_eq urls mp w Hurls Hne Hw Hmp).
  destruct (audio_fetch_result mp t urls) as [vs|e].
  - destruct (audio_split_phase vs (audio_fetch_world mp od t urls w)) as (evs2 & Htr & Hok).
    exists evs2. split; [|split; [done | done]].
    apply new_events_app. by rewrite Htr, audio_fetch_world_trace, <- app_assoc.
  - exists []. split; [|split; [done|]].
    + apply new_events_app. cbn [snd]. by rewrite audio_fetch_world_trace, app_nil_r.
    + by intros e' [= <-].
Qed.

End Audio_fetches.

(** ** [audio]: order, failures and composition *)

Section Audio_properties.
Context `{!Collaborators}.

Lemma audio_empty_list self w :
  has_attr w self "urls" (VList []) →
  audio self w = (Raises (Exn ValueError "URL(s) not set. Use set_url() method first."), w).
Proof.
  intros Hurls. unfold audio.
  by rewrite (bind_returns _ _ _ _ _ (getattr_has _ _ _ _ Hurls)).
Qed.

Lemma new_events_same w : new_events w w = [].
Proof. unfold new_events. apply drop_all. Qed.

Lemma attempted_one t u : attempted t [u] = [u].
Proof. cbn. by destruct (extract_fails t u). Qed.

Lemma sequential_fetch_result mp t urls :
  truthy mp = false → audio_fetch_result mp t urls = sequential_result t urls.
Proof. intros Hmp. unfold audio_fetch_result. rewrite Hmp. by destruct urls as [|? [|??]]. Qed.

Lemma sequential_fetch_extracts mp od t urls :
  truthy mp = false →
  extracts_of (audio_fetch_events mp od t urls) = attempted t urls
  ∧ forallb not_pool (audio_fetch_events mp od t urls) = true.
Proof.
  intros Hmp.
  assert (Hmany : ∀ l,
    extracts_of (EvMkdir od :: audio_batch_events t (attempted t l)
                   ++ match sequential_result t l with
                      | Returns _ => [EvPrint "All audio files downloaded!"]
                      | Raises _ => []
                      end) = attempted t l
    ∧ forallb not_pool (EvMkdir od :: audio_batch_events t (attempted t l)
                   ++ match sequential_result t l with
                      | Returns _ => [EvPrint "All audio files downloaded!"]
                      | Raises _ => []
                      end) = true).
  { intros l. split.
    - change (extracts_of (EvMkdir od :: ?l)) with (extracts_of l).
      rewrite extracts_of_app, extracts_of_audio_batch.
      destruct (sequential_result t l); cbn; by rewrite app_nil_r.
    - cbn [forallb]. rewrite forallb_app, audio_batch_not_pool.
      by destruct (sequential_result t l). }
  unfold audio_fetch_events. rewrite Hmp.
  destruct urls as [|u1 [|u2 urls]]; [apply Hmany| |apply Hmany].
  rewrite attempted_one. unfold audio_job_events. by destruct (extract_fails t u1).
Qed.

Lemma sequential_fetch_files mp od op urls w u f a :
  truthy mp = false →
  u ∈ attempted (path_join od op) urls → ydl_extract_info u (path_join od op) = inr (f, a) →
  is_Some (files (audio_fetch_world mp od (path_join od op) urls w) !! mp3_path f).
Proof.
  intros Hmp Hin Hu. unfold audio_fetch_world. rewrite Hmp.
  assert (Hmany : is_Some (files (sequential_audio_world od (path_join od op) urls w)
                             !! mp3_path f)).
  { unfold sequential_audio_world.
    destruct (sequential_result (path_join od op) urls); cbn [with_events files];
      by apply audio_batch_world_files with u a. }
  destruct urls as [|u1 [|u2 urls]]; [done| |done].
  rewrite attempted_one in Hin. apply list_elem_of_singleton in Hin as ->.
  unfold audio_job_world. rewrite Hu. cbn [files]. rewrite lookup_insert_eq. by eexists.
Qed.

(** With the parallel flag unset, [audio] hands the URLs to the extractor
    one at a time, in the order of the list, and stops at the first URL
    whose fetch fails: the extractor runs are exactly the URLs up to and
    including that one (all of them when none fails).  No pool event is
    added. *)
Theorem audio_sequential_order (self : loc) (od op : string) (urls : list string)
    (mp : pyval) (w : world) :
  has_attr w self "urls" (VList (VStr <$> urls)) →
  audio_ready self od op w →
  has_attr w self "use_multiprocessing" mp →
  truthy mp = false →
  extracts_of (new_events w (audio self w).2) = attempted (path_join od op) urls
  ∧ forallb not_pool (new_events w (audio self w).2) = true.
Proof.
  intros Hurls Hw Hmp Hflag.
  destruct (decide (urls = [])) as [->|Hne].
  - rewrite (audio_empty_list self w Hurls). cbn [snd]. by rewrite new_events_same.
  - destruct (audio_run_events self od op urls mp w Hurls Hne Hw Hmp)
      as (evs2 & -> & Hseg & _).
    destruct (sequential_fetch_extracts mp od (path_join od op) urls Hflag) as [Hex Hnp].
    rewrite extracts_of_app, Hex, (extracts_of_not_download evs2 Hseg), app_nil_r.
    split; [done|]. rewrite forallb_app, Hnp. cbn [andb].
    apply forallb_forall. intros e He. apply not_download_not_pool.
    by eapply forallb_forall in Hseg.
Qed.

(** When, with the parallel flag unset, the URLs before [bad] are fetched
    and the fetch of [bad] fails, [audio] raises the extractor's
    [DownloadError]; the extractor ran on the URLs up to [bad] and on none
    after it; no file is decoded or exported, also not of those already
    fetched; and the files fetched before the failure stay on disk. *)
Theorem audio_stops_at_first_failure (self : loc) (od op : string)
    (pre : list string) (bad : string) (post : list string) (msg : string)
    (mp : pyval) (w : world) :
  has_attr w self "urls" (VList (VStr <$> (pre ++ bad :: post)%list)) →
  audio_ready self od op w →
  has_attr w self "use_multiprocessing" mp →
  truthy mp = false →
  Forall (λ u, extract_fails (path_join od op) u = false) pre →
  ydl_extract_info bad (path_join od op) = inl msg →
  (audio self w).1 = Raises (Exn DownloadError msg)
  ∧ extracts_of (new_events w (audio self w).2) = (pre ++ [bad])%list
  ∧ forallb not_segmentation (new_events w (audio self w).2) = true
  ∧ (∀ u f a, u ∈ pre → ydl_extract_info u (path_join od op) = inr (f, a) →
       is_Some (files (audio self w).2 !! mp3_path f)).
Proof.
  intros Hurls Hw Hmp Hflag Hpre Hbad.
  assert (Hne : (pre ++ bad :: post)%list ≠ []) by (by destruct pre).
  destruct (sequential_result_stops od op pre bad post msg Hpre Hbad) as [Hres Hatt].
  destruct (audio_run_events self od op _ mp w Hurls Hne Hw Hmp) as (evs2 & Hev & _ & Hfail).
  rewrite (sequential_fetch_result mp _ _ Hflag), Hres in Hfail.
  destruct (Hfail _ eq_refl) as (Hr & -> & Hfiles).
  rewrite app_nil_r in Hev. rewrite Hev.
  destruct (sequential_fetch_extracts mp od (path_join od op) (pre ++ bad :: post) Hflag)
    as [Hex _].
  split; [done|]. split; [by rewrite Hex, Hatt|].
  split; [apply audio_fetch_not_segmentation|].
  intros u f a Hu Hok. rewrite Hfiles.
  apply sequential_fetch_files with u a; [done| |done].
  rewrite Hatt. apply elem_of_app. by left.
Qed.

(** With the parallel flag set and two or more URLs, a fetch that fails in
    a worker makes [audio] raise the [DownloadError] of a failing URL, after
    the pool has been torn down: the teardown is the last event, so the
    completion notice is not printed, and nothing is decoded or exported. *)
Theorem audio_pool_failure (self : loc) (od op : string) (urls : list string)
    (bad : string) (mp : pyval) (w : world) :
  has_attr w self "urls" (VList (VStr <$> urls)) →
  (2 ≤ length urls)%nat →
  audio_ready self od op w →
  has_attr w self "use_multiprocessing" mp →
  truthy mp = true →
  bad ∈ urls →
  extract_fails (path_join od op) bad = true →
  (∃ u msg, u ∈ urls ∧ ydl_extract_info u (path_join od op) = inl msg
            ∧ (audio self w).1 = Raises (Exn DownloadError msg))
  ∧ last (new_events w (audio self w).2) = Some EvPoolClose
  ∧ forallb not_segmentation (new_events w (audio self w).2) = true.
Proof.
  intros Hurls Hlen Hw Hmp Hflag Hin Hbad.
  assert (Hne : urls ≠ []) by (intros ->; cbn in Hlen; lia).
  destruct (pooled_result_fails od op urls bad Hin Hbad) as (u & msg & Hu & Hmsg & Hres).
  destruct (audio_run_events self od op _ mp w Hurls Hne Hw Hmp) as (evs2 & Hev & _ & Hfail).
  assert (Hfr : audio_fetch_result mp (path_join od op) urls = Raises (Exn DownloadError msg)).
  { unfold audio_fetch_result. rewrite Hflag, Hres.
    destruct urls as [|u1 [|u2 urls]]; [done | cbn in Hlen; lia | done]. }
  destruct (Hfail _ Hfr) as (Hr & -> & _). rewrite app_nil_r in Hev. rewrite Hev.
  split; [by exists u, msg|]. split; [|apply audio_fetch_not_segmentation].
  unfold audio_fetch_events. rewrite Hflag, Hres.
  destruct urls as [|u1 [|u2 urls]]; [done | cbn in Hlen; lia |].
  rewrite !app_assoc. apply last_snoc.
Qed.

Lemma audio_files_all t urls :
  Forall (λ u, extract_fails t u = false) urls →
  omap (audio_job_file t) urls
  = (λ u, match ydl_extract_info u t with
          | inr (f, _) => VStr (mp3_path f)
          | inl _ => VNone
          end) <$> urls.
Proof.
  induction 1 as [|u urls Hu _ IH]; [done|].
  cbn [omap list_omap fmap list_fmap]. rewrite IH.
  unfold audio_job_file, audio_job_result. unfold extract_fails in Hu.
  by destruct (ydl_extract_info u t) as [|[??]].
Qed.

(** When every fetch succeeds, [download_audios] returns one file per URL,
    in the order of the URLs: with the flag unset, and with the flag set,
    whatever the order in which the workers take the jobs. *)
Theorem download_audios_keeps_url_order (self : loc) (od op : string)
    (urls : list string) (mp : pyval) (w : world) :
  audio_ready self od op w →
  has_attr w self "use_multiprocessing" mp →
  Forall (λ u, extract_fails (path_join od op) u = false) urls →
  ∃ output_files,
    (download_audios self (VList (VStr <$> urls)) w).1 = Returns (VList output_files)
    ∧ length output_files = length urls
    ∧ ∀ i u f a, urls !! i = Some u → ydl_extract_info u (path_join od op) = inr (f, a) →
                 output_files !! i = Some (VStr (mp3_path f)).
Proof.
  intros Hw Hmp Hall. exists (omap (audio_job_file (path_join od op)) urls).
  split; [|rewrite (audio_files_all _ _ Hall); split].
  - destruct (truthy mp) eqn:Hflag.
    + rewrite (download_audios_pooled_spec self od op urls mp w Hw Hmp Hflag).
      by rewrite (pooled_result_all od op urls Hall).
    + rewrite (download_audios_sequential_spec self od op urls mp w Hw Hmp Hflag).
      by destruct (sequential_result_all od op urls Hall) as [-> _].
  - apply length_fmap.
  - intros i u f a Hi Hu. rewrite list_lookup_fmap, Hi. cbn. by rewrite Hu.
Qed.

Lemma bind_two_phases_first {A B} ok1 ok2 (m : M A) (k : A → M B) w :
  emits ok1 m → (∀ a w1, in_two_phases ok1 ok2 w1 (k a w1).2) →
  in_two_phases ok1 ok2 w (bind m k w).2.
Proof.
  intros Hm Hk. unfold bind. specialize (Hm w).
  destruct (m w) as [[a|e] w1]; cbn [snd] in *.
  - eapply in_two_phases_first; [exact Hm | apply Hk].
  - eapply in_two_phases_intro; [exact Hm | apply extends_refl].
Qed.

Lemma bind_two_phases_second {A B} ok1 ok2 (m : M A) (k : A → M B) w :
  in_two_phases ok1 ok2 w (m w).2 → (∀ a, emits ok2 (k a)) →
  in_two_phases ok1 ok2 w (bind m k w).2.
Proof.
  intros Hm Hk. unfold bind.
  destruct (m w) as [[a|e] w1]; cbn [snd] in *; [|done].
  eapply in_two_phases_second; [exact Hm | apply Hk].
Qed.

(** Whatever the configuration, a run of [audio] has two phases: first the
    fetches, with the pool if there is one, during which nothing is decoded
    or exported; then the segmentation, during which the extractor is not
    run and no directory or pool is made.  With several URLs the first file
    is split only when the last one has been fetched. *)
Theorem audio_fetches_before_segmentation (self : loc) (w : world) :
  in_two_phases not_segmentation not_download w (audio self w).2.
Proof.
  unfold audio.
  apply bind_two_phases_first; [apply emits_getattr|]. intros urls w1.
  destruct (negb (truthy urls)); [apply in_two_phases_refl|].
  apply bind_two_phases_first; [apply emits_py_len|]. intros n w2.
  apply bind_two_phases_second; [|intros; apply emits_ret].
  destruct (n =? 1)%nat.
  - apply bind_two_phases_first; [apply emits_py_first|]. intros url w3.
    apply bind_two_phases_first; [apply fetch__download_audio|]. intros f w4.
    apply in_two_phases_intro with w4; [apply extends_refl|].
    apply (segmentation_split_one self f w4).
  - apply bind_two_phases_first; [apply fetch_download_audios|]. intros fs w3.
    apply in_two_phases_intro with w3; [apply extends_refl|].
    apply (segmentation_split_each self fs w3).
Qed.

(** When the split interval is not set, or is set to a value that counts as
    false (0, [None], an empty string or list), [audio] decodes and exports
    nothing, whatever the URLs and the outcome of the fetches. *)
Theorem audio_without_split_interval (self : loc) (v : pyval) (w : world) :
  has_attr w self "split_minutes" v →
  truthy v = false →
  forallb not_segmentation (new_events w (audio self w).2) = true.
Proof.
  intros Hv Hfalse. apply extends_new_events. unfold audio.
  apply bind_extends_heap; [apply keeps_getattr | apply emits_getattr|]. intros urls w1 H1.
  destruct (negb (truthy urls)); [apply extends_refl|].
  apply bind_extends_heap; [apply keeps_py_len | apply emits_py_len|]. intros n w2 H2.
  apply bind_extends; [|intros; apply emits_ret].
  destruct (n =? 1)%nat.
  - apply bind_extends_heap; [apply keeps_py_first | apply emits_py_first|].
    intros url w3 H3.
    apply bind_extends_heap; [apply keeps__download_audio | apply fetch__download_audio|].
    intros f w4 H4.
    assert (Hv4 : has_attr w4 self "split_minutes" v)
      by (apply has_attr_same_heap with w; [congruence | done]).
    rewrite (bind_returns _ _ _ _ _ (getattr_has _ _ _ _ Hv4)), Hfalse.
    apply extends_refl.
  - apply bind_extends_heap; [apply keeps_download_audios | apply fetch_download_audios|].
    intros fs w3 H3.
    assert (Hv3 : has_attr w3 self "split_minutes" v)
      by (apply has_attr_same_heap with w; [congruence | done]).
    rewrite (bind_returns _ _ _ _ _ (getattr_has _ _ _ _ Hv3)), Hfalse.
    apply extends_refl.
Qed.

End Audio_properties.

(** ** [audio]: the segmentation of what was fetched *)

Section Audio_composition.
Context `{!Collaborators}.

Lemma exports_of_app evs1 evs2 :
  exports_of (evs1 ++ evs2) = (exports_of evs1 ++ exports_of evs2)%list.
Proof. apply omap_app. Qed.

Lemma decodes_of_app evs1 evs2 :
  decodes_of (evs1 ++ evs2) = (decodes_of evs1 ++ decodes_of evs2)%list.
Proof. apply omap_app. Qed.


Lemma decodes_of_exports (idxs : list nat) (seg : nat → audio_buffer) (path msg : nat → string) :
  decodes_of (flat_map (λ i, [EvExport (path i) (seg i); EvPrint (msg i)]) idxs) = [].
Proof. induction idxs as [|i idxs IH]; [done | by cbn]. Qed.

Lemma extracts_of_exports (idxs : list nat) (seg : nat → audio_buffer) (path msg : nat → string) :
  extracts_of (flat_map (λ i, [EvExport (path i) (seg i); EvPrint (msg i)]) idxs) = [].
Proof. induction idxs as [|i idxs IH]; [done | by cbn]. Qed.

(** the events of a [split_audio] that goes through *)
Lemma split_world_events input_file a m minutes w :
  ∃ evs, trace (split_world input_file a m minutes w) = (trace w ++ evs)%list
         ∧ decodes_of evs = [input_file]
         ∧ extracts_of evs = []
         ∧ exports_of evs
           = map (λ i : nat, (segment_path input_file (Z.of_nat i + 1),
                               ms_slice a (Z.of_nat i * (m * 60 * 1000))
                                          ((Z.of_nat i + 1) * (m * 60 * 1000))))
                 (seq 0 (Z.to_nat (math_ceil (true_divide (Z.of_nat (length a))
                                                           (m * 60 * 1000))))).
Proof.
  eexists. split; [reflexivity|]. split; [|split].
  - rewrite !decodes_of_app, decodes_of_exports. reflexivity.
  - rewrite !extracts_of_app, extracts_of_exports. reflexivity.
  - rewrite !exports_of_app, exports_of_flat_map. cbn. by rewrite app_nil_r.
Qed.

Lemma split_world_exports input_file a L w evs :
  0 < L →
  float_exact (Z.of_nat (length a)) (L * 60 * 1000) →
  trace (split_world input_file a L (VInt L) w) = (trace w ++ evs)%list →
  exports_of evs = expected_exports input_file a L.
Proof.
  intros HL Hfe Htr.
  destruct (split_world_events input_file a L (VInt L) w) as (evs' & Htr' & _ & _ & Hex).
  rewrite Htr' in Htr. apply app_inv_head in Htr as <-. rewrite Hex.
  rewrite math_ceil_true_divide by (first [lia | exact Hfe]).
  fold (segment_length_ms L). fold (num_segments a L).
  unfold expected_exports. apply map_ext_in. intros i Hi.
  apply in_seq in Hi. f_equal. apply (ms_slice_segment a L HL).
  lia.
Qed.

Lemma split_world_heap input_file a m minutes w :
  heap (split_world input_file a m minutes w) = heap w.
Proof. done. Qed.














(** One URL and a positive split interval: [audio] fetches the URL, splits
    the very audio that the fetch left on disk, and returns the instance.
    The exports are the segments of the fetched audio, in order, next to
    the fetched file.  (The length of the audio and the interval are in the
    range in which the float division of [split_audio] counts the segments
    as the exact quotient does.) *)
Theorem audio_splits_the_fetched_file (self : loc) (od op u f : string)
    (a : list Z) (L : Z) (w : world) :
  has_attr w self "urls" (VList [VStr u]) →
  audio_ready self od op w →
  has_attr w self "split_minutes" (VInt L) →
  0 < L →
  ydl_extract_info u (path_join od op) = inr (f, a) →
  float_exact (Z.of_nat (length a)) (L * 60 * 1000) →
  (audio self w).1 = Returns (VRef self)
  ∧ extracts_of (new_events w (audio self w).2) = [u]
  ∧ decodes_of (new_events w (audio self w).2) = [mp3_path f]
  ∧ exports_of (new_events w (audio self w).2) = expected_exports (mp3_path f) a L.
Proof.
  intros Hurls Hw Hsm HL Hu Hfe.
  rewrite (audio_one_url self od op u w Hurls Hw).
  unfold audio_job_result. rewrite Hu.
  set (w1 := audio_job_world (path_join od op) u w).
  assert (Hsm1 : has_attr w1 self "split_minutes" (VInt L))
    by (apply has_attr_same_heap with w; [apply audio_job_world_heap | done]).
  assert (Hfile : files w1 !! mp3_path f = Some (Mp3 a)).
  { unfold w1, audio_job_world. rewrite Hu. cbn [files]. apply lookup_insert_eq. }
  assert (Heq : (split_one self (VStr (mp3_path f)) >> ret (VRef self)) w1
                = (Returns (VRef self), split_world (mp3_path f) a L (VInt L) w1)).
  { unfold bind at 1. unfold split_one.
    rewrite (bind_returns _ _ _ _ _ (getattr_has _ _ _ _ Hsm1)).
    cbn [truthy]. replace (L =? 0) with false by (symmetry; apply Z.eqb_neq; lia).
    cbn [negb]. unfold bind at 1.
    by rewrite (split_audio_run self (mp3_path f) a (VInt L) L w1 Hfile eq_refl) by lia. }
  rewrite Heq. cbn [fst snd]. split; [done|].
  destruct (split_world_events (mp3_path f) a L (VInt L) w1) as (evs & Htr & Hdec & Hext & _).
  pose proof (split_world_exports (mp3_path f) a L w1 evs HL Hfe Htr) as Hexp.
  rewrite (new_events_app w _ (audio_job_events (path_join od op) u ++ evs))
    by (rewrite Htr; unfold w1; by rewrite audio_job_world_trace, <- app_assoc).
  rewrite extracts_of_app, decodes_of_app, exports_of_app, Hext, Hdec, Hexp.
  unfold audio_job_events, extract_fails. rewrite Hu. done.
Qed.

End Audio_composition.

(** ** Runs of [audio] with the network of [example_net] *)

Lemma audio_sequential_order_witness :
  extracts_of (new_events three_audio_world
                 (@audio example_net fresh_instance three_audio_world).2)
  = @attempted example_net default_template three_audio_urls
  ∧ forallb not_pool (new_events three_audio_world
                        (@audio example_net fresh_instance three_audio_world).2) = true.
Proof.
  apply (@audio_sequential_order example_net fresh_instance "." "%(title)s.%(ext)s"
           three_audio_urls (VBool false) three_audio_world).
  - eexists. split; reflexivity.
  - split; eexists; split; reflexivity.
  - eexists. split; reflexivity.
  - reflexivity.
Defined.

Lemma audio_stops_at_first_failure_witness :
  (@audio example_net fresh_instance three_audio_world).1
  = Raises (Exn DownloadError "Video unavailable")
  ∧ extracts_of (new_events three_audio_world
                   (@audio example_net fresh_instance three_audio_world).2)
    = ["https://youtu.be/a"; "https://youtu.be/gone"]
  ∧ forallb not_segmentation
      (new_events three_audio_world
         (@audio example_net fresh_instance three_audio_world).2) = true
  ∧ (∀ u f a, u ∈ ["https://youtu.be/a"] →
       @ydl_extract_info example_net u default_template = inr (f, a) →
       is_Some (files (@audio example_net fresh_instance three_audio_world).2
                  !! mp3_path f)).
Proof.
  apply (@audio_stops_at_first_failure example_net fresh_instance "." "%(title)s.%(ext)s"
           ["https://youtu.be/a"] "https://youtu.be/gone" ["https://youtu.be/b"]
           "Video unavailable" (VBool false) three_audio_world).
  - eexists. split; reflexivity.
  - split; eexists; split; reflexivity.
  - eexists. split; reflexivity.
  - reflexivity.
  - repeat constructor.
  - reflexivity.
Defined.

Lemma audio_pool_failure_witness :
  (∃ u msg, u ∈ three_audio_urls
            ∧ @ydl_extract_info example_net u default_template = inl msg
            ∧ (@audio example_net fresh_instance three_audio_pool_world).1
              = Raises (Exn DownloadError msg))
  ∧ last (new_events three_audio_pool_world
            (@audio example_net fresh_instance three_audio_pool_world).2)
    = Some EvPoolClose
  ∧ forallb not_segmentation
      (new_events three_audio_pool_world
         (@audio example_net fresh_instance three_audio_pool_world).2) = true.
Proof.
  apply (@audio_pool_failure example_net fresh_instance "." "%(title)s.%(ext)s"
           three_audio_urls "https://youtu.be/gone" (VBool true) three_audio_pool_world).
  - eexists. split; reflexivity.
  - cbn. lia.
  - split; eexists; split; reflexivity.
  - eexists. split; reflexivity.
  - reflexivity.
  - apply elem_of_cons. right. apply elem_of_cons. by left.
  - reflexivity.
Defined.

Lemma download_audios_keeps_url_order_witness :
  ∃ output_files,
    (@download_audios example_net fresh_instance
       (VList (VStr <$> ["https://youtu.be/a"; "https://youtu.be/b"])) two_url_world).1
    = Returns (VList output_files)
    ∧ length output_files = 2%nat
    ∧ ∀ i u f a, ["https://youtu.be/a"; "https://youtu.be/b"] !! i = Some u →
                 @ydl_extract_info example_net u default_template = inr (f, a) →
                 output_files !! i = Some (VStr (mp3_path f)).
Proof.
  apply (@download_audios_keeps_url_order example_net fresh_instance "." "%(title)s.%(ext)s"
           ["https://youtu.be/a"; "https://youtu.be/b"] (VBool true) two_url_world).
  - split; eexists; split; reflexivity.
  - eexists. split; reflexivity.
  - repeat constructor.
Defined.

Lemma audio_without_split_interval_witness :
  forallb not_segmentation
    (new_events one_url_world (@audio example_net fresh_instance one_url_world).2) = true.
Proof.
  apply (@audio_without_split_interval example_net fresh_instance VNone one_url_world).
  - eexists. split; reflexivity.
  - reflexivity.
Defined.


Lemma audio_splits_the_fetched_file_witness :
  (@audio example_net fresh_instance one_url_split_world).1 = Returns (VRef fresh_instance)
  ∧ extracts_of (new_events one_url_split_world
                   (@audio example_net fresh_instance one_url_split_world).2)
    = ["https://youtu.be/a"]
  ∧ decodes_of (new_events one_url_split_world
                  (@audio example_net fresh_instance one_url_split_world).2)
    = [mp3_path "./a.webm"]
  ∧ exports_of (new_events one_url_split_world
                  (@audio example_net fresh_instance one_url_split_world).2)
    = expected_exports (mp3_path "./a.webm") [10; 20; 30] 1.
Proof.
  apply (@audio_splits_the_fetched_file example_net fresh_instance "." "%(title)s.%(ext)s"
           "https://youtu.be/a" "./a.webm" [10; 20; 30] 1 one_url_split_world).
  - eexists. split; reflexivity.
  - split; eexists; split; reflexivity.
  - eexists. split; reflexivity.
  - lia.
  - reflexivity.
  - split; vm_compute; reflexivity.
Defined.

(** the run of the three URLs of which the second is unavailable, one after
    the other: the third URL is never handed to the extractor *)
Example three_audio_run :
  extracts_of (new_events three_audio_world
                 (@audio example_net fresh_instance three_audio_world).2)
  = ["https://youtu.be/a"; "https://youtu.be/gone"].
Proof. vm_compute. reflexivity. Qed.

(** ** [split_audio]: the interval 0, a negative interval, the files left *)

Lemma string_app_inv_tail (s1 s2 t : string) : s1 ++ t = s2 ++ t → s1 = s2.
Proof.
  intros Heq. apply chars_inj. apply (f_equal chars) in Heq.
  rewrite !chars_app in Heq. by apply app_inv_tail in Heq.
Qed.

Lemma path_join_inj a stem r1 r2 :
  path_join a (stem ++ "_part" ++ r1) = path_join a (stem ++ "_part" ++ r2) → r1 = r2.
Proof.
  unfold path_join.
  assert (Hhd : starts_with [SEP] (chars (stem ++ "_part" ++ r1))
                = starts_with [SEP] (chars (stem ++ "_part" ++ r2)))
    by (by destruct stem).
  rewrite <- Hhd.
  destruct (starts_with [SEP] (chars (stem ++ "_part" ++ r1)));
    [|destruct (String.eqb a "" || starts_with [SEP] (reverse (chars a)))];
    intros Heq; repeat (apply String.app_inj in Heq); done.
Qed.

(** the segments of one file go to different paths *)
Lemma segment_path_inj input_file k1 k2 :
  segment_path input_file k1 = segment_path input_file k2 → k1 = k2.
Proof.
  unfold segment_path. intros Heq%path_join_inj.
  apply string_app_inv_tail in Heq. by apply pretty_Z_inj in Heq.
Qed.

Lemma foldl_insert_other (idxs : list nat) (seg : nat → audio_buffer) (path : nat → string) p :
  ∀ fs : gmap string content,
  (∀ i, i ∈ idxs → p ≠ path i) →
  foldl (λ f i, <[path i := Mp3 (seg i)]> f) fs idxs !! p = fs !! p.
Proof.
  induction idxs as [|i idxs IH]; intros fs Hp; [done|].
  cbn [foldl]. rewrite IH by (intros j Hj; apply Hp, elem_of_cons; by right).
  apply lookup_insert_ne. intros Heq. by apply (Hp i); [apply elem_of_cons; left|].
Qed.

Lemma foldl_insert_here (idxs : list nat) (seg : nat → audio_buffer) (path : nat → string) i :
  ∀ fs : gmap string content,
  (∀ j, j ∈ idxs → path j = path i → j = i) →
  i ∈ idxs →
  foldl (λ f i, <[path i := Mp3 (seg i)]> f) fs idxs !! path i = Some (Mp3 (seg i)).
Proof.
  induction idxs as [|j idxs IH]; intros fs Hinj Hin; [by apply elem_of_nil in Hin|].
  cbn [foldl].
  destruct (decide (i ∈ idxs)) as [Hi|Hi].
  - apply IH; [|done]. intros k Hk. apply Hinj, elem_of_cons. by right.
  - apply elem_of_cons in Hin as [->|Hin]; [|done].
    rewrite foldl_insert_other; [apply lookup_insert_eq|].
    intros k Hk Heq. apply Hi. symmetry in Heq.
    rewrite <- (Hinj k); [done | apply elem_of_cons; by right | done].
Qed.

Section Split_edges.

(** [split_audio] with the interval 0 (or [False]) decodes the file and
    then fails on the division by the segment length: it raises
    [ZeroDivisionError], exports nothing and leaves the files as they were. *)
Theorem split_audio_zero_interval (self : loc) (input_file : string) (a : list Z)
    (minutes : pyval) (w : world) :
  files w !! input_file = Some (Mp3 a) →
  as_number minutes = Some 0 →
  split_audio self (VStr input_file) minutes w
  = (Raises (Exn ZeroDivisionError "division by zero"),
     with_events w [EvDecode input_file]).
Proof.
  intros Hfile Hm. unfold split_audio.
  unfold bind at 1. cbn [as_str ret].
  unfold bind at 1. unfold path_exists. rewrite Hfile.
  rewrite bool_decide_eq_true_2 by (by eexists). cbn [orb negb].
  unfold bind at 1. unfold from_mp3, bind at 1, emit at 1. cbn iota beta.
  unfold bind at 1, get_world at 1. cbn [files]. rewrite Hfile.
  unfold ret at 1. by rewrite Hm.
Qed.


(** After [split_audio] with a positive interval, every segment is on disk
    under its own name: the paths of the segments are pairwise different,
    so no export overwrites another.  Every other file, the directories
    and the instances are as they were.  (The length of the audio and the
    interval are in the range in which the float division of the source
    counts the segments as the exact quotient does.) *)
Theorem split_audio_leaves_segments (self : loc) (input_file : string) (a : list Z)
    (L : Z) (w : world) :
  files w !! input_file = Some (Mp3 a) →
  0 < L →
  float_exact (Z.of_nat (length a)) (L * 60 * 1000) →
  let w' := (split_audio self (VStr input_file) (VInt L) w).2 in
  (∀ i : nat, (i < Z.to_nat (num_segments a L))%nat →
     files w' !! segment_path input_file (Z.of_nat i + 1) = Some (Mp3 (segment a L i)))
  ∧ (∀ i j : nat, segment_path input_file (Z.of_nat i + 1)
                  = segment_path input_file (Z.of_nat j + 1) → i = j)
  ∧ (∀ p, (∀ i : nat, (i < Z.to_nat (num_segments a L))%nat →
             p ≠ segment_path input_file (Z.of_nat i + 1)) →
          files w' !! p = files w !! p)
  ∧ dirs w' = dirs w
  ∧ heap w' = heap w.
Proof.
  intros Hfile HL Hfe w'. subst w'.
  rewrite (split_audio_run self input_file a (VInt L) L w Hfile eq_refl) by lia.
  cbn [snd]. unfold split_world. cbn [files dirs heap].
  rewrite math_ceil_true_divide by (first [lia | exact Hfe]).
  assert (Hinj : ∀ i j : nat, segment_path input_file (Z.of_nat i + 1)
                  = segment_path input_file (Z.of_nat j + 1) → i = j).
  { intros i j Heq%segment_path_inj. lia. }
  split; [|split; [done|split; [|done]]].
  - intros i Hi.
    rewrite (foldl_insert_here _
               (λ i, ms_slice a (Z.of_nat i * (L * 60 * 1000))
                                ((Z.of_nat i + 1) * (L * 60 * 1000)))
               (λ i, segment_path input_file (Z.of_nat i + 1)) i).
    + do 2 f_equal. apply (ms_slice_segment a L HL i Hi).
    + intros j _ Heq. by apply Hinj.
    + apply elem_of_seq. unfold num_segments, segment_length_ms in Hi. lia.
  - intros p Hp. apply foldl_insert_other. intros i Hi. apply Hp.
    apply elem_of_seq in Hi. unfold num_segments, segment_length_ms. lia.
Qed.

End Split_edges.

Lemma split_audio_zero_interval_witness :
  split_audio fresh_instance (VStr "./talk.mp3") (VInt 0) talk_world
  = (Raises (Exn ZeroDivisionError "division by zero"),
     with_events talk_world [EvDecode "./talk.mp3"]).
Proof.
  apply (split_audio_zero_interval fresh_instance "./talk.mp3" [10; 20; 30] (VInt 0)
           talk_world); reflexivity.
Defined.


Lemma split_audio_leaves_segments_witness :
  let w' := (split_audio fresh_instance (VStr "out/a.b.mp3") (VInt 1) long_talk_world).2 in
  (∀ i : nat, (i < Z.to_nat (num_segments long_talk 1))%nat →
     files w' !! segment_path "out/a.b.mp3" (Z.of_nat i + 1)
     = Some (Mp3 (segment long_talk 1 i)))
  ∧ (∀ i j : nat, segment_path "out/a.b.mp3" (Z.of_nat i + 1)
                  = segment_path "out/a.b.mp3" (Z.of_nat j + 1) → i = j)
  ∧ (∀ p, (∀ i : nat, (i < Z.to_nat (num_segments long_talk 1))%nat →
             p ≠ segment_path "out/a.b.mp3" (Z.of_nat i + 1)) →
          files w' !! p = files long_talk_world !! p)
  ∧ dirs w' = dirs long_talk_world
  ∧ heap w' = heap long_talk_world.
Proof.
  apply (split_audio_leaves_segments fresh_instance "out/a.b.mp3" long_talk 1
           long_talk_world);
    [reflexivity | lia | split; vm_compute; reflexivity].
Defined.

(** ** Who can change an instance *)

Lemma class_dict_members name m :
  class_dict !! name = Some m →
  (name, m) ∈ map_to_list class_dict.
Proof. apply elem_of_map_to_list. Qed.

(** what the class binds a name to: the cases of [class_dict] *)
Ltac class_dict_cases H :=
  apply class_dict_members in H;
  let l := fresh "l" in
  set (l := map_to_list class_dict) in H; vm_compute in l; subst l;
  repeat (apply elem_of_cons in H as [H|H];
          [first [discriminate H | injection H as -> ->]|]);
  [..|by apply elem_of_nil in H].

Lemma bind_ret_world {A B} (m : M A) (b : B) w : (bind m (λ _, ret b) w).2 = (m w).2.
Proof. unfold bind, ret. by destruct (m w) as [[?|?] ?]. Qed.

Lemma no_callable_same_heap w w' :
  heap w' = heap w → no_callable_attr w → no_callable_attr w'.
Proof. intros Hh Hw l d k v. rewrite Hh. apply Hw. Qed.

Lemma store_attr_no_callable w l name v :
  no_callable_attr w → callable v = false → no_callable_attr (store_attr w l name v).
Proof.
  intros Hw Hv l' d' k v'. unfold store_attr. cbn [heap].
  destruct (decide (l = l')) as [<-|Hne].
  - rewrite lookup_alter_eq. destruct (heap w !! l) as [d|] eqn:Hd; [|done].
    cbn. intros [= <-]. destruct (decide (name = k)) as [<-|Hk].
    + rewrite lookup_insert_eq. by intros [= <-].
    + rewrite lookup_insert_ne by done. by apply (Hw l d).
  - rewrite lookup_alter_ne by done. apply Hw.
Qed.

Lemma store_attr_other w l name v self k x :
  (l = self → name ≠ k) →
  has_attr w self k x → has_attr (store_attr w l name v) self k x.
Proof.
  intros Hne (d & Hd & Hk). unfold has_attr, store_attr. cbn [heap].
  destruct (decide (l = self)) as [->|Hl].
  - exists (<[name := v]> d). rewrite lookup_alter_eq, Hd. split; [done|].
    rewrite lookup_insert_ne; [done | by apply Hne].
  - exists d. by rewrite lookup_alter_ne.
Qed.

Lemma store_attr_same w l name v self :
  has_attr w self name v → has_attr (store_attr w l name v) self name v.
Proof.
  intros (d & Hd & Hk). unfold has_attr, store_attr. cbn [heap].
  destruct (decide (l = self)) as [->|Hl].
  - exists (<[name := v]> d). rewrite lookup_alter_eq, Hd. split; [done|].
    apply lookup_insert_eq.
  - exists d. by rewrite lookup_alter_ne.
Qed.

Lemma setattr_world l name v w :
  (setattr l name v w).2 = w ∨ (setattr l name v w).2 = store_attr w l name v.
Proof.
  destruct (heap w !! l) as [d|] eqn:Hd.
  - right. rewrite setattr_spec; [done | by eexists].
  - left. unfold setattr. by rewrite Hd.
Qed.

Section Instances.
Context `{!Collaborators}.

Lemma keeps_call_function f args :
  is_configuration f = false → f ≠ F_download_webpages →
  keeps_heap (call_function f args).
Proof.
  intros Hf Hpages w.
  destruct f; try discriminate Hf; try (by destruct Hpages);
    unfold call_function; repeat case_match;
    lazymatch goal with
    | |- heap (raise _ _ _).2 = _ => reflexivity
    | |- heap (audio _ _).2 = _ => apply keeps_audio
    | |- heap (download_audios _ _ _).2 = _ => apply keeps_download_audios
    | |- heap (_download_audio _ _ _).2 = _ => apply keeps__download_audio
    | |- heap (download_image_shadowed _ _ _ _).2 = _ => apply keeps_download_image_shadowed
    | |- heap (download_images_shadowed _ _ _).2 = _ => apply keeps_download_images_shadowed
    | |- heap (download_webpage _ _ _ _).2 = _ => apply keeps_download_webpage
    | |- heap (download_video _ _).2 = _ => apply keeps_download_video
    | |- heap (download_image _ _ _).2 = _ => apply keeps_download_image
    | |- heap (download_images _ _ _).2 = _ => apply keeps_download_images
    | |- heap (split_audio _ _ _ _).2 = _ => apply keeps_split_audio
    end.
Qed.

Lemma call_not_callable v args w :
  callable v = false → (call v args w).2 = w.
Proof. by destruct v. Qed.

(** A call [obj.name(args)] of a method that the class defines, other than
    [__init__] and the five configuration methods, changes no attribute of
    any instance, whatever the receiver and the arguments, and whether it
    returns or raises: the operations only read the configuration.  (No
    attribute is to hold a bound method or a function, which a call could
    reach.)  One call is excepted: [download_webpages] with an argument that
    is an instance or holds one among its items, for the name of a page is
    computed with [url.split('://')], which on an instance is the
    configuration method [split]. *)
Theorem operations_keep_configuration (receiver : pyval) (name : string)
    (args : list pyval) (w : world) :
  no_callable_attr w →
  is_Some (class_dict !! name) →
  name ∉ configuration_names →
  (name = "download_webpages" → Forall (λ a, holds_instance a = false) args) →
  heap (call_method receiver name args w).2 = heap w.
Proof.
  intros Hw Hbound Hname Hargs. unfold call_method.
  destruct receiver as [| | | | | |l| |]; try reflexivity.
  unfold bind, getattr.
  destruct (heap w !! l) as [d|] eqn:Hd; [|reflexivity].
  destruct (d !! name) as [v|] eqn:Hv.
  { by rewrite (call_not_callable v args w (Hw l d name v Hd Hv)). }
  destruct (class_dict !! name) as [[f|f]|] eqn:Hc; [| |by destruct Hbound].
  - cbn [call].
    class_dict_cases Hc;
      first [ by apply keeps_call_function
            | solve [ exfalso; apply Hname; unfold configuration_names;
                      repeat first [apply list_elem_of_here | apply list_elem_of_further] ]
            | idtac ].
    specialize (Hargs eq_refl). unfold call_function.
    destruct args as [|urls [|??]]; [reflexivity| |reflexivity].
    apply keeps_download_webpages. by apply Forall_cons_1 in Hargs as [Hurls _].
  - cbn [call]. apply keeps_call_function; class_dict_cases Hc; done.
Qed.

(** The excepted call: a batch of webpages whose one item is the instance
    itself stores "://" as the split interval before it fails. *)
Example download_webpages_of_an_instance :
  let r := @call_method example_net (VRef fresh_instance) "download_webpages"
             [VList [VRef fresh_instance]] fresh_world in
  r.1 = Raises (Exn TypeError "'Dlsys' object is not subscriptable")
  ∧ has_attr fresh_world fresh_instance "split_minutes" VNone
  ∧ has_attr r.2 fresh_instance "split_minutes" (VStr "://").
Proof.
  split; [reflexivity|]. split; eexists; split; reflexivity.
Qed.

Lemma maintains_ret {A} P (a : A) : maintains P (ret a).
Proof. by intros w. Qed.

Lemma maintains_bind {A B} P (m : M A) (k : A → M B) :
  maintains P m → (∀ a, maintains P (k a)) → maintains P (bind m k).
Proof.
  intros Hm Hk w Hw. unfold bind. specialize (Hm w Hw).
  destruct (m w) as [[a|e] w1]; cbn [snd] in *; [by apply Hk | done].
Qed.

Lemma default_dir_same_heap self w w' :
  heap w' = heap w → default_dir_invariant self w → default_dir_invariant self w'.
Proof.
  intros Hh [Hd Hc]. split; [by apply has_attr_same_heap with w|].
  by apply no_callable_same_heap with w.
Qed.

Lemma maintains_setattr self l name v :
  callable v = false →
  (l = self → name = "output_dir" → v = VStr ".") →
  maintains (default_dir_invariant self) (setattr l name v).
Proof.
  intros Hv Hdir w [Hd Hc].
  destruct (setattr_world l name v w) as [->| ->]; [done|].
  split; [|by apply store_attr_no_callable].
  destruct (decide (l = self ∧ name = "output_dir")) as [[-> ->]|Hne].
  - rewrite Hdir by done. by apply store_attr_same.
  - apply store_attr_other; [|done]. intros -> ->. by apply Hne.
Qed.

Lemma maintains_setter self l name v :
  callable v = false → name ≠ "output_dir" →
  maintains (default_dir_invariant self) (setattr l name v >> ret (VRef l)).
Proof.
  intros Hv Hn. apply maintains_bind; [|intros; apply maintains_ret].
  by apply maintains_setattr.
Qed.

Lemma maintains__init__ self l : maintains (default_dir_invariant self) (__init__ l).
Proof.
  unfold __init__.
  repeat (apply maintains_bind; [by apply maintains_setattr | intros _]).
  apply maintains_ret.
Qed.

(** a configuration function called on [l]; [output_dir] is reached only on
    an instance that has no attribute of that name *)
Lemma maintains_configuration self f l args :
  is_configuration f = true →
  Forall (λ a, callable a = false) args →
  (f = F_output_dir → l ≠ self) →
  maintains (default_dir_invariant self) (call_function f (VRef l :: args)).
Proof.
  intros Hf Hargs Hdir.
  destruct f; try discriminate Hf; unfold call_function.
  - destruct args; [apply maintains__init__ | by intros w].
  - destruct args as [|urls [|??]]; [by intros w| |by intros w].
    unfold set_url. destruct urls; try (by intros w); by apply maintains_setter.
  - destruct args as [|p [|??]]; [by intros w| |by intros w].
    apply Forall_cons_1 in Hargs as [Hp _]. by apply maintains_setter.
  - destruct args as [|p [|??]]; [by intros w| |by intros w].
    apply Forall_cons_1 in Hargs as [Hp _].
    apply maintains_bind; [|intros; apply maintains_ret].
    apply maintains_setattr; [done|]. intros ->. by destruct Hdir.
  - destruct args; [|by intros w]. by apply maintains_setter.
  - destruct args as [|p [|??]]; [by intros w| |by intros w].
    apply Forall_cons_1 in Hargs as [Hp _]. by apply maintains_setter.
Qed.

Lemma maintains_keeps {A} self (m : M A) :
  keeps_heap m → maintains (default_dir_invariant self) m.
Proof. intros Hm w Hw. by apply default_dir_same_heap with w. Qed.

Lemma maintains_for_each {A} P (xs : list A) (body : A → M unit) :
  (∀ x, maintains P (body x)) → maintains P (for_each xs body).
Proof.
  intros Hb. induction xs as [|x xs IH]; [apply maintains_ret|].
  cbn [for_each]. apply maintains_bind; [apply Hb | by intros _].
Qed.

Lemma maintains_map_M {A B} P (f : A → M B) (xs : list A) :
  (∀ x, maintains P (f x)) → maintains P (map_M f xs).
Proof.
  intros Hf. induction xs as [|x xs IH]; [apply maintains_ret|].
  cbn [map_M]. apply maintains_bind; [apply Hf|]. intros y.
  apply maintains_bind; [apply IH|]. intros ys. apply maintains_ret.
Qed.

Lemma maintains_with_pool {A} self (body : M A) :
  maintains (default_dir_invariant self) body →
  maintains (default_dir_invariant self) (with_pool body).
Proof.
  intros Hb w Hw. unfold with_pool, bind, emit.
  set (w1 := World _ _ _ _).
  assert (Hw1 : default_dir_invariant self w1) by (by apply default_dir_same_heap with w).
  specialize (Hb w1 Hw1). destruct (body w1) as [r w2]. cbn [snd] in *.
  by apply default_dir_same_heap with w2.
Qed.

(** the name of a page: an item that is an instance has its split interval
    assigned, which is not the output directory *)
Lemma maintains_webpage_filename self url :
  maintains (default_dir_invariant self) (webpage_filename url).
Proof.
  destruct url as [| | | | | |l| |]; try (by intros w Hw).
  unfold webpage_filename.
  apply maintains_bind; [apply maintains_keeps, keeps_getattr|]. intros m.
  destruct m as [| | | | | | |f l'|]; try (by intros w Hw).
  destruct f; try (by intros w Hw).
  apply maintains_bind; [|by intros ? w Hw]. by apply maintains_setter.
Qed.

Lemma maintains_download_webpages self l urls :
  maintains (default_dir_invariant self) (download_webpages l urls).
Proof.
  unfold download_webpages.
  apply maintains_bind; [apply maintains_keeps, keeps_getattr|]. intros od.
  apply maintains_bind; [apply maintains_keeps, keeps_mkdir|]. intros _.
  apply maintains_bind; [apply maintains_keeps, keeps_getattr|]. intros mp.
  apply maintains_bind; [|intros; apply maintains_keeps; keeps_auto].
  destruct (truthy mp).
  - apply maintains_with_pool.
    apply maintains_bind; [apply maintains_keeps, keeps_py_iter|]. intros us.
    apply maintains_bind; [|intros; apply maintains_keeps, keeps_pool_join].
    unfold submit_all. apply maintains_map_M. intros u.
    apply maintains_bind; [apply maintains_webpage_filename|]. intros name.
    apply maintains_keeps. keeps_auto.
  - apply maintains_bind; [apply maintains_keeps, keeps_py_iter|]. intros us.
    unfold run_all. apply maintains_for_each. intros u.
    apply maintains_bind; [apply maintains_webpage_filename|]. intros name.
    apply maintains_keeps. keeps_auto. apply keeps_download_webpage.
Qed.

(** As long as no attribute holds a callable value and no argument is one,
    the calls [obj.name(args)] of the methods that the class defines, on
    any receiver and with any arguments, cannot change the output directory
    that [__init__] set: it stays ["."].  The method [output_dir] is never
    reached on an instance, whose attribute of the same name comes first in
    the lookup, and no other function of the class assigns to it. *)
Theorem output_dir_is_frozen (self : loc) (receiver : pyval) (name : string)
    (args : list pyval) (w : world) :
  default_dir_invariant self w →
  is_Some (class_dict !! name) →
  Forall (λ a, callable a = false) args →
  default_dir_invariant self (call_method receiver name args w).2.
Proof.
  intros Hw Hbound Hargs. unfold call_method.
  destruct receiver as [| | | | | |l| |]; try exact Hw.
  unfold bind, getattr.
  destruct (heap w !! l) as [d|] eqn:Hd; [|exact Hw].
  destruct (d !! name) as [v|] eqn:Hv.
  { destruct Hw as [Hdir Hc]. by rewrite (call_not_callable v args w (Hc l d name v Hd Hv)). }
  assert (Hkeeps : ∀ f xs, is_configuration f = false → f ≠ F_download_webpages →
            default_dir_invariant self (call_function f xs w).2).
  { intros f xs Hf Hpages. apply default_dir_same_heap with w; [|done].
    by apply keeps_call_function. }
  assert (Hself : name = "output_dir" → l ≠ self).
  { intros -> ->. destruct Hw as [(d' & Hd' & Hdir) _]. congruence. }
  destruct (class_dict !! name) as [[f|f]|] eqn:Hc; [| |by destruct Hbound].
  - cbn [call]. class_dict_cases Hc;
      first [ by apply Hkeeps
            | apply maintains_configuration; [done | done | | done]; try discriminate;
              intros _; by apply Hself
            | idtac ].
    unfold call_function. destruct args as [|urls [|??]]; [exact Hw| |exact Hw].
    by apply maintains_download_webpages.
  - cbn [call]. class_dict_cases Hc. by apply Hkeeps.
Qed.

Lemma config_call_effect w self c :
  instance_ok w self → valid_config_call c = true →
  call_method (VRef self) c.1 c.2 w
  = (Returns (VRef self), store_attr w self (config_attr c.1) (config_value c)).
Proof.
  intros Hok Hc. destruct c as [name args]. unfold valid_config_call in Hc.
  cbn [fst snd] in *.
  assert (Hcall : ∀ f body, init_dict !! name = None →
            class_dict !! name = Some (Function f) →
            call_function f (VRef self :: args) = body →
            call_method (VRef self) name args w = body w).
  { intros f body Hn Hf <-. unfold call_method.
    by rewrite (bind_returns _ _ _ _ _
      (getattr_class_function _ _ _ _ (instance_ok_lacks _ _ _ Hok Hn) Hf)). }
  destruct args as [|a [|??]]; [| |done].
  - apply String.eqb_eq in Hc as ->.
    erewrite (Hcall F_multi); [|reflexivity..]. unfold multi.
    by apply setter_returns_self.
  - apply orb_true_iff in Hc as [Hc|Hc]; [apply orb_true_iff in Hc as [Hc|Hc]|].
    + apply andb_true_iff in Hc as [Hn Ha]. apply String.eqb_eq in Hn as ->.
      destruct a; try done;
        (erewrite (Hcall F_set_url); [|reflexivity..]); unfold set_url;
        by apply setter_returns_self.
    + apply String.eqb_eq in Hc as ->.
      erewrite (Hcall F_set_output_path); [|reflexivity..]. unfold set_output_path.
      by apply setter_returns_self.
    + apply String.eqb_eq in Hc as ->.
      erewrite (Hcall F_split); [|reflexivity..]. unfold split.
      by apply setter_returns_self.
Qed.

Lemma valid_config_attr c :
  valid_config_call c = true →
  is_Some (init_dict !! config_attr c.1)
  ∧ c.1 ∈ ["set_url"; "set_output_path"; "multi"; "split"].
Proof.
  destruct c as [name args]. unfold valid_config_call. cbn [fst snd].
  destruct args as [|a [|??]]; [| |done].
  - intros ->%String.eqb_eq. split; [by eexists | set_solver].
  - intros [[[->%String.eqb_eq _]%andb_true_iff | ->%String.eqb_eq]%orb_true_iff
           | ->%String.eqb_eq]%orb_true_iff; (split; [by eexists | set_solver]).
Qed.

Lemma config_attr_inj n1 n2 :
  n1 ∈ ["set_url"; "set_output_path"; "multi"; "split"] →
  n2 ∈ ["set_url"; "set_output_path"; "multi"; "split"] →
  config_attr n1 = config_attr n2 → n1 = n2.
Proof.
  intros H1 H2.
  repeat (apply elem_of_cons in H1 as [->|H1]); [..|by apply elem_of_nil in H1];
    repeat (apply elem_of_cons in H2 as [->|H2]); try (by apply elem_of_nil in H2);
    done.
Qed.

Lemma store_attr_commute w self n1 v1 n2 v2 :
  n1 ≠ n2 →
  store_attr (store_attr w self n1 v1) self n2 v2
  = store_attr (store_attr w self n2 v2) self n1 v1.
Proof.
  intros Hne. unfold store_attr. cbn [heap files dirs trace]. f_equal.
  apply map_eq. intros l. destruct (decide (self = l)) as [<-|Hl].
  - rewrite !lookup_alter_eq. destruct (heap w !! self) as [d|]; [|done].
    cbn. f_equal. by apply insert_insert_ne.
  - by rewrite !lookup_alter_ne.
Qed.

Lemma store_attr_twice w self n v1 v2 :
  store_attr (store_attr w self n v1) self n v2 = store_attr w self n v2.
Proof.
  unfold store_attr. cbn [heap files dirs trace]. f_equal.
  apply map_eq. intros l. destruct (decide (self = l)) as [<-|Hl].
  - rewrite !lookup_alter_eq. destruct (heap w !! self) as [d|]; [|done].
    cbn. f_equal. apply insert_insert_eq.
  - by rewrite !lookup_alter_ne.
Qed.

Lemma config_chain_two w self c1 c2 :
  instance_ok w self → valid_config_call c1 = true → valid_config_call c2 = true →
  chain (VRef self) [c1; c2] w
  = (Returns (VRef self),
     store_attr (store_attr w self (config_attr c1.1) (config_value c1))
                self (config_attr c2.1) (config_value c2)).
Proof.
  intros Hok H1 H2. destruct c1 as [n1 a1] eqn:E1, c2 as [n2 a2] eqn:E2.
  cbn [chain]. rewrite <- E1, <- E2.
  replace n1 with c1.1 by (by rewrite E1). replace a1 with c1.2 by (by rewrite E1).
  replace n2 with c2.1 by (by rewrite E2). replace a2 with c2.2 by (by rewrite E2).
  rewrite <- E1 in H1. rewrite <- E2 in H2.
  rewrite (bind_returns _ _ _ _ _ (config_call_effect w self c1 Hok H1)).
  rewrite (bind_returns _ _ _ _ _ (config_call_effect _ self c2
             (instance_ok_store _ _ _ _ Hok (proj1 (valid_config_attr c1 H1))) H2)).
  done.
Qed.

(** The configuration calls that reach their method can be made in any
    order: two calls of different methods commute, and of two calls of the
    same method the second one alone decides.  The configuration at the end
    of a chain is given by the last call of each method. *)
Theorem configuration_calls_commute (self : loc) (c1 c2 : string * list pyval)
    (w : world) :
  instance_ok w self →
  valid_config_call c1 = true →
  valid_config_call c2 = true →
  (c1.1 ≠ c2.1 → chain (VRef self) [c1; c2] w = chain (VRef self) [c2; c1] w)
  ∧ (c1.1 = c2.1 → chain (VRef self) [c1; c2] w = chain (VRef self) [c2] w).
Proof.
  intros Hok H1 H2.
  destruct (valid_config_attr c1 H1) as [_ Hn1].
  destruct (valid_config_attr c2 H2) as [_ Hn2].
  split; intros Hn.
  - rewrite !config_chain_two by done. f_equal.
    apply store_attr_commute. intros Heq. by apply Hn, config_attr_inj.
  - rewrite config_chain_two by done. rewrite Hn, store_attr_twice.
    destruct c2 as [n2 a2]. cbn [chain fst snd].
    by rewrite (bind_returns _ _ _ _ _ (config_call_effect w self (n2, a2) Hok H2)).
Qed.

(** A configuration call that reaches its method returns the instance and
    stores its value in its attribute, where the operations read it; it
    changes no other attribute of the instance, no other instance, no file
    and no directory, and it prints nothing. *)
Theorem configuration_call_frame (self : loc) (c : string * list pyval) (w : world) :
  instance_ok w self →
  valid_config_call c = true →
  (call_method (VRef self) c.1 c.2 w).1 = Returns (VRef self)
  ∧ has_attr (call_method (VRef self) c.1 c.2 w).2 self (config_attr c.1) (config_value c)
  ∧ (∀ k v, k ≠ config_attr c.1 →
       has_attr w self k v → has_attr (call_method (VRef self) c.1 c.2 w).2 self k v)
  ∧ (∀ l, l ≠ self → heap (call_method (VRef self) c.1 c.2 w).2 !! l = heap w !! l)
  ∧ files (call_method (VRef self) c.1 c.2 w).2 = files w
  ∧ dirs (call_method (VRef self) c.1 c.2 w).2 = dirs w
  ∧ trace (call_method (VRef self) c.1 c.2 w).2 = trace w.
Proof.
  intros Hok Hc. rewrite (config_call_effect w self c Hok Hc). cbn [fst snd].
  split; [done|]. split; [|split; [|split; [|done]]].
  - apply store_attr_has_attr. destruct Hok as (d & Hd & _). by eexists.
  - intros k v Hk Hv. apply store_attr_other; [|done]. by intros _ <-.
  - intros l Hl. unfold store_attr. cbn [heap]. by rewrite lookup_alter_ne.
Qed.

End Instances.

(** ** Configuration: examples *)

Lemma no_callable_attr_map_Forall w :
  map_Forall (λ _ d, map_Forall (λ _ v, callable v = false) d) (heap w) →
  no_callable_attr w.
Proof. intros Hw l d k v Hd Hv. exact (Hw l d Hd k v Hv). Qed.

Lemma operations_keep_configuration_witness :
  heap (@call_method example_net (VRef fresh_instance) "download_webpages"
          [VList [VStr "https://example.com/a/b"]] one_url_world).2
  = heap one_url_world.
Proof.
  apply (@operations_keep_configuration example_net (VRef fresh_instance)
           "download_webpages" [VList [VStr "https://example.com/a/b"]] one_url_world).
  - apply no_callable_attr_map_Forall. apply (bool_decide_unpack _). exact I.
  - eexists. reflexivity.
  - apply (bool_decide_unpack _). exact I.
  - intros _. repeat constructor.
Defined.

Lemma output_dir_is_frozen_witness :
  default_dir_invariant fresh_instance
    (@call_method example_net (VRef fresh_instance) "output_dir" [VStr "downloads"]
       fresh_world).2.
Proof.
  apply (@output_dir_is_frozen example_net fresh_instance (VRef fresh_instance)
           "output_dir" [VStr "downloads"] fresh_world).
  - split.
    + exists init_dict. split; reflexivity.
    + apply no_callable_attr_map_Forall. apply (bool_decide_unpack _). exact I.
  - eexists. reflexivity.
  - repeat constructor.
Defined.

Lemma configuration_calls_commute_witness :
  (("split", [VInt 5]).1 ≠ ("multi", @nil pyval).1 →
   @chain example_net (VRef fresh_instance) [("split", [VInt 5]); ("multi", [])] fresh_world
   = @chain example_net (VRef fresh_instance) [("multi", []); ("split", [VInt 5])]
       fresh_world)
  ∧ (("split", [VInt 5]).1 = ("multi", @nil pyval).1 →
     @chain example_net (VRef fresh_instance) [("split", [VInt 5]); ("multi", [])]
       fresh_world
     = @chain example_net (VRef fresh_instance) [("multi", [])] fresh_world).
Proof.
  apply (@configuration_calls_commute example_net fresh_instance
           ("split", [VInt 5]) ("multi", []) fresh_world).
  - exists init_dict. split; reflexivity.
  - reflexivity.
  - reflexivity.
Defined.

Lemma configuration_call_frame_witness :
  (@call_method example_net (VRef fresh_instance) "set_url" [VStr "https://youtu.be/a"]
     fresh_world).1 = Returns (VRef fresh_instance)
  ∧ has_attr (@call_method example_net (VRef fresh_instance) "set_url"
                [VStr "https://youtu.be/a"] fresh_world).2
      fresh_instance "urls" (VList [VStr "https://youtu.be/a"])
  ∧ (∀ k v, k ≠ "urls" →
       has_attr fresh_world fresh_instance k v →
       has_attr (@call_method example_net (VRef fresh_instance) "set_url"
                   [VStr "https://youtu.be/a"] fresh_world).2 fresh_instance k v)
  ∧ (∀ l, l ≠ fresh_instance →
       heap (@call_method example_net (VRef fresh_instance) "set_url"
               [VStr "https://youtu.be/a"] fresh_world).2 !! l = heap fresh_world !! l)
  ∧ files (@call_method example_net (VRef fresh_instance) "set_url"
             [VStr "https://youtu.be/a"] fresh_world).2 = files fresh_world
  ∧ dirs (@call_method example_net (VRef fresh_instance) "set_url"
            [VStr "https://youtu.be/a"] fresh_world).2 = dirs fresh_world
  ∧ trace (@call_method example_net (VRef fresh_instance) "set_url"
             [VStr "https://youtu.be/a"] fresh_world).2 = trace fresh_world.
Proof.
  apply (@configuration_call_frame example_net fresh_instance
           ("set_url", [VStr "https://youtu.be/a"]) fresh_world).
  - exists init_dict. split; reflexivity.
  - reflexivity.
Defined.

(** ** File names of the batches: inside the output directory *)

(** The file name that a batch derives from a URL never holds a path
    separator: the image name is what follows the last "/", and in the page
    name every "/" has been replaced.  So the path that [os.path.join]
    builds from it is the output directory followed by the name, with
    exactly one "/" between them when the directory is neither empty nor
    ends in one, and nothing between them otherwise: the name never
    replaces the directory and never adds a level below it. *)
Theorem batch_files_inside_output_dir (od url : string) (w : world) :
  (∃ name, image_filename (VStr url) w = (Returns name, w)
           ∧ (SEP ∉ chars name)
           ∧ joined_under od name (path_join od name))
  ∧ (∃ name, webpage_filename (VStr url) w = (Returns name, w)
             ∧ (SEP ∉ chars name)
             ∧ joined_under od name (path_join od name)).
Proof.
  split.
  - pose proof (basename_no_separator url) as Hno.
    exists (basename url). split; [done|]. split; [done|]. by apply path_join_under.
  - pose proof (webpage_name_no_separator url) as Hno.
    exists (replace (last_item (py_split url "://")) "/" "_" ++ ".html").
    split; [done|]. split; [done|]. by apply path_join_under.
Qed.

(** ** A webpage batch with an item that is not a string *)

Section Webpage_items.
Context `{!Collaborators}.

Lemma run_webpages_prefix self od (pre : list string) rest : ∀ w,
  run_all (download_webpage self) webpage_filename (VStr od) ((VStr <$> pre) ++ rest)%list w
  = run_all (download_webpage self) webpage_filename (VStr od) rest (webpages_world od pre w).
Proof.
  induction pre as [|u pre IH]; intros w; [done|].
  unfold run_all in *. cbn [fmap list_fmap app for_each].
  unfold bind at 1. unfold bind at 1. cbn [webpage_filename]. unfold ret at 1.
  cbn [as_str]. unfold bind at 1, ret at 1. unfold bind at 1.
  rewrite download_webpage_spec by apply webpage_job_completes.
  unfold ret at 1. by rewrite IH.
Qed.

(** A sequential webpage batch that meets an item without [split] (a
    number, [None], a list) raises [AttributeError] there.  The pages before
    the item have been fetched and stay on disk, the URLs after it are not
    fetched, and the completion notice is not printed: the batch is not
    checked before it starts. *)
Theorem download_webpages_non_string_item (self : loc) (od : string) (mp : pyval)
    (pre : list string) (x : pyval) (post : list pyval) (w : world) :
  has_attr w self "output_dir" (VStr od) →
  has_attr w self "use_multiprocessing" mp →
  truthy mp = false →
  no_split_attribute x = true →
  download_webpages self (VList ((VStr <$> pre) ++ x :: post)%list) w
  = (Raises (Exn AttributeError ("'" ++ type_name x ++ "' object has no attribute 'split'")),
     webpages_world od pre (after_mkdir od w)).
Proof.
  intros Hod Hmp Hflag Hx. unfold download_webpages.
  rewrite (bind_returns _ _ _ _ _ (getattr_has _ _ _ _ Hod)).
  rewrite (bind_returns _ _ _ _ _ (mkdir_spec od w)). fold (after_mkdir od w).
  assert (Hmp1 : has_attr (after_mkdir od w) self "use_multiprocessing" mp)
    by (by apply has_attr_same_heap with w).
  rewrite (bind_returns _ _ _ _ _ (getattr_has _ _ _ _ Hmp1)). rewrite Hflag.
  unfold bind at 1. cbn [py_iter]. unfold bind at 1, ret at 1.
  rewrite run_webpages_prefix. unfold run_all. cbn [for_each].
  unfold bind at 1. unfold bind at 1.
  by destruct x.
Qed.

(** ** [download_video] on an instance that has a [url] *)

(** [download_video] hands the extractor the URL and, as output template,
    [output_path] alone: the output directory is neither joined to it nor
    created.  A failure of the extractor is raised as it is and nothing is
    written; on success the file is where the extractor put it, the notice
    names the template, and the instance is returned. *)
Theorem download_video_uses_output_path (self : loc) (url op : string) (w : world) :
  has_attr w self "url" (VStr url) →
  url ≠ "" →
  has_attr w self "output_path" (VStr op) →
  download_video self w
  = match ydl_download url op with
    | inl msg => (Raises (Exn DownloadError msg), with_events w [EvExtract url op])
    | inr (path, data) =>
        (Returns (VRef self),
         World (heap w) (<[path := Bytes data]> (files w)) (dirs w)
               (trace w ++ [EvExtract url op;
                            EvPrint ("Video downloaded and saved to: " ++ op)]))
    end.
Proof.
  intros Hurl Hne Hop. unfold download_video.
  rewrite (bind_returns _ _ _ _ _ (getattr_has _ _ _ _ Hurl)).
  cbn [truthy]. replace (String.eqb url "") with false
    by (symmetry; by apply String.eqb_neq).
  cbn [negb].
  rewrite (bind_returns _ _ _ _ _ (getattr_has _ _ _ _ Hop)).
  cbn [as_str]. unfold bind at 1, ret at 1.
  rewrite (bind_returns _ _ _ _ _ (getattr_has _ _ _ _ Hurl)).
  cbn [as_str]. unfold bind at 1, ret at 1. unfold bind at 1, emit at 1.
  destruct (ydl_download url op) as [msg|[path data]]; [done|].
  unfold bind at 1, get_world at 1. unfold bind at 1, set_files at 1.
  cbn [heap files dirs trace].
  set (w1 := World _ _ _ _).
  assert (Hop1 : has_attr w1 self "output_path" (VStr op))
    by (by apply has_attr_same_heap with w).
  rewrite (bind_returns _ _ _ _ _ (getattr_has _ _ _ _ Hop1)).
  cbn [as_str]. unfold bind, ret, print, emit. cbn [heap files dirs trace w1].
  by rewrite <- app_assoc.
Qed.

(** ** The definitions that the class body replaces *)

(** The first [download_image] and the first [download_images] of the class
    body (lines 134-170) are never what an attribute lookup yields, on any
    instance and under any name: the class binds both names to the later
    definitions. *)
Theorem replaced_definitions_unreachable (l : loc) (name : string) (v : pyval)
    (w : world) :
  no_callable_attr w →
  (getattr l name w).1 = Returns v →
  ∀ l', v ≠ VBound F_download_image_134 l' ∧ v ≠ VBound F_download_images_145 l'
        ∧ v ≠ VFunc F_download_image_134 ∧ v ≠ VFunc F_download_images_145.
Proof.
  intros Hw Hv l'. unfold getattr in Hv.
  destruct (heap w !! l) as [d|] eqn:Hd; [|done].
  destruct (d !! name) as [x|] eqn:Hx.
  { cbn in Hv. injection Hv as ->. pose proof (Hw l d name v Hd Hx). by destruct v. }
  destruct (class_dict !! name) as [[f|f]|] eqn:Hc; [| |done];
    cbn in Hv; injection Hv as <-; class_dict_cases Hc; done.
Qed.

(** ** Instances do not share their configuration *)

(** A new instance is another object than every existing one, and a
    configuration call on it stores its value in the new instance and
    leaves the attributes of the existing ones as they are. *)
Theorem instances_are_independent (a : loc) (c : string * list pyval) (w : world) :
  instance_ok w a →
  valid_config_call c = true →
  let b := fresh (dom (heap w)) in
  (Dlsys w).1 = Returns (VRef b)
  ∧ b ≠ a
  ∧ has_attr (call_method (VRef b) c.1 c.2 (Dlsys w).2).2 b (config_attr c.1) (config_value c)
  ∧ (∀ k v, has_attr w a k v → has_attr (call_method (VRef b) c.1 c.2 (Dlsys w).2).2 a k v).
Proof.
  intros Hok Hc b.
  assert (Hba : b ≠ a).
  { intros Heq. destruct Hok as (d & Hd & _).
    apply (is_fresh (dom (heap w))). fold b. rewrite Heq.
    apply elem_of_dom. by eexists. }
  pose proof (Dlsys_instance_ok w) as Hokb. fold b in Hokb.
  rewrite (config_call_effect (Dlsys w).2 b c Hokb Hc). cbn [snd].
  rewrite Dlsys_spec. cbn [fst snd]. fold b.
  split; [done|]. split; [done|]. split.
  - apply store_attr_has_attr. cbn [heap]. rewrite lookup_insert_eq. by eexists.
  - intros k v (d & Hd & Hk). apply store_attr_other; [by intros ->|].
    exists d. cbn [heap]. by rewrite lookup_insert_ne.
Qed.

End Webpage_items.

Lemma download_webpages_non_string_item_witness :
  @download_webpages example_net fresh_instance
    (VList ((VStr <$> ["https://x.com/a"]) ++ [VInt 7; VStr "https://x.com/b"])%list)
    fresh_world
  = (Raises (Exn AttributeError ("'" ++ type_name (VInt 7)
                                 ++ "' object has no attribute 'split'")),
     @webpages_world example_net "." ["https://x.com/a"] (after_mkdir "." fresh_world)).
Proof.
  apply (@download_webpages_non_string_item example_net fresh_instance "." (VBool false)
           ["https://x.com/a"] (VInt 7) [VStr "https://x.com/b"] fresh_world).
  - exists init_dict. split; reflexivity.
  - exists init_dict. split; reflexivity.
  - reflexivity.
  - reflexivity.
Defined.

Lemma download_video_uses_output_path_witness :
  @download_video example_net fresh_instance video_world
  = match @ydl_download example_net "https://youtu.be/v" "%(title)s.%(ext)s" with
    | inl msg =>
        (Raises (Exn DownloadError msg),
         with_events video_world [EvExtract "https://youtu.be/v" "%(title)s.%(ext)s"])
    | inr (path, data) =>
        (Returns (VRef fresh_instance),
         World (heap video_world) (<[path := Bytes data]> (files video_world))
               (dirs video_world)
               (trace video_world
                  ++ [EvExtract "https://youtu.be/v" "%(title)s.%(ext)s";
                      EvPrint ("Video downloaded and saved to: " ++ "%(title)s.%(ext)s")]))
    end.
Proof.
  apply (@download_video_uses_output_path example_net fresh_instance
           "https://youtu.be/v" "%(title)s.%(ext)s" video_world).
  - eexists. split; reflexivity.
  - discriminate.
  - eexists. split; reflexivity.
Defined.

Lemma replaced_definitions_unreachable_witness :
  VFunc F_download_image_228 ≠ VBound F_download_image_134 fresh_instance
  ∧ VFunc F_download_image_228 ≠ VBound F_download_images_145 fresh_instance
  ∧ VFunc F_download_image_228 ≠ VFunc F_download_image_134
  ∧ VFunc F_download_image_228 ≠ VFunc F_download_images_145.
Proof.
  refine (replaced_definitions_unreachable fresh_instance "download_image"
            (VFunc F_download_image_228) fresh_world _ _ fresh_instance).
  - apply no_callable_attr_map_Forall. apply (bool_decide_unpack _). exact I.
  - reflexivity.
Defined.

Lemma instances_are_independent_witness :
  let b := fresh (dom (heap fresh_world)) in
  (Dlsys fresh_world).1 = Returns (VRef b)
  ∧ b ≠ fresh_instance
  ∧ has_attr (@call_method example_net (VRef b) "split" [VInt 5]
                (Dlsys fresh_world).2).2 b "split_minutes" (VInt 5)
  ∧ (∀ k v, has_attr fresh_world fresh_instance k v →
            has_attr (@call_method example_net (VRef b) "split" [VInt 5]
                        (Dlsys fresh_world).2).2 fresh_instance k v).
Proof.
  apply (@instances_are_independent example_net fresh_instance ("split", [VInt 5])
           fresh_world).
  - exists init_dict. split; reflexivity.
  - reflexivity.
Defined.

(** ** The completion notice of the image and webpage batches *)

Lemma prefix_app {A} (l0 y z : list A) :
  (∃ e, y = l0 ++ e)%list → (∃ e, y ++ z = l0 ++ e)%list.
Proof. intros [e ->]. exists (e ++ z)%list. by rewrite app_assoc. Qed.

Lemma ends_with_notice {A} (l0 y : list A) x :
  (∃ e, y = l0 ++ e)%list → (∃ e, y ++ [x] = l0 ++ e ++ [x])%list.
Proof. intros [e ->]. exists e. by rewrite app_assoc. Qed.

Section Batch_notice.
Context `{!Collaborators}.

Lemma download_images_trace self od (urls : list string) w :
  has_attr w self "output_dir" (VStr od) →
  Forall (λ u, is_file_name (basename u) = true) (succeeding urls) →
  ∃ evs, trace (download_images self (VList (VStr <$> urls)) w).2
         = (trace w ++ evs ++ [EvPrint "All images downloaded!"])%list.
Proof.
  intros Hod Hnames. unfold download_images.
  rewrite (bind_returns _ _ _ _ _ (getattr_has _ _ _ _ Hod)).
  rewrite (bind_returns _ _ _ _ _ (mkdir_spec od w)).
  unfold bind at 1.
  rewrite (pooled_batch_spec download_image image_filename basename
             (λ r, Bytes (resp_content r)) "Error downloading image "
             "Image downloaded and saved to: " od F_download_image_228
             download_image_spec (λ u w, eq_refl))
    by (by apply image_jobs_complete).
  cbv zeta. unfold bind, print, emit, ret. cbn [heap files dirs trace snd].
  rewrite batch_world_trace. cbn [trace].
  apply ends_with_notice. repeat apply prefix_app. exists []. by rewrite app_nil_r.
Qed.

Lemma download_webpages_trace self od mp (urls : list string) w :
  has_attr w self "output_dir" (VStr od) →
  has_attr w self "use_multiprocessing" mp →
  ∃ evs, trace (download_webpages self (VList (VStr <$> urls)) w).2
         = (trace w ++ evs ++ [EvPrint "All webpages downloaded!"])%list.
Proof.
  intros Hod Hmp. unfold download_webpages.
  rewrite (bind_returns _ _ _ _ _ (getattr_has _ _ _ _ Hod)).
  rewrite (bind_returns _ _ _ _ _ (mkdir_spec od w)).
  set (w1 := World _ _ _ _).
  assert (Hmp1 : has_attr w1 self "use_multiprocessing" mp)
    by (by apply has_attr_same_heap with w).
  rewrite (bind_returns _ _ _ _ _ (getattr_has _ _ _ _ Hmp1)).
  unfold bind at 1. destruct (truthy mp).
  - rewrite (pooled_batch_spec (download_webpage self) webpage_filename
               (λ u, replace (last_item (py_split u "://")) "/" "_" ++ ".html")
               (λ r, Text (resp_text r)) "Error downloading webpage "
               "Webpage downloaded and saved to: " od F_download_webpage
               (download_webpage_spec self) (λ u w, eq_refl))
      by apply webpage_jobs_complete.
    cbv zeta. unfold bind, print, emit, ret. cbn [heap files dirs trace snd].
    rewrite batch_world_trace. unfold w1. cbn [trace].
    apply ends_with_notice. repeat apply prefix_app. exists []. by rewrite app_nil_r.
  - cbn [py_iter]. unfold bind at 1, ret at 1.
    rewrite (run_all_spec (download_webpage self) webpage_filename
               (λ u, replace (last_item (py_split u "://")) "/" "_" ++ ".html")
               (λ r, Text (resp_text r)) "Error downloading webpage "
               "Webpage downloaded and saved to: " od
               (download_webpage_spec self) (λ u w, eq_refl))
      by apply webpage_jobs_complete.
    unfold bind, print, emit, ret. cbn [heap files dirs trace snd].
    rewrite batch_world_trace. unfold w1. cbn [trace].
    apply ends_with_notice. repeat apply prefix_app. exists []. by rewrite app_nil_r.
Qed.

Lemma all_failing_none_succeeding (urls : list string) :
  failing urls = urls → succeeding urls = [].
Proof.
  intros Hall. pose proof (failing_succeeding_length urls) as Hlen.
  rewrite Hall in Hlen. apply nil_length_inv. lia.
Qed.

(** A webpage batch on a list of strings returns the instance and ends
    with its completion notice, however many of the fetches failed; so does
    an image batch in which every URL whose fetch succeeds ends in a file
    name (a URL that ends in "/" makes [open] fail on the output directory,
    and the batch raises).  When every fetch failed, nothing has been
    written, and the notice "All images downloaded!" (or "All webpages
    downloaded!") is printed all the same. *)
Theorem batches_always_report_completion (self : loc) (od : string) (mp : pyval)
    (urls : list string) (w : world) :
  has_attr w self "output_dir" (VStr od) →
  has_attr w self "use_multiprocessing" mp →
  (Forall (λ u, is_file_name (basename u) = true) (succeeding urls) →
   (download_images self (VList (VStr <$> urls)) w).1 = Returns (VRef self)
   ∧ last (new_events w (download_images self (VList (VStr <$> urls)) w).2)
     = Some (EvPrint "All images downloaded!")
   ∧ (failing urls = urls →
      writes_of (new_events w (download_images self (VList (VStr <$> urls)) w).2) = []))
  ∧ ((download_webpages self (VList (VStr <$> urls)) w).1 = Returns (VRef self)
     ∧ last (new_events w (download_webpages self (VList (VStr <$> urls)) w).2)
       = Some (EvPrint "All webpages downloaded!")
     ∧ (failing urls = urls →
        writes_of (new_events w (download_webpages self (VList (VStr <$> urls)) w).2)
        = [])).
Proof.
  intros Hod Hmp. split.
  - intros Hnames.
    destruct (download_images_completed self od urls w Hod Hnames) as (Hret & Hwr & _).
    destruct (download_images_trace self od urls w Hod Hnames) as (evs & Htr).
    split; [done|]. split.
    + rewrite (new_events_app _ _ _ Htr). apply last_snoc.
    + intros Hall. rewrite (all_failing_none_succeeding urls Hall) in Hwr.
      by apply Permutation_nil_r in Hwr.
  - destruct (download_webpages_completed self od mp urls w Hod Hmp) as (Hret & Hwr & _).
    destruct (download_webpages_trace self od mp urls w Hod Hmp) as (evs & Htr).
    split; [done|]. split.
    + rewrite (new_events_app _ _ _ Htr). apply last_snoc.
    + intros Hall. rewrite (all_failing_none_succeeding urls Hall) in Hwr.
      by apply Permutation_nil_r in Hwr.
Qed.

End Batch_notice.

Lemma batches_always_report_completion_witness :
  ((@download_images example_net fresh_instance
      (VList (VStr <$> ["https://x.com/img/missing.png"; "https://down.example/a.png"]))
      fresh_world).1 = Returns (VRef fresh_instance)
   ∧ last (new_events fresh_world
             (@download_images example_net fresh_instance
                (VList (VStr <$> ["https://x.com/img/missing.png";
                                  "https://down.example/a.png"])) fresh_world).2)
     = Some (EvPrint "All images downloaded!")
   ∧ (@failing example_net ["https://x.com/img/missing.png"; "https://down.example/a.png"]
      = ["https://x.com/img/missing.png"; "https://down.example/a.png"] →
      writes_of (new_events fresh_world
                   (@download_images example_net fresh_instance
                      (VList (VStr <$> ["https://x.com/img/missing.png";
                                        "https://down.example/a.png"])) fresh_world).2)
      = []))
  ∧ ((@download_webpages example_net fresh_instance
        (VList (VStr <$> ["https://x.com/img/missing.png"; "https://down.example/a.png"]))
        fresh_world).1 = Returns (VRef fresh_instance)
     ∧ last (new_events fresh_world
               (@download_webpages example_net fresh_instance
                  (VList (VStr <$> ["https://x.com/img/missing.png";
                                    "https://down.example/a.png"])) fresh_world).2)
       = Some (EvPrint "All webpages downloaded!")
     ∧ (@failing example_net ["https://x.com/img/missing.png"; "https://down.example/a.png"]
        = ["https://x.com/img/missing.png"; "https://down.example/a.png"] →
        writes_of (new_events fresh_world
                     (@download_webpages example_net fresh_instance
                        (VList (VStr <$> ["https://x.com/img/missing.png";
                                          "https://down.example/a.png"])) fresh_world).2)
        = [])).
Proof.
  destruct (@batches_always_report_completion example_net fresh_instance "." (VBool false)
              ["https://x.com/img/missing.png"; "https://down.example/a.png"] fresh_world)
    as (Himages & Hpages).
  - exists init_dict. split; reflexivity.
  - exists init_dict. split; reflexivity.
  - split; [|exact Hpages]. apply Himages. constructor.
Defined.

(** both fetches of this batch fail, nothing is written, and the batch
    reports that all images were downloaded *)
Example two_failing_images_run :
  last (new_events fresh_world
          (@download_images example_net fresh_instance
             (VList [VStr "https://x.com/img/missing.png"; VStr "https://down.example/a.png"])
             fresh_world).2)
  = Some (EvPrint "All images downloaded!")
  ∧ files (@download_images example_net fresh_instance
             (VList [VStr "https://x.com/img/missing.png"; VStr "https://down.example/a.png"])
             fresh_world).2 = ∅.
Proof. split; vm_compute; reflexivity. Qed.

(** ** Pools are torn down *)

Section Pools_torn_down.
Context `{!Collaborators}.

Lemma not_pool_no_bracket e : not_pool e = true → not_pool_bracket e = true.
Proof. by destruct e. Qed.

Lemma one_pool_none evs : forallb not_pool_bracket evs = true → one_pool_at_most evs.
Proof. by left. Qed.

Lemma one_pool_before pre evs :
  forallb not_pool_bracket pre = true → one_pool_at_most evs →
  one_pool_at_most (pre ++ evs).
Proof.
  intros Hpre [Hno|(p & m & q & -> & Hp & Hm & Hq)].
  - left. by rewrite forallb_app, Hpre, Hno.
  - right. exists (pre ++ p)%list, m, q. rewrite <- app_assoc.
    by rewrite forallb_app, Hpre, Hp.
Qed.

Lemma one_pool_after evs post :
  one_pool_at_most evs → forallb not_pool_bracket post = true →
  one_pool_at_most (evs ++ post).
Proof.
  intros [Hno|(p & m & q & -> & Hp & Hm & Hq)] Hpost.
  - left. by rewrite forallb_app, Hno, Hpost.
  - right. exists p, m, (q ++ post)%list. split.
    + rewrite <- !app_assoc. cbn [app]. by rewrite <- !app_assoc.
    + by rewrite forallb_app, Hq, Hpost.
Qed.

Lemma tears_down_plain {A} (m : M A) : emits not_pool_bracket m → tears_down m.
Proof. intros Hm w. destruct (Hm w) as (evs & Htr & Hok). exists evs. by split; [|left]. Qed.

Lemma tears_down_first {A B} (m : M A) (k : A → M B) :
  emits not_pool_bracket m → (∀ a, tears_down (k a)) → tears_down (bind m k).
Proof.
  intros Hm Hk w. unfold bind. destruct (Hm w) as (e1 & H1 & F1).
  destruct (m w) as [[a|e] w1]; cbn [snd] in *.
  - destruct (Hk a w1) as (e2 & H2 & F2). exists (e1 ++ e2)%list.
    split; [by rewrite H2, H1, <- app_assoc | by apply one_pool_before].
  - exists e1. by split; [|left].
Qed.

Lemma tears_down_last {A B} (m : M A) (k : A → M B) :
  tears_down m → (∀ a, emits not_pool_bracket (k a)) → tears_down (bind m k).
Proof.
  intros Hm Hk w. unfold bind. destruct (Hm w) as (e1 & H1 & F1).
  destruct (m w) as [[a|e] w1]; cbn [snd] in *.
  - destruct (Hk a w1) as (e2 & H2 & F2). exists (e1 ++ e2)%list.
    split; [by rewrite H2, H1, <- app_assoc | by apply one_pool_after].
  - by exists e1.
Qed.

(** [with multiprocessing.Pool() as pool: body] brackets what [body] adds *)
Lemma tears_down_with_pool {A} (body : M A) :
  emits not_pool_bracket body → tears_down (with_pool body).
Proof.
  intros Hb w. unfold with_pool, bind, emit.
  set (w0 := World (heap w) (files w) (dirs w) (trace w ++ [EvPoolOpen])).
  destruct (Hb w0) as (mid & Hmid & Fmid).
  destruct (body w0) as [r w1]. cbn [snd trace] in *.
  exists (EvPoolOpen :: mid ++ [EvPoolClose])%list. split.
  - rewrite Hmid. unfold w0. cbn [trace]. by rewrite <- !app_assoc.
  - right. exists [], mid, []. by repeat split.
Qed.

Lemma inside_pool_map target f xs :
  (∀ x, emits not_pool (f x)) → emits not_pool_bracket (pool_map target f xs).
Proof.
  intros Hf. apply emits_pool_map_of; [done|]. intros x.
  eapply emits_weaken; [apply not_pool_no_bracket | apply Hf].
Qed.

Lemma inside_submit_all target filename od urls :
  (∀ u, emits not_pool_bracket (filename u)) →
  emits not_pool_bracket (submit_all target filename od urls).
Proof. intros Hf. unfold submit_all. emits_auto. Qed.

Lemma inside_pool_join {A} (tasks : list (M A)) :
  Forall (emits not_pool_bracket) tasks → emits not_pool_bracket (pool_join tasks).
Proof.
  intros Ht. unfold pool_join. apply emits_bind; [by apply emits_pool_run_of|].
  intros done. emits_auto.
Qed.

Lemma inside_batch target (job : pyval → pyval → M pyval) filename od urls :
  (∀ u p, emits not_pool (job u p)) → (∀ u, emits not_pool_bracket (filename u)) →
  emits not_pool_bracket
    (let! us := py_iter urls in
     let! tasks := submit_all target filename od us in
     pool_join (map (λ t : pyval * pyval, job t.1 t.2) tasks)).
Proof.
  intros Hj Hf.
  apply emits_bind; [apply emits_py_iter|]. intros us.
  apply emits_bind; [by apply inside_submit_all|]. intros tasks.
  apply inside_pool_join, Forall_forall. intros t Hin.
  apply list_elem_of_fmap in Hin as ([u p] & -> & _).
  eapply emits_weaken; [apply not_pool_no_bracket | apply Hj].
Qed.

Lemma plain_not_pool {A} (m : M A) : emits not_pool m → emits not_pool_bracket m.
Proof. apply emits_weaken, not_pool_no_bracket. Qed.

Lemma plain_run_all job filename od urls :
  (∀ u p, emits not_pool (job u p)) → (∀ u, emits not_pool (filename u)) →
  emits not_pool_bracket (run_all job filename od urls).
Proof. intros Hj Hf. by apply plain_not_pool, emits_run_all. Qed.

Lemma plain_mkdir p : emits not_pool_bracket (mkdir p).
Proof. by apply emits_mkdir. Qed.

Lemma plain_notice {A} msg (a : A) : emits not_pool_bracket (print msg >> ret a).
Proof. emits_auto. Qed.

Lemma tears_down_download_audios self urls : tears_down (download_audios self urls).
Proof.
  unfold download_audios.
  apply tears_down_first; [apply emits_getattr|]. intros od.
  apply tears_down_first; [apply plain_mkdir|]. intros _.
  apply tears_down_first; [apply emits_getattr|]. intros mp.
  apply tears_down_last; [|intros; apply plain_notice].
  destruct (truthy mp).
  - apply tears_down_with_pool, inside_pool_map. intros x. apply emits__download_audio.
  - apply tears_down_plain.
    apply emits_bind; [apply emits_py_iter|]. intros xs. apply emits_map_M. intros x.
    apply plain_not_pool, emits__download_audio.
Qed.

Lemma tears_down_audio self : tears_down (audio self).
Proof.
  unfold audio.
  apply tears_down_first; [apply emits_getattr|]. intros urls.
  destruct (negb (truthy urls)); [apply tears_down_plain, emits_raise|].
  apply tears_down_first; [apply emits_py_len|]. intros n.
  apply tears_down_last; [|intros; apply emits_ret].
  destruct (n =? 1)%nat.
  - apply tears_down_plain.
    apply emits_bind; [apply emits_py_first|]. intros url.
    apply emits_bind; [apply plain_not_pool, emits__download_audio|]. intros f.
    apply plain_not_pool. change (emits not_pool (split_one self f)).
    unfold split_one. emits_auto. apply emits_split_audio.
  - apply tears_down_last; [apply tears_down_download_audios|]. intros fs.
    apply plain_not_pool. change (emits not_pool (split_each self fs)).
    unfold split_each. emits_auto. apply emits_split_audio.
Qed.

Lemma tears_down_download_images self urls : tears_down (download_images self urls).
Proof.
  unfold download_images.
  apply tears_down_first; [apply emits_getattr|]. intros od.
  apply tears_down_first; [apply plain_mkdir|]. intros _.
  apply tears_down_last; [|intros; apply plain_notice].
  apply tears_down_with_pool, inside_batch.
  - apply emits_download_image.
  - intros u. apply emits_image_filename.
Qed.

Lemma tears_down_download_images_shadowed self urls :
  tears_down (download_images_shadowed self urls).
Proof.
  unfold download_images_shadowed.
  apply tears_down_first; [apply emits_getattr|]. intros od.
  apply tears_down_first; [apply plain_mkdir|]. intros _.
  apply tears_down_first; [apply emits_getattr|]. intros mp.
  apply tears_down_last; [|intros; apply plain_notice].
  destruct (truthy mp).
  - apply tears_down_with_pool, inside_batch.
    + apply emits_download_image.
    + intros u. apply emits_image_filename.
  - apply tears_down_plain.
    apply emits_bind; [apply emits_py_iter|]. intros us.
    apply plain_run_all; [apply emits_download_image | intros; apply emits_image_filename].
Qed.

Lemma tears_down_download_webpages self urls : tears_down (download_webpages self urls).
Proof.
  unfold download_webpages.
  apply tears_down_first; [apply emits_getattr|]. intros od.
  apply tears_down_first; [apply plain_mkdir|]. intros _.
  apply tears_down_first; [apply emits_getattr|]. intros mp.
  apply tears_down_last; [|intros; apply plain_notice].
  destruct (truthy mp).
  - apply tears_down_with_pool, inside_batch.
    + apply emits_download_webpage.
    + intros u. apply emits_webpage_filename.
  - apply tears_down_plain.
    apply emits_bind; [apply emits_py_iter|]. intros us.
    apply plain_run_all; [apply emits_download_webpage | intros; apply emits_webpage_filename].
Qed.

Lemma plain_download_image_shadowed self url output_path :
  emits not_pool_bracket (download_image_shadowed self url output_path).
Proof.
  unfold download_image_shadowed. emits_auto.
  apply plain_not_pool, emits_fetch_to_file.
Qed.

Lemma plain_download_video self : emits not_pool_bracket (download_video self).
Proof. unfold download_video. emits_auto. Qed.

Lemma plain_configuration f args :
  is_configuration f = true → emits not_pool_bracket (call_function f args).
Proof.
  intros Hf. destruct f; try discriminate Hf; unfold call_function;
    repeat case_match; subst;
    unfold __init__, set_url, set_output_path, output_dir, multi, split;
    emits_auto.
Qed.

(** Every function of the class, on any arguments, makes at most one
    worker pool and tears it down before it returns or raises: among the
    events of a call, either no pool is made, or one is made and torn down,
    and none is made before, inside or after it. *)
Theorem pools_are_torn_down (f : func_id) (args : list pyval) (w : world) :
  one_pool_at_most (new_events w (call_function f args w).2).
Proof.
  assert (Hall : tears_down (call_function f args)).
  { destruct (is_configuration f) eqn:Hf;
      [by apply tears_down_plain, plain_configuration|].
    destruct f; try discriminate Hf; unfold call_function; repeat case_match;
      lazymatch goal with
      | |- tears_down (raise _ _) => apply tears_down_plain, emits_raise
      | |- tears_down (audio _) => apply tears_down_audio
      | |- tears_down (download_audios _ _) => apply tears_down_download_audios
      | |- tears_down (_download_audio _ _) =>
          apply tears_down_plain, plain_not_pool, emits__download_audio
      | |- tears_down (download_image_shadowed _ _ _) =>
          apply tears_down_plain, plain_download_image_shadowed
      | |- tears_down (download_images_shadowed _ _) =>
          apply tears_down_download_images_shadowed
      | |- tears_down (download_webpage _ _ _) =>
          apply tears_down_plain, plain_not_pool, emits_download_webpage
      | |- tears_down (download_webpages _ _) => apply tears_down_download_webpages
      | |- tears_down (download_video _) => apply tears_down_plain, plain_download_video
      | |- tears_down (download_image _ _) =>
          apply tears_down_plain, plain_not_pool, emits_download_image
      | |- tears_down (download_images _ _) => apply tears_down_download_images
      | |- tears_down (split_audio _ _ _) =>
          apply tears_down_plain, plain_not_pool, emits_split_audio
      end. }
  destruct (Hall w) as (evs & Htr & Hok). by rewrite (new_events_app _ _ _ Htr).
Qed.

End Pools_torn_down.
